(** * MCEM for the hidden conjunctive Bayesian network model

    A shallow embedding of [src/mcem_hcbn.cpp] and [src/mcem.hpp] of the
    mccbn package, and the properties of its inference core.

    Numbers.  A C++ [double] (and the few [float]s) is an extended real:
    a finite real, one of the two infinities, or NaN.  Finite arithmetic is
    exact (no rounding, no overflow, no underflow, one zero); the special
    values follow IEEE 754, so that a division by zero and a [log 0] behave
    as they do in the program.  A product of powers or an exponential
    that is positive here can underflow to 0 in the program, so a
    property that needs a sum of weights to differ from 0 takes the sum
    as the program computes it.  Where the program stores a computed
    [double] in a [float], the range of the [float] is kept: [to_float];
    a parameter of type [float] stands for the value the [float] holds.
    [unsigned int] is a [Z] with its wrap-around modulo 2^32 written out
    where the program does arithmetic on it; sizes of vectors and
    matrices are [nat].

    Containers.  An Eigen vector is a list, an Eigen matrix the list of its
    rows.

    Effects.  Random generators are threaded explicitly; an exception is an
    [Error] result of the entry point that lets it escape. *)

From Stdlib Require Import String.
From Stdlib Require Import Reals Lra Lia List Bool Arith ZArith.
From Stdlib Require Import Permutation.
Import ListNotations.

(** ** Doubles *)

Inductive double : Type :=
| Fin (r : R)
| PInf
| NInf
| NaN.

Declare Scope double_scope.
Delimit Scope double_scope with D.
Bind Scope double_scope with double.

Module Dbl.

Local Open Scope R_scope.

Definition zero : double := Fin 0.
Definition one : double := Fin 1.

Definition of_nat (n : nat) : double := Fin (INR n).
Definition of_Z (z : Z) : double := Fin (IZR z).

(** The infinity that has the sign of [r]; NaN when [r] is zero. *)
Definition inf_of_sign (r : R) : double :=
  match total_order_T 0 r with
  | inleft (left _) => PInf
  | inleft (right _) => NaN
  | inright _ => NInf
  end.

Definition opp (x : double) : double :=
  match x with
  | Fin r => Fin (- r)
  | PInf => NInf
  | NInf => PInf
  | NaN => NaN
  end.

Definition add (x y : double) : double :=
  match x, y with
  | Fin a, Fin b => Fin (a + b)
  | NaN, _ | _, NaN => NaN
  | PInf, NInf | NInf, PInf => NaN
  | PInf, _ | _, PInf => PInf
  | NInf, _ | _, NInf => NInf
  end.

Definition sub (x y : double) : double := add x (opp y).

Definition mul (x y : double) : double :=
  match x, y with
  | Fin a, Fin b => Fin (a * b)
  | NaN, _ | _, NaN => NaN
  | Fin a, PInf | PInf, Fin a => inf_of_sign a
  | Fin a, NInf | NInf, Fin a => inf_of_sign (- a)
  | PInf, PInf | NInf, NInf => PInf
  | PInf, NInf | NInf, PInf => NInf
  end.

(** [x / y]; a finite non-zero [x] over zero is the infinity of the sign
    of [x], and [0 / 0] is NaN. *)
Definition div (x y : double) : double :=
  match x, y with
  | NaN, _ | _, NaN => NaN
  | Fin a, Fin b =>
      if Req_dec_T b 0 then inf_of_sign a else Fin (a / b)
  | Fin _, PInf | Fin _, NInf => Fin 0
  | PInf, Fin b => if Rlt_dec b 0 then NInf else PInf
  | NInf, Fin b => if Rlt_dec b 0 then PInf else NInf
  | PInf, PInf | PInf, NInf | NInf, PInf | NInf, NInf => NaN
  end.

(** [array().inverse()] *)
Definition inverse (x : double) : double := div one x.

(** [std::log] *)
Definition log (x : double) : double :=
  match x with
  | Fin r =>
      match total_order_T 0 r with
      | inleft (left _) => Fin (ln r)
      | inleft (right _) => NInf
      | inright _ => NaN
      end
  | PInf => PInf
  | NInf => NaN
  | NaN => NaN
  end.

(** [std::exp] *)
Definition exp (x : double) : double :=
  match x with
  | Fin r => Fin (Rtrigo_def.exp r)
  | PInf => PInf
  | NInf => Fin 0
  | NaN => NaN
  end.

(** [std::pow] at an exponent that is a count: [pow (x, 0)] is 1 for
    every [x], NaN included. *)
Definition pow (x : double) (n : nat) : double :=
  match n with
  | O => one
  | S _ =>
      match x with
      | Fin r => Fin (r ^ n)
      | PInf => PInf
      | NInf => if Nat.odd n then NInf else PInf
      | NaN => NaN
      end
  end.

(** [std::abs] *)
Definition abs (x : double) : double :=
  match x with
  | Fin r => Fin (Rabs r)
  | PInf | NInf => PInf
  | NaN => NaN
  end.

(** [std::isfinite] *)
Definition isfinite (x : double) : bool :=
  match x with Fin _ => true | _ => false end.

(** [x == y]: false as soon as one side is NaN. *)
Definition eqb (x y : double) : bool :=
  match x, y with
  | Fin a, Fin b => if Req_dec_T a b then true else false
  | PInf, PInf | NInf, NInf => true
  | _, _ => false
  end.

(** [x != y] *)
Definition neqb (x y : double) : bool := negb (eqb x y).

(** [x < y] *)
Definition ltb (x y : double) : bool :=
  match x, y with
  | Fin a, Fin b => if Rlt_dec a b then true else false
  | NInf, Fin _ | NInf, PInf | Fin _, PInf => true
  | _, _ => false
  end.

(** [x <= y] *)
Definition leb (x y : double) : bool :=
  match x, y with
  | Fin a, Fin b => if Rle_dec a b then true else false
  | NInf, Fin _ | NInf, PInf | Fin _, PInf => true
  | PInf, PInf | NInf, NInf => true
  | _, _ => false
  end.

(** [x > y] *)
Definition gtb (x y : double) : bool := ltb y x.

End Dbl.

Arguments Dbl.add : simpl never.
Arguments Dbl.sub : simpl never.
Arguments Dbl.mul : simpl never.
Arguments Dbl.div : simpl never.
Arguments Dbl.inverse : simpl never.
Arguments Dbl.log : simpl never.
Arguments Dbl.exp : simpl never.
Arguments Dbl.pow : simpl never.
Arguments Dbl.abs : simpl never.
Arguments Dbl.eqb : simpl never.
Arguments Dbl.neqb : simpl never.
Arguments Dbl.ltb : simpl never.
Arguments Dbl.leb : simpl never.
Arguments Dbl.gtb : simpl never.
Arguments Dbl.of_nat : simpl never.
Arguments Dbl.of_Z : simpl never.

Infix "+" := Dbl.add : double_scope.
Infix "-" := Dbl.sub : double_scope.
Infix "*" := Dbl.mul : double_scope.
Infix "/" := Dbl.div : double_scope.

(** [DBL_EPSILON] of <cfloat>: 2^-52. *)
Definition DBL_EPSILON : double := Fin (/ 2 ^ 52).

(** A [double] stored in a [float], as [float W = weights.sum()] does on
    line 326 of mcem_hcbn.cpp.  A magnitude of at most 2^-150, half the
    smallest positive [float], becomes 0; a magnitude of 2^128 - 2^103
    or more, past the largest [float], becomes an infinity; a value in
    between is kept as it is, without rounding. *)
Definition to_float (x : double) : double :=
  match x with
  | Fin r =>
      if Rle_dec (- / 2 ^ 150) r then
        if Rle_dec r (/ 2 ^ 150) then Fin 0
        else if Rle_dec (2 ^ 128 - 2 ^ 103) r then PInf else Fin r
      else if Rle_dec r (- (2 ^ 128 - 2 ^ 103)) then NInf else Fin r
  | PInf => PInf
  | NInf => NInf
  | NaN => NaN
  end.

(** ** Vectors and matrices *)

Definition VectorXd := list double.
Definition RowVectorXd := list double.
Definition VectorXi := list nat.
Definition RowVectorXb := list bool.
Definition MatrixXd := list (list double).
Definition MatrixXb := list (list bool).
Definition MatrixXi := list (list Z).

(** [v.sum()] *)
Definition vsum (v : VectorXd) : double :=
  fold_right Dbl.add Dbl.zero v.

(** Coefficient-wise combination of two vectors of one size. *)
Fixpoint zip_with {A B C : Type} (f : A -> B -> C)
         (a : list A) (b : list B) : list C :=
  match a, b with
  | x :: a', y :: b' => f x y :: zip_with f a' b'
  | _, _ => []
  end.

(** [a.dot(b)] *)
Definition dot (a b : VectorXd) : double :=
  vsum (zip_with Dbl.mul a b).

(** [M * v], a matrix by a column vector. *)
Definition mat_vec (M : MatrixXd) (v : VectorXd) : VectorXd :=
  map (fun row => dot row v) M.

(** [M(i, j)] *)
Definition coeff {A : Type} (d : A) (M : list (list A)) (i j : nat) : A :=
  nth j (nth i M []) d.

(** [M.col(j)] *)
Definition col (M : MatrixXd) (j : nat) : VectorXd :=
  map (fun row => nth j row Dbl.zero) M.

(** [v.cast<double>()] *)
Definition cast_double (v : VectorXi) : VectorXd := map Dbl.of_nat v.

(** ** Log-likelihood kernels *)

(** [log_bernoulli_process], lines 83-106. *)
Definition log_bernoulli_process (dist : VectorXd) (eps : double) (p : nat)
  : VectorXd :=
  if Dbl.eqb eps Dbl.zero then
    map (fun d =>
           if Dbl.neqb d Dbl.zero then
             (Dbl.log (eps + DBL_EPSILON) * d +
              Dbl.log (Dbl.one - eps - DBL_EPSILON) * (Dbl.of_nat p - d))%D
           else Dbl.zero) dist
  else
    map (fun d =>
           (Dbl.log eps * d + Dbl.log (Dbl.one - eps) * (Dbl.of_nat p - d))%D)
        dist.

(** The loop of lines 119-123. *)
Definition bernoulli_term_eps0 (eps : double) (p : nat) (llhood : double)
           (dist : VectorXd) : double :=
  fold_left
    (fun llhood d =>
       if Dbl.neqb d Dbl.zero then
         (llhood + (Dbl.log (eps + DBL_EPSILON) * d +
                    Dbl.log (Dbl.one - eps - DBL_EPSILON) *
                    (Dbl.of_nat p - d)))%D
       else llhood)
    dist llhood.

(** [complete_log_likelihood], lines 109-128. *)
Definition complete_log_likelihood (lambda : VectorXd) (eps : double)
           (Tdiff : MatrixXd) (dist : VectorXd) (W : double) : double :=
  let p := length lambda in
  let llhood :=
    (W * vsum (map Dbl.log lambda) - vsum (mat_vec Tdiff lambda))%D in
  if Dbl.eqb eps Dbl.zero then
    bernoulli_term_eps0 eps p llhood dist
  else
    (llhood + (Dbl.log eps * vsum dist +
               Dbl.log (Dbl.one - eps) *
               vsum (map (fun d => Dbl.of_nat p - d) dist)))%D.

(** ** The C++ runtime

    What the program takes from <random>, from OpenMP and from the
    allocator.  A generator is a value that every draw consumes and
    returns; the laws are the ranges the standard promises for the two
    distributions. *)

Class Runtime : Type := {
  (** [Context::rng_type] *)
  rng_type : Type;
  (** [rng_type(seed)] *)
  rng_seed : Z -> rng_type;
  (** [rng()] *)
  rng_next : rng_type -> Z * rng_type;
  (** [std::exponential_distribution<double>(lambda)(rng)] *)
  exponential_distribution : double -> rng_type -> double * rng_type;
  (** [std::discrete_distribution<int>(weights)(rng)] *)
  discrete_distribution : VectorXd -> rng_type -> nat * rng_type;
  (** [omp_get_thread_num()] inside an iteration [i] of a static
      [parallel for] over [0, N) on [thrds] threads *)
  omp_get_thread_num : nat -> nat -> nat -> nat;
  (** what a coefficient holds before it is first assigned; the source
      reads such a coefficient only where it returns a record it did not
      fill *)
  uninit_double : double;
  uninit_int : nat;
  (** a positive rate gives a finite variate that is not negative *)
  exponential_range :
    forall (l : R) (g : rng_type), (0 < l)%R ->
      exists t : R,
        fst (exponential_distribution (Fin l) g) = Fin t /\ (0 <= t)%R;
  (** a draw is an index of the weights *)
  discrete_range :
    forall (ws : VectorXd) (g : rng_type), ws <> [] ->
      fst (discrete_distribution ws g) < length ws
}.

(** ** Posets and models, [mcem.hpp] *)

Definition Node := nat.
Definition Edge := (nat * nat)%type.
Definition node_container := list Node.
Definition edge_container := list Edge.

Definition source (e : Edge) : Node := fst e.
Definition target (e : Edge) : Node := snd e.

Definition Edge_eq_dec (a b : Edge) : {a = b} + {a <> b}.
Proof. decide equality; apply Nat.eq_dec. Defined.

(** [boost::adjacency_list<hash_setS, vecS, bidirectionalS>]: the vertices
    are [0 .. num_vertices - 1], the edges a set. *)
Record Poset : Type := {
  num_vertices : nat;
  edges : edge_container
}.

(** [Poset(edge_list.begin(), edge_list.end(), p)] *)
Definition Poset_of_edges (edge_list : edge_container) (p : nat) : Poset :=
  {| num_vertices := p; edges := nodup Edge_eq_dec edge_list |}.

(** [boost::in_edges(v, poset)] *)
Definition in_edges (v : Node) (g : Poset) : list Edge :=
  filter (fun e => target e =? v) (edges g).

Record Model : Type := {
  poset : Poset;
  topo_path : node_container;
  cycle : bool;
  reduction_flag : bool;
  _lambda : VectorXd;
  _lambda_s : double;
  _epsilon : double;
  _llhood : double;
  _children : list (list Node);
  _size : nat
}.

Record Context `{Runtime} : Type := {
  rng : rng_type;
  _verbose : bool
}.

Record DataImportanceSampling : Type := {
  w : VectorXd;
  dist : VectorXi;
  Tdiff : MatrixXd
}.

Record ControlEM : Type := {
  max_iter : Z;
  update_step_size : Z;
  tol : double;
  max_lambda : double
}.

(** [unsigned int] arithmetic is modulo 2^32. *)
Definition wrap32 (z : Z) : Z := (z mod 2 ^ 32)%Z.

Section Constructors.

Context `{RT : Runtime}.

(** [Context(seed, verbose)] *)
Definition Context_new (seed : Z) (verbose : bool) : Context :=
  {| rng := rng_seed seed; _verbose := verbose |}.

(** [Model(edge_list, p, lambda_s)], lines 87-93 of mcem.hpp: the rates,
    epsilon and the likelihood are left unassigned. *)
Definition Model_new (edge_list : edge_container) (p : nat)
           (lambda_s : double) : Model :=
  {| poset := Poset_of_edges edge_list p;
     topo_path := [];
     cycle := false;
     reduction_flag := false;
     _lambda := repeat uninit_double p;
     _lambda_s := lambda_s;
     _epsilon := uninit_double;
     _llhood := uninit_double;
     _children := repeat [] p;
     _size := p |}.

(** [DataImportanceSampling(L, p)]: three Eigen objects of the right
    sizes, none of them assigned. *)
Definition DataImportanceSampling_new (L p : nat)
  : DataImportanceSampling :=
  {| w := repeat uninit_double L;
     dist := repeat uninit_int L;
     Tdiff := repeat (repeat uninit_double p) L |}.

End Constructors.

Definition size (m : Model) : nat := _size m.
Definition get_lambda (m : Model) : VectorXd := _lambda m.
Definition get_lambda_at (m : Model) (idx : nat) : double :=
  nth idx (_lambda m) NaN.
Definition get_lambda_s (m : Model) : double := _lambda_s m.
Definition get_epsilon (m : Model) : double := _epsilon m.
Definition get_llhood (m : Model) : double := _llhood m.

(** *** Members of [Model] defined outside [src/] *)

(** Modelled from the spec: [Model::set_lambda(lambda)] is declared in
    mcem.hpp and defined outside src/; the driver uses it to write the
    averaged rates back ("write back lambda <- avg_lambda_cur"). *)
Definition set_lambda (m : Model) (lambda : VectorXd) : Model :=
  {| poset := poset m; topo_path := topo_path m; cycle := cycle m;
     reduction_flag := reduction_flag m; _lambda := lambda;
     _lambda_s := _lambda_s m; _epsilon := _epsilon m;
     _llhood := _llhood m; _children := _children m; _size := _size m |}.

(** Modelled from the spec: the clamp of [Model::set_lambda(lambda,
    max_lambda)], which is defined outside src/.  "lambda_j <- min
    (lambda_j, max_lambda) ... treat non-finite as max_lambda". *)
Definition clamp_lambda (max_lambda : double) (l : double) : double :=
  if Dbl.gtb l max_lambda || negb (Dbl.isfinite l) then max_lambda else l.

(** Modelled from the spec: [Model::set_lambda(lambda, max_lambda)] is
    declared in mcem.hpp and defined outside src/; it stores the rates
    "followed by clamping". *)
Definition set_lambda_max (m : Model) (lambda : VectorXd)
           (max_lambda : double) : Model :=
  set_lambda m (map (clamp_lambda max_lambda) lambda).

(** Modelled from the spec: [Model::set_epsilon] is declared in mcem.hpp
    and defined outside src/ ("epsilon <- ..."). *)
Definition set_epsilon (m : Model) (eps : double) : Model :=
  {| poset := poset m; topo_path := topo_path m; cycle := cycle m;
     reduction_flag := reduction_flag m; _lambda := _lambda m;
     _lambda_s := _lambda_s m; _epsilon := eps;
     _llhood := _llhood m; _children := _children m; _size := _size m |}.

(** Modelled from the spec: [Model::set_llhood] is declared in mcem.hpp
    and defined outside src/ ("llhood <- avg_llhood_cur"). *)
Definition set_llhood (m : Model) (llhood : double) : Model :=
  {| poset := poset m; topo_path := topo_path m; cycle := cycle m;
     reduction_flag := reduction_flag m; _lambda := _lambda m;
     _lambda_s := _lambda_s m; _epsilon := _epsilon m;
     _llhood := llhood; _children := _children m; _size := _size m |}.

(** Modelled from the spec: [adjacency_mat2list] is declared in mcem.hpp
    and defined outside src/.  "A p x p integer matrix with {0,1} entries:
    entry (u, v) = 1 iff edge u -> v exists." *)
Definition adjacency_mat2list (poset : MatrixXi) : edge_container :=
  let p := length poset in
  flat_map
    (fun u =>
       flat_map
         (fun v => if (coeff 0%Z poset u v =? 1)%Z then [(u, v)] else [])
         (seq 0 p))
    (seq 0 p).

(** Modelled from the spec: a step of the cycle check and of the
    topological order, both defined outside src/.  Whether [v] has a
    parent among the vertices that remain. *)
Definition has_parent_in (E : edge_container) (remaining : list Node)
           (v : Node) : bool :=
  existsb
    (fun e => (target e =? v) && existsb (Nat.eqb (source e)) remaining) E.

(** Modelled from the spec: the rounds the cycle check and the
    topological order share, both defined outside src/.  One round per
    unit of fuel: the vertices without a parent among the remaining ones
    are appended to the order ("ascending vertex index among ready
    nodes") and removed.  [num_vertices] rounds empty every poset without
    a cycle. *)
Fixpoint peel (fuel : nat) (E : edge_container)
         (remaining order : list Node) : list Node * list Node :=
  match fuel with
  | O => (remaining, order)
  | S fuel' =>
      let ready :=
        filter (fun v => negb (has_parent_in E remaining v)) remaining in
      let rest := filter (has_parent_in E remaining) remaining in
      peel fuel' E rest (order ++ ready)
  end.

(** Modelled from the spec: the vertices [peel] leaves and the order it
    builds on a whole poset. *)
Definition peel_poset (g : Poset) : list Node * list Node :=
  peel (num_vertices g) (edges g) (seq 0 (num_vertices g)) [].

(** [cycle = c], an assignment to the public member. *)
Definition set_cycle (m : Model) (c : bool) : Model :=
  {| poset := poset m; topo_path := topo_path m; cycle := c;
     reduction_flag := reduction_flag m; _lambda := _lambda m;
     _lambda_s := _lambda_s m; _epsilon := _epsilon m;
     _llhood := _llhood m; _children := _children m; _size := _size m |}.

(** [topo_path = path], an assignment to the public member. *)
Definition set_topo_path (m : Model) (path : node_container) : Model :=
  {| poset := poset m; topo_path := path; cycle := cycle m;
     reduction_flag := reduction_flag m; _lambda := _lambda m;
     _lambda_s := _lambda_s m; _epsilon := _epsilon m;
     _llhood := _llhood m; _children := _children m; _size := _size m |}.

(** Modelled from the spec: [Model::has_cycles] is declared in mcem.hpp and
    defined outside src/.  It "records whether the graph is acyclic" in
    the member [cycle]: here, whether some vertex is left once the
    vertices whose parents are all ordered have been removed,
    [num_vertices] times over. *)
Definition has_cycles (m : Model) : Model :=
  set_cycle m
    (match fst (peel_poset (poset m)) with [] => false | _ :: _ => true end).

(** Modelled from the spec: [Model::topological_sort] is declared in
    mcem.hpp and defined outside src/.  It "stores a total order pi
    satisfying: for every edge u -> v, pi(u) < pi(v)".  The simulator
    walks [topo_path] from [rbegin()] to [rend()] and calls that "in
    topological order", so [pi] is counted from the back of [topo_path]:
    the vertices are stored children first. *)
Definition topological_sort (m : Model) : Model :=
  set_topo_path m (rev (snd (peel_poset (poset m)))).

(** ** The genotype simulator *)

(** The list [l] with [x] at position [n]. *)
Fixpoint upd {A : Type} (n : nat) (x : A) (l : list A) : list A :=
  match l, n with
  | [], _ => []
  | _ :: t, O => x :: t
  | h :: t, S n' => h :: upd n' x t
  end.

(** [M(i, j) = x] *)
Definition set_coeff {A : Type} (M : list (list A)) (i j : nat) (x : A)
  : list (list A) :=
  upd i (upd j x (nth i M [])) M.

(** [M.col(j) = v] *)
Definition set_col (M : MatrixXd) (j : nat) (v : VectorXd) : MatrixXd :=
  zip_with (fun row x => upd j x row) M v.

Section Simulator.

Context `{RT : Runtime}.

(** [rexp_std], lines 45-54. *)
Fixpoint rexp_std (N : nat) (lambda : double) (rng : rng_type)
  : VectorXd * rng_type :=
  match N with
  | O => ([], rng)
  | S N' =>
      let (t, rng1) := exponential_distribution lambda rng in
      let (T, rng2) := rexp_std N' lambda rng1 in
      (t :: T, rng2)
  end.

(** [rdiscrete_std], lines 58-68. *)
Fixpoint rdiscrete_std (N : nat) (weights : VectorXd) (rng : rng_type)
  : list nat * rng_type :=
  match N with
  | O => ([], rng)
  | S N' =>
      let (k, rng1) := discrete_distribution weights rng in
      let (ret, rng2) := rdiscrete_std N' weights rng1 in
      (k :: ret, rng2)
  end.

(** Lines 148-149: column [j] of [T_events] is drawn at rate
    [lambda_j], for [j = 0 .. p - 1]. *)
Definition draw_T_events (N : nat) (model : Model) (T_events : MatrixXd)
           (rng : rng_type) : MatrixXd * rng_type :=
  fold_left
    (fun (acc : MatrixXd * rng_type) j =>
       let (T, rng1) := rexp_std N (get_lambda_at model j) (snd acc) in
       (set_col (fst acc) j T, rng1))
    (seq 0 (size model)) (T_events, rng).

(** Lines 159-165: the largest occurrence time among the parents of [v]
    in sample [i], starting from 0. *)
Definition parents_T_max (T_events_sum : MatrixXd) (i : nat) (v : Node)
           (g : Poset) : double :=
  fold_left
    (fun T_max e =>
       if Dbl.gtb (coeff Dbl.zero T_events_sum i (source e)) T_max
       then coeff Dbl.zero T_events_sum i (source e)
       else T_max)
    (in_edges v g) Dbl.zero.

(** Lines 159-168, the body of the loop over the samples. *)
Definition sample_cell (model : Model) (T_events : MatrixXd)
           (T_sampling : VectorXd) (v : Node)
           (st : MatrixXd * MatrixXb) (i : nat) : MatrixXd * MatrixXb :=
  let (T_events_sum, obs) := st in
  let T_max := parents_T_max T_events_sum i v (poset model) in
  let T_events_sum' :=
    set_coeff T_events_sum i v (coeff Dbl.zero T_events i v + T_max)%D in
  let obs' :=
    if Dbl.leb (coeff Dbl.zero T_events_sum' i v) (nth i T_sampling NaN)
    then set_coeff obs i v true
    else obs in
  (T_events_sum', obs').

(** Lines 156-170: the vertices from [topo_path.rbegin()] to [rend()],
    and for each of them the samples [0 .. N - 1]. *)
Definition sample_loop (N : nat) (model : Model) (T_events : MatrixXd)
           (T_sampling : VectorXd) : MatrixXd * MatrixXb :=
  fold_left
    (fun st v =>
       fold_left (sample_cell model T_events T_sampling v) (seq 0 N) st)
    (rev (topo_path model))
    (repeat (repeat Dbl.zero (size model)) N,
     repeat (repeat false (size model)) N).

(** What [sample_genotypes] leaves behind: the genotypes it returns, the
    two arguments it fills by reference, its scratch matrix
    [T_events_sum] and the generator. *)
Record Simulation : Type := {
  sim_obs : MatrixXb;
  sim_T_events : MatrixXd;
  sim_T_sampling : VectorXd;
  sim_T_events_sum : MatrixXd;
  sim_rng : rng_type
}.

(** [sample_genotypes], lines 135-172. *)
Definition sample_genotypes (N : nat) (model : Model)
           (T_events : MatrixXd) (T_sampling : VectorXd)
           (rng : rng_type) (sampling_times_available : bool)
  : Simulation :=
  let (T_events1, rng1) := draw_T_events N model T_events rng in
  let (T_sampling1, rng2) :=
    if negb sampling_times_available
    then rexp_std N (get_lambda_s model) rng1
    else (T_sampling, rng1) in
  let (T_events_sum, obs) := sample_loop N model T_events1 T_sampling1 in
  {| sim_obs := obs;
     sim_T_events := T_events1;
     sim_T_sampling := T_sampling1;
     sim_T_events_sum := T_events_sum;
     sim_rng := rng2 |}.

End Simulator.

(** ** The importance sampler *)

(** [hamming_dist_mat], lines 224-228: per row of [x], the number of
    coefficients that differ from [y].  ([hamming_dist] and
    [runif_int_std] are defined in the source and called nowhere.) *)
Definition hamming_dist_mat (x : MatrixXb) (y : RowVectorXb) : VectorXi :=
  let N := length x in
  map (fun row => length (filter (fun b : bool => b) row))
      (zip_with (zip_with (fun a b => negb (Bool.eqb a b)))
                x (repeat y N)).

(** [pow(eps, d) * pow(1 - eps, p - d)], lines 264-265 and 280-281.  [d]
    is a Hamming distance over [p] events, so [p - d] is a count. *)
Definition bernoulli_weight (eps : double) (p d : nat) : double :=
  (Dbl.pow eps d * Dbl.pow (Dbl.one - eps) (p - d))%D.

Section Sampler.

Context `{RT : Runtime}.

(** The branch of lines 251-265. *)
Definition importance_weight_forward (genotype : RowVectorXb) (L : nat)
           (model : Model) (time : double) (rng : rng_type)
           (sampling_times_available : bool)
           (importance_sampling : DataImportanceSampling)
  : DataImportanceSampling * rng_type :=
  let p := size model in
  let T_sampling :=
    if sampling_times_available then repeat time L
    else repeat uninit_double L in
  let sim :=
    sample_genotypes L model (Tdiff importance_sampling) T_sampling rng
                     sampling_times_available in
  let dist' := hamming_dist_mat (sim_obs sim) genotype in
  ({| w := map (bernoulli_weight (get_epsilon model) p) dist';
      dist := dist';
      Tdiff := sim_T_events sim |},
   sim_rng sim).

(** The branch of lines 268-308. *)
Definition importance_weight_rejection (genotype : RowVectorXb) (L : nat)
           (model : Model) (time : double) (rng : rng_type)
           (sampling_times_available : bool)
  : DataImportanceSampling * rng_type :=
  let p := size model in
  let K := Z.to_nat (wrap32 (Z.of_nat p * Z.of_nat L)) in
  let Tdiff_pool := repeat (repeat uninit_double p) K in
  let T_sampling :=
    if sampling_times_available then repeat time K
    else repeat uninit_double K in
  let sim :=
    sample_genotypes K model Tdiff_pool T_sampling rng
                     sampling_times_available in
  let dist_pool := hamming_dist_mat (sim_obs sim) genotype in
  let q_prob := map (bernoulli_weight (get_epsilon model) p) dist_pool in
  let random := Dbl.eqb (vsum q_prob) Dbl.zero in
  let q_prob1 :=
    if random then repeat Dbl.one (length q_prob) else q_prob in
  let q_prob_sum := vsum q_prob1 in
  let q_prob2 := map (fun q => q / q_prob_sum)%D q_prob1 in
  let (idxs_sample, rng1) := rdiscrete_std L q_prob2 (sim_rng sim) in
  let dist' := map (fun idx => nth idx dist_pool uninit_int) idxs_sample in
  let Tdiff' :=
    map (fun idx => nth idx (sim_T_events sim) []) idxs_sample in
  let w' :=
    if random
    then map Dbl.exp
             (log_bernoulli_process (cast_double dist')
                                    (get_epsilon model) p)
    else repeat (q_prob_sum / Dbl.of_nat (length dist_pool))%D L in
  ({| w := w'; dist := dist'; Tdiff := Tdiff' |}, rng1).

(** [importance_weight], lines 241-311.  The argument [version] is not
    used by the source either. *)
Definition importance_weight (genotype : RowVectorXb) (L : nat)
           (model : Model) (time : double) (sampling : string)
           (version : nat) (rng : rng_type)
           (sampling_times_available : bool)
  : DataImportanceSampling * rng_type :=
  let p := size model in
  let importance_sampling := DataImportanceSampling_new L p in
  if String.eqb sampling "forward" then
    importance_weight_forward genotype L model time rng
                              sampling_times_available importance_sampling
  else if String.eqb sampling "add-remove" then
    (importance_sampling, rng)
  else if String.eqb sampling "rejection" then
    importance_weight_rejection genotype L model time rng
                                sampling_times_available
  else
    (importance_sampling, rng).

(** [Context::get_auxiliary_rngs], lines 56-62 of mcem.hpp. *)
Fixpoint get_auxiliary_rngs (num_rngs : nat) (rng : rng_type)
  : list rng_type * rng_type :=
  match num_rngs with
  | O => ([], rng)
  | S n =>
      let (seed, rng1) := rng_next rng in
      let (rngs, rng2) := get_auxiliary_rngs n rng1 in
      (rng_seed seed :: rngs, rng2)
  end.

(** [(Tdiff.transpose() * w)]: one dot product per event. *)
Definition transpose_mat_vec (p : nat) (M : MatrixXd) (v : VectorXd)
  : VectorXd :=
  map (fun j => dot (col M j) v) (seq 0 p).

(** Lines 396-401: the expected distance and the expected row of waiting
    times of one observation. *)
Definition expected_statistics (p : nat) (s : DataImportanceSampling)
  : double * VectorXd :=
  ((dot (w s) (cast_double (dist s)) / vsum (w s))%D,
   map (fun x => x / vsum (w s))%D (transpose_mat_vec p (Tdiff s) (w s))).

(** Lines 391-402.  An iteration [i] draws from the generator of the
    thread it runs on; the iterations of one thread run in increasing
    [i] and no generator is shared, so the parallel loop computes what
    this loop over [i] computes. *)
Fixpoint e_step_loop (model : Model) (obs : MatrixXb) (times : VectorXd)
         (L : nat) (sampling : string) (version : nat)
         (sampling_times_available : bool) (thrds : nat)
         (default_rng : rng_type) (idxs : list nat)
         (rngs : list rng_type)
  : list (double * VectorXd) * list rng_type :=
  match idxs with
  | [] => ([], rngs)
  | i :: idxs' =>
      let t := omp_get_thread_num thrds (length obs) i in
      let (s, rng1) :=
        importance_weight (nth i obs []) L model (nth i times NaN)
                          sampling version (nth t rngs default_rng)
                          sampling_times_available in
      let (rest, rngs') :=
        e_step_loop model obs times L sampling version
                    sampling_times_available thrds default_rng idxs'
                    (upd t rng1 rngs) in
      (expected_statistics (size model) s :: rest, rngs')
  end.

End Sampler.

(** ** The MCEM driver *)

Section Driver.

Context `{RT : Runtime}.

(** The variables of [MCEM_hcbn] that live across iterations. *)
Record EMState : Type := {
  em_model : Model;
  em_rng : rng_type;
  em_update_step_size : Z;
  em_avg_lambda : VectorXd;
  em_avg_lambda_current : VectorXd;
  em_avg_eps : double;
  em_avg_eps_current : double;
  em_avg_llhood : double;
  em_llhood : double;
  em_tol_comparison : bool
}.

(** How an iteration leaves the loop body: by its end or by [break]. *)
Inductive Flow : Type :=
| Next (st : EMState)
| Break (st : EMState).

Definition flow_state (f : Flow) : EMState :=
  match f with Next st | Break st => st end.

(** Lines 364-365, the convergence test. *)
Definition converged (control_EM : ControlEM) (avg_eps avg_eps_current : double)
           (avg_lambda avg_lambda_current : VectorXd) : bool :=
  Dbl.leb (Dbl.abs (avg_eps - avg_eps_current)) (tol control_EM) &&
  forallb (fun d => Dbl.leb (Dbl.abs d) (tol control_EM))
          (zip_with Dbl.sub avg_lambda avg_lambda_current).

(** Lines 359-379, the window boundary. *)
Definition window_boundary (control_EM : ControlEM) (p : nat) (iter : Z)
           (st : EMState) : Flow :=
  if (iter =? em_update_step_size st)%Z then
    let u := Dbl.of_Z (update_step_size control_EM) in
    let avg_lambda_current :=
      map (fun x => x / u)%D (em_avg_lambda_current st) in
    let avg_eps_current := (em_avg_eps_current st / u)%D in
    let avg_llhood := (em_avg_llhood st / u)%D in
    if em_tol_comparison st &&
       converged control_EM (em_avg_eps st) avg_eps_current
                 (em_avg_lambda st) avg_lambda_current
    then
      Break {| em_model := em_model st;
               em_rng := em_rng st;
               em_update_step_size := em_update_step_size st;
               em_avg_lambda := em_avg_lambda st;
               em_avg_lambda_current := avg_lambda_current;
               em_avg_eps := em_avg_eps st;
               em_avg_eps_current := avg_eps_current;
               em_avg_llhood := avg_llhood;
               em_llhood := em_llhood st;
               em_tol_comparison := em_tol_comparison st |}
    else
      Next {| em_model := em_model st;
              em_rng := em_rng st;
              em_update_step_size :=
                wrap32 (em_update_step_size st +
                        update_step_size control_EM);
              em_avg_lambda := avg_lambda_current;
              em_avg_lambda_current := repeat Dbl.zero p;
              em_avg_eps := avg_eps_current;
              em_avg_eps_current := Dbl.zero;
              em_avg_llhood := Dbl.zero;
              em_llhood := em_llhood st;
              em_tol_comparison := true |}
  else Next st.

(** [weights * expected_Tdiff], a row vector by a matrix. *)
Definition row_vec_mat (p : nat) (v : RowVectorXd) (M : MatrixXd)
  : VectorXd :=
  map (fun j => dot v (col M j)) (seq 0 p).

(** Lines 405-407, the M-step. *)
Definition m_step (control_EM : ControlEM) (model : Model) (N p : nat)
           (weights : RowVectorXd) (W : double)
           (expected_dist : VectorXd) (expected_Tdiff : MatrixXd)
  : Model :=
  let model1 :=
    set_epsilon model (vsum expected_dist / Dbl.of_nat (N * p))%D in
  let Tdiff_colsum := row_vec_mat p weights expected_Tdiff in
  set_lambda_max model1
                 (map (fun s => Dbl.inverse (s / W)%D) Tdiff_colsum)
                 (max_lambda control_EM).

(** Lines 388-402, the E-step. *)
Definition e_step (model : Model) (obs : MatrixXb) (times : VectorXd)
           (L : nat) (sampling : string) (version : nat)
           (sampling_times_available : bool) (thrds : nat)
           (rng : rng_type) : VectorXd * MatrixXd * rng_type :=
  let (rngs, rng1) := get_auxiliary_rngs thrds rng in
  let stats :=
    fst (e_step_loop model obs times L sampling version
                     sampling_times_available thrds rng1
                     (seq 0 (length obs)) rngs) in
  (map fst stats, map snd stats, rng1).

(** Lines 381-415: E-step, M-step, likelihood, accumulation.  [W] is the
    [float] of line 326. *)
Definition em_iteration (control_EM : ControlEM) (obs : MatrixXb)
           (times : VectorXd) (weights : RowVectorXd) (L : nat)
           (sampling : string) (version : nat)
           (sampling_times_available : bool) (thrds : nat)
           (st : EMState) : EMState :=
  let p := size (em_model st) in
  let N := length obs in
  let W := to_float (vsum weights) in
  let '(expected_dist, expected_Tdiff, rng1) :=
    e_step (em_model st) obs times L sampling version
           sampling_times_available thrds (em_rng st) in
  let model1 :=
    m_step control_EM (em_model st) N p weights W
           expected_dist expected_Tdiff in
  let llhood :=
    complete_log_likelihood (get_lambda model1) (get_epsilon model1)
                            expected_Tdiff expected_dist W in
  {| em_model := model1;
     em_rng := rng1;
     em_update_step_size := em_update_step_size st;
     em_avg_lambda := em_avg_lambda st;
     em_avg_lambda_current :=
       zip_with Dbl.add (em_avg_lambda_current st) (get_lambda model1);
     em_avg_eps := em_avg_eps st;
     em_avg_eps_current :=
       (em_avg_eps_current st + get_epsilon model1)%D;
     em_avg_llhood := (em_avg_llhood st + llhood)%D;
     em_llhood := llhood;
     em_tol_comparison := em_tol_comparison st |}.

(** Line 418, in [unsigned int] arithmetic. *)
Definition num_iter (control_EM : ControlEM) (st : EMState) : Z :=
  wrap32 (wrap32 (max_iter control_EM - em_update_step_size st) +
          update_step_size control_EM).

(** Lines 417-423: the last iteration averages the window it ends in. *)
Definition final_average (control_EM : ControlEM) (iter : Z)
           (st : EMState) : EMState :=
  if (iter + 1 =? max_iter control_EM)%Z then
    let n := Dbl.of_Z (num_iter control_EM st) in
    {| em_model := em_model st;
       em_rng := em_rng st;
       em_update_step_size := em_update_step_size st;
       em_avg_lambda := em_avg_lambda st;
       em_avg_lambda_current :=
         map (fun x => x / n)%D (em_avg_lambda_current st);
       em_avg_eps := em_avg_eps st;
       em_avg_eps_current := (em_avg_eps_current st / n)%D;
       em_avg_llhood := (em_avg_llhood st / n)%D;
       em_llhood := em_llhood st;
       em_tol_comparison := em_tol_comparison st |}
  else st.

(** Lines 357-431, one pass through the body of the loop. *)
Definition em_body (control_EM : ControlEM) (obs : MatrixXb)
           (times : VectorXd) (weights : RowVectorXd) (L : nat)
           (sampling : string) (version : nat)
           (sampling_times_available : bool) (thrds : nat)
           (iter : nat) (st : EMState) : Flow :=
  match window_boundary control_EM (size (em_model st))
                        (Z.of_nat iter) st with
  | Break st' => Break st'
  | Next st1 =>
      Next (final_average control_EM (Z.of_nat iter)
              (em_iteration control_EM obs times weights L sampling
                            version sampling_times_available thrds st1))
  end.

(** The loop over the iterations [iters]; after a [break] nothing runs. *)
Definition em_loop (control_EM : ControlEM) (obs : MatrixXb)
           (times : VectorXd) (weights : RowVectorXd) (L : nat)
           (sampling : string) (version : nat)
           (sampling_times_available : bool) (thrds : nat)
           (iters : list nat) (st : EMState) : Flow :=
  fold_left
    (fun f iter =>
       match f with
       | Break st' => Break st'
       | Next st' =>
           em_body control_EM obs times weights L sampling version
                   sampling_times_available thrds iter st'
       end)
    iters (Next st).

(** Lines 324-336, the state on entry of the loop. *)
Definition em_init (control_EM : ControlEM) (model : Model)
           (ctx : Context) : EMState :=
  let p := size model in
  {| em_model := model;
     em_rng := rng ctx;
     em_update_step_size := update_step_size control_EM;
     em_avg_lambda := repeat Dbl.zero p;
     em_avg_lambda_current := repeat Dbl.zero p;
     em_avg_eps := Dbl.zero;
     em_avg_eps_current := Dbl.zero;
     em_avg_llhood := Dbl.zero;
     em_llhood := Dbl.zero;
     em_tol_comparison := true |}.

(** Lines 433-437, the write-back. *)
Definition em_exit (ctx : Context) (st : EMState)
  : Model * Context * double :=
  (set_llhood
     (set_epsilon (set_lambda (em_model st) (em_avg_lambda_current st))
                  (em_avg_eps_current st))
     (em_avg_llhood st),
   {| rng := em_rng st; _verbose := _verbose ctx |},
   em_avg_llhood st).

(** [MCEM_hcbn], lines 316-438: the model and the context it leaves, and
    the value it returns. *)
Definition MCEM_hcbn (model : Model) (obs : MatrixXb) (times : VectorXd)
           (weights : RowVectorXd) (L : nat) (sampling : string)
           (version : nat) (control_EM : ControlEM)
           (sampling_times_available : bool) (thrds : nat)
           (ctx : Context) : Model * Context * double :=
  em_exit ctx
    (flow_state
       (em_loop control_EM obs times weights L sampling version
                sampling_times_available thrds
                (seq 0 (Z.to_nat (max_iter control_EM)))
                (em_init control_EM model ctx))).

End Driver.

(** ** Entry points *)

(** Modelled from the spec: the error kinds of its section 7.  The header
    not_acyclic_exception.hpp is outside src/; the source throws
    [not_acyclic_exception], here [NotAcyclic], and nothing else. *)
Inductive error : Type :=
| NotAcyclic
| ShapeMismatch
| OutOfRange
| NotImplemented
| Numerical.

Inductive result (A : Type) : Type :=
| Ok (a : A)
| Error (e : error).

Arguments Ok {A} a.
Arguments Error {A} e.

Section EntryPoints.

Context `{RT : Runtime}.

(** Lines 531-539, 577-585 and 681-688: the model every entry point
    builds before it checks it. *)
Definition build_model (poset : MatrixXi) (lambda_s : double) : Model :=
  Model_new (adjacency_mat2list poset) (length poset) lambda_s.

(** The observed log-likelihood of lines 199-207. *)
Definition obs_llhood_loop (model : Model) (obs : MatrixXb)
           (times : VectorXd) (L : nat) (sampling : string)
           (version : nat) (sampling_times_available : bool)
           (thrds : nat) (default_rng : rng_type)
  : list nat -> list rng_type -> double -> double :=
  fix loop (idxs : list nat) (rngs : list rng_type) (llhood : double) :=
    match idxs with
    | [] => llhood
    | i :: idxs' =>
        let t := omp_get_thread_num thrds (length obs) i in
        let (s, rng1) :=
          importance_weight (nth i obs []) L model (nth i times NaN)
                            sampling version (nth t rngs default_rng)
                            sampling_times_available in
        loop idxs' (upd t rng1 rngs)
             (llhood + Dbl.log (vsum (w s) / Dbl.of_nat L))%D
    end.

(** [obs_log_likelihood], lines 175-210. *)
Definition obs_log_likelihood (obs : MatrixXb) (poset : MatrixXi)
           (lambda : VectorXd) (eps : double) (times : VectorXd)
           (L : nat) (sampling : string) (version : nat) (ctx : Context)
           (lambda_s : double) (sampling_times_available : bool)
           (thrds : nat) : result double :=
  let model :=
    has_cycles
      (set_epsilon (set_lambda (build_model poset lambda_s) lambda) eps) in
  if cycle model then Error NotAcyclic
  else
    let model1 := topological_sort model in
    let (rngs, rng1) := get_auxiliary_rngs thrds (rng ctx) in
    Ok (obs_llhood_loop model1 obs times L sampling version
                        sampling_times_available thrds rng1
                        (seq 0 (length obs)) rngs Dbl.zero).

(** [_obs_log_likelihood], lines 462-495. *)
Definition _obs_log_likelihood (obs : MatrixXb) (poset : MatrixXi)
           (lambda : VectorXd) (eps : double) (times : VectorXd)
           (L : nat) (sampling : string) (version : nat)
           (lambda_s : double) (sampling_times_available : bool)
           (thrds : nat) (seed : Z) : result double :=
  obs_log_likelihood obs poset lambda eps times L sampling version
                     (Context_new seed false) lambda_s
                     sampling_times_available thrds.

(** [_MCEM_hcbn], lines 502-556: the list of [lambda], [eps] and
    [llhood]. *)
Definition _MCEM_hcbn (ilambda : VectorXd) (poset : MatrixXi)
           (obs : MatrixXb) (times : VectorXd) (lambda_s : double)
           (eps : double) (weights : RowVectorXd) (L : nat)
           (sampling : string) (version : nat)
           (max_iter update_step_size : Z) (tol : double)
           (max_lambda : double) (sampling_times_available : bool)
           (thrds : nat) (verbose : bool) (seed : Z)
  : result (VectorXd * double * double) :=
  let M :=
    has_cycles
      (set_epsilon (set_lambda (build_model poset lambda_s) ilambda) eps) in
  if cycle M then Error NotAcyclic
  else
    let M1 := topological_sort M in
    let control_EM :=
      {| max_iter := max_iter; update_step_size := update_step_size;
         tol := tol; max_lambda := max_lambda |} in
    let '(M2, _, llhood) :=
      MCEM_hcbn M1 obs times weights L sampling version control_EM
                sampling_times_available thrds
                (Context_new seed verbose) in
    Ok (get_lambda M2, get_epsilon M2, llhood).

(** [_importance_weight_genotype], lines 558-599: the list of [w],
    [dist] and [Tdiff]. *)
Definition _importance_weight_genotype (genotype : RowVectorXb) (L : nat)
           (poset : MatrixXi) (lambda : VectorXd) (eps : double)
           (time : double) (sampling : string) (version : nat)
           (lambda_s : double) (sampling_times_available : bool)
           (seed : Z) : result DataImportanceSampling :=
  let M :=
    has_cycles
      (set_epsilon (set_lambda (build_model poset lambda_s) lambda) eps) in
  if cycle M then Error NotAcyclic
  else
    let M1 := topological_sort M in
    let ctx := Context_new seed false in
    Ok (fst (importance_weight genotype L M1 time sampling version
                               (rng ctx) sampling_times_available)).

(** [_sample_genotypes], lines 665-702: the list of [samples], [Tdiff]
    and [sampling_time]. *)
Definition _sample_genotypes (N : nat) (poset : MatrixXi)
           (lambda : VectorXd) (T_events : MatrixXd)
           (T_sampling : VectorXd) (lambda_s : double)
           (sampling_times_available : bool) (seed : Z)
  : result (MatrixXb * MatrixXd * VectorXd) :=
  let M := has_cycles (set_lambda (build_model poset lambda_s) lambda) in
  if cycle M then Error NotAcyclic
  else
    let M1 := topological_sort M in
    let ctx := Context_new seed false in
    let sim :=
      sample_genotypes N M1 T_events T_sampling (rng ctx)
                       sampling_times_available in
    Ok (sim_obs sim, sim_T_events sim, sim_T_sampling sim).

End EntryPoints.

(** ** The other functions of [mcem_hcbn.cpp] *)

(** The values of an [int]. *)
Definition int_range (z : Z) : Prop := (- 2 ^ 31 <= z < 2 ^ 31)%Z.

Definition int_rangeb (z : Z) : bool :=
  ((- 2 ^ 31 <=? z) && (z <? 2 ^ 31))%Z.

(** [hamming_dist], lines 216-218: the sum of the absolute values of the
    coefficients of [x - y], two vectors of one size.  The coefficients
    are [int]s, and an [int] that overflows is undefined in C++: the
    function has a result when every difference, every absolute value
    and the sum are values of an [int].  The terms of the sum are not
    negative, so in whichever order they are added no partial sum
    leaves the range when the sum is in it. *)
Definition hamming_dist (x y : list Z) : option Z :=
  let diff := zip_with Z.sub x y in
  let terms := map Z.abs diff in
  let total := fold_right Z.add 0%Z terms in
  if forallb int_rangeb diff && forallb int_rangeb terms && int_rangeb total
  then Some total
  else None.

(** A genotype as the vector of 0s and 1s that [hamming_dist] takes. *)
Definition genotype_ints (g : RowVectorXb) : list Z :=
  map (fun b : bool => if b then 1%Z else 0%Z) g.

Section UniformDraws.

Context `{RT : Runtime}.

(** [std::uniform_int_distribution<int>(0, upper_limit)(rng)] *)
Variable uniform_int_distribution : Z -> rng_type -> Z * rng_type.

(** [runif_int_std], lines 71-81. *)
Fixpoint runif_int_std (N : nat) (upper_limit : Z) (rng : rng_type)
  : list Z * rng_type :=
  match N with
  | O => ([], rng)
  | S N' =>
      let (k, rng1) := uniform_int_distribution upper_limit rng in
      let (ret, rng2) := runif_int_std N' upper_limit rng1 in
      (k :: ret, rng2)
  end.

End UniformDraws.

Section BatchEntryPoints.

Context `{RT : Runtime}.

(** [_complete_log_likelihood], lines 440-460. *)
Definition _complete_log_likelihood (lambda : VectorXd) (eps : double)
           (Tdiff : MatrixXd) (dist : VectorXd) (W : double)
  : result double :=
  Ok (complete_log_likelihood lambda eps Tdiff dist W).

(** The loop of lines 645-654: per observation the sum of the weights,
    the expected distance and the expected row of waiting times.  As in
    the E-step, an iteration draws from the generator of its thread. *)
Fixpoint importance_weight_loop (model : Model) (obs : MatrixXb)
         (times : VectorXd) (L : nat) (sampling : string) (version : nat)
         (sampling_times_available : bool) (thrds : nat)
         (default_rng : rng_type) (idxs : list nat)
         (rngs : list rng_type)
  : list (double * double * VectorXd) :=
  match idxs with
  | [] => []
  | i :: idxs' =>
      let t := omp_get_thread_num thrds (length obs) i in
      let (s, rng1) :=
        importance_weight (nth i obs []) L model (nth i times NaN)
                          sampling version (nth t rngs default_rng)
                          sampling_times_available in
      let w_sum := vsum (w s) in
      (w_sum,
       (dot (w s) (cast_double (dist s)) / w_sum)%D,
       map (fun x => x / w_sum)%D
           (transpose_mat_vec (size model) (Tdiff s) (w s)))
        :: importance_weight_loop model obs times L sampling version
                                  sampling_times_available thrds
                                  default_rng idxs' (upd t rng1 rngs)
  end.

(** [_importance_weight], lines 601-663: the list of [w], [dist] and
    [Tdiff]. *)
Definition _importance_weight (obs : MatrixXb) (L : nat) (poset : MatrixXi)
           (lambda : VectorXd) (eps : double) (times : VectorXd)
           (sampling : string) (version : nat) (lambda_s : double)
           (sampling_times_available : bool) (thrds : nat) (seed : Z)
  : result (VectorXd * VectorXd * MatrixXd) :=
  let M :=
    has_cycles
      (set_epsilon (set_lambda (build_model poset lambda_s) lambda) eps) in
  if cycle M then Error NotAcyclic
  else
    let M1 := topological_sort M in
    let ctx := Context_new seed false in
    let (rngs, rng1) := get_auxiliary_rngs thrds (rng ctx) in
    let rows :=
      importance_weight_loop M1 obs times L sampling version
                             sampling_times_available thrds rng1
                             (seq 0 (length obs)) rngs in
    Ok (map (fun r => fst (fst r)) rows,
        map (fun r => snd (fst r)) rows,
        map snd rows).

End BatchEntryPoints.

(** ** Notions the properties are stated with *)

(** Sums and dot products of reals. *)
Definition Rsum (l : list R) : R := fold_right Rplus 0%R l.
Definition Rdot (a b : list R) : R := Rsum (zip_with Rmult a b).

(** A finite double that is not negative. *)
Definition nonneg (x : double) : Prop := exists r : R, x = Fin r /\ (0 <= r)%R.

(** A finite double that is positive. *)
Definition positive (x : double) : Prop := exists r : R, x = Fin r /\ (0 < r)%R.

(** The edge [u -> v] of an adjacency matrix. *)
Definition is_edge (poset : MatrixXi) (u v : nat) : Prop :=
  u < length poset /\ v < length poset /\ coeff 0%Z poset u v = 1%Z.

(** A directed path of one edge or more. *)
Inductive path (poset : MatrixXi) : nat -> nat -> Prop :=
| path_edge : forall u v, is_edge poset u v -> path poset u v
| path_step : forall u v w,
    is_edge poset u v -> path poset v w -> path poset u w.

Definition has_directed_cycle (poset : MatrixXi) : Prop :=
  exists v : nat, path poset v v.

(** A walk along the edges of an adjacency matrix, ancestors first. *)
Inductive chain (poset0 : MatrixXi) : list nat -> Prop :=
| chain_one : forall v, chain poset0 [v]
| chain_cons : forall u v l,
    is_edge poset0 u v -> chain poset0 (v :: l) -> chain poset0 (u :: v :: l).

(** The Hamming distance of two genotypes over [p] events. *)
Definition Hamming (p : nat) (a b : list bool) : nat :=
  length (filter (fun j => negb (Bool.eqb (nth j a false) (nth j b false)))
                 (seq 0 p)).

(** An [N x p] matrix. *)
Definition has_shape {A : Type} (N p : nat) (M : list (list A)) : Prop :=
  length M = N /\ Forall (fun row => length row = p) M.

(** Every vertex of [todo] has all its parents in [done] or earlier in
    [todo]: walking [todo] visits parents first. *)
Fixpoint parents_first (E : edge_container) (done todo : list Node) : Prop :=
  match todo with
  | [] => True
  | v :: todo' =>
      (forall u, In (u, v) E -> In u done) /\
      parents_first E (v :: done) todo'
  end.

(** What [sample_genotypes] needs of a model: the rates are positive, one
    per event, and [topo_path], read from the back, lists every event
    once, parents first. *)
Definition topo_path_ok (m : Model) : Prop :=
  NoDup (topo_path m) /\
  (forall v, In v (topo_path m) <-> v < size m) /\
  parents_first (edges (poset m)) [] (rev (topo_path m)).

Definition rates_ok (m : Model) : Prop :=
  length (get_lambda m) = size m /\ Forall positive (get_lambda m).

(** [m] is the maximum of the occurrence times [S(i, u)] over the parents
    [u] of [v], and 0 when [v] has no parent. *)
Definition max_over_parents (g : Poset) (S : MatrixXd) (i : nat) (v : Node)
           (m : R) : Prop :=
  (forall e, In e (in_edges v g) ->
             exists r, coeff Dbl.zero S i (source e) = Fin r /\ (r <= m)%R) /\
  (in_edges v g = [] -> m = 0%R) /\
  (in_edges v g <> [] ->
   exists e, In e (in_edges v g) /\ coeff Dbl.zero S i (source e) = Fin m).

(** Sample [i] and vertex [v] of a simulation obey the recurrence: the
    occurrence time [S(i, v)] is the waiting time [T_events(i, v)] plus the
    maximum of the occurrence times of the parents of [v], and the
    genotype bit tells whether [S(i, v) <= T_sampling(i)]. *)
Definition occurrence_ok (g : Poset) (T_events S : MatrixXd)
           (T_sampling : VectorXd) (obs : MatrixXb) (i : nat) (v : Node)
  : Prop :=
  exists s t m : R,
    coeff Dbl.zero S i v = Fin s /\
    coeff Dbl.zero T_events i v = Fin t /\
    (0 <= t)%R /\ (0 <= m)%R /\ s = (t + m)%R /\
    max_over_parents g S i v m /\
    coeff false obs i v = Dbl.leb (Fin s) (nth i T_sampling NaN).

(** What lines 396-401 (and 651-653) make of one observation, told by
    the sum [w_sum] of its [L] importance weights, a number between 0 and
    [L]: when the sum is 0 the expected distance is [0 / 0], NaN;
    otherwise the expected distance and the [p] expected waiting times
    are finite numbers that are not negative. *)
Definition expectation_ok (L p : nat) (row : double * double * VectorXd)
  : Prop :=
  (exists r : R, fst (fst row) = Fin r /\ (0 <= r <= INR L)%R) /\
  length (snd row) = p /\
  (fst (fst row) = Fin 0 -> snd (fst row) = NaN) /\
  (fst (fst row) <> Fin 0 ->
   nonneg (snd (fst row)) /\ Forall nonneg (snd row)).

(** The record of one observation as the E-step needs it: [L] weights
    that are numbers between 0 and 1, distances of at most [p], and
    waiting times that are finite and not negative. *)
Definition record_ok (L p : nat) (s : DataImportanceSampling) : Prop :=
  exists (wr : list R) (ts : list (list R)),
    w s = map Fin wr /\ length wr = L /\
    Forall (fun x => 0 <= x <= 1)%R wr /\
    Forall (fun d => d <= p) (dist s) /\
    Tdiff s = map (map Fin) ts /\
    Forall (Forall (fun t => 0 <= t)%R) ts.

(** The boundary the loop of [MCEM_hcbn] waits for after the check of
    iteration [iter], while nothing overflows: the first multiple of the
    step above [iter]. *)
Definition boundary_after (control_EM : ControlEM) (iter : Z) : Z :=
  (update_step_size control_EM * (iter / update_step_size control_EM + 1))%Z.

(** ** A runtime to run the program on

    The generator is a counter; the [k]-th exponential variate it hands
    out is [k], a discrete draw is the counter reduced to the range, and
    everything runs on thread 0. *)

Definition counter_exponential (lambda : double) (g : nat) : double * nat :=
  (Fin (INR (S g)), S g).

Definition counter_discrete (ws : VectorXd) (g : nat) : nat * nat :=
  (g mod length ws, S g).

Lemma counter_exponential_range :
  forall (l : R) (g : nat), (0 < l)%R ->
    exists t : R,
      fst (counter_exponential (Fin l) g) = Fin t /\ (0 <= t)%R.
Proof.
  intros l g _. exists (INR (S g)). split; [reflexivity | apply pos_INR].
Qed.

Lemma counter_discrete_range :
  forall (ws : VectorXd) (g : nat), ws <> [] ->
    fst (counter_discrete ws g) < length ws.
Proof.
  intros ws g Hws. simpl. apply Nat.mod_upper_bound.
  destruct ws; [congruence | discriminate].
Qed.

Definition counter_runtime : Runtime :=
  {| rng_type := nat;
     rng_seed := Z.to_nat;
     rng_next := fun g => (Z.of_nat g, S g);
     exponential_distribution := counter_exponential;
     discrete_distribution := counter_discrete;
     omp_get_thread_num := fun _ _ _ => 0;
     uninit_double := Fin 0;
     uninit_int := 0;
     exponential_range := counter_exponential_range;
     discrete_range := counter_discrete_range |}.

(** A uniform draw of the counter: the counter reduced to the range. *)
Definition counter_uniform (upper_limit : Z) (g : nat) : Z * nat :=
  ((Z.of_nat g mod (upper_limit + 1))%Z, S g).

(** The chain [0 -> 1 -> 2] with three rates of 2, sorted, to run the
    simulator and the samplers on. *)
Definition chain_poset : MatrixXi := [[0; 1; 0]; [0; 0; 1]; [0; 0; 0]]%Z.

Definition chain_model (eps : double) : Model :=
  topological_sort
    (has_cycles
       (set_epsilon
          (set_lambda (@build_model counter_runtime chain_poset (Fin 1))
                      [Fin 2; Fin 2; Fin 2])
          eps)).

(** * Properties *)

(** ** Doubles and lists *)

Lemma vsum_Fin : forall l : list R, vsum (map Fin l) = Fin (Rsum l).
Proof.
  induction l as [|x l IH]; [reflexivity|].
  change (vsum (map Fin (x :: l))) with (Fin x + vsum (map Fin l))%D.
  rewrite IH. reflexivity.
Qed.

Lemma zip_with_Fin :
  forall a b : list R,
    zip_with Dbl.mul (map Fin a) (map Fin b) = map Fin (zip_with Rmult a b).
Proof.
  induction a as [|x a IH]; intros [|y b]; simpl; try reflexivity.
  rewrite IH. reflexivity.
Qed.

Lemma dot_Fin :
  forall a b : list R, dot (map Fin a) (map Fin b) = Fin (Rdot a b).
Proof.
  intros a b. unfold dot, Rdot. rewrite zip_with_Fin. apply vsum_Fin.
Qed.

Lemma log_Fin_pos : forall r : R, (0 < r)%R -> Dbl.log (Fin r) = Fin (ln r).
Proof.
  intros r Hr. unfold Dbl.log.
  destruct (total_order_T 0 r) as [[H|H]|H]; [reflexivity | lra | lra].
Qed.

Lemma eqb_zero_zero : Dbl.eqb Dbl.zero Dbl.zero = true.
Proof.
  unfold Dbl.eqb, Dbl.zero. destruct (Req_dec_T 0 0); [reflexivity | lra].
Qed.

Lemma neqb_zero_zero : Dbl.neqb Dbl.zero Dbl.zero = false.
Proof. unfold Dbl.neqb. rewrite eqb_zero_zero. reflexivity. Qed.

(** ** The complete-data log-likelihood *)

Lemma bernoulli_term_eps0_all_zero :
  forall (eps : double) (p : nat) (dist : VectorXd) (llhood : double),
    Forall (fun d => d = Dbl.zero) dist ->
    bernoulli_term_eps0 eps p llhood dist = llhood.
Proof.
  intros eps p dist. unfold bernoulli_term_eps0.
  induction dist as [|d dist IH]; intros llhood H; simpl; [reflexivity|].
  inversion H as [|? ? Hd Hrest]; subst.
  rewrite neqb_zero_zero. apply IH. assumption.
Qed.

Lemma map_log_Fin :
  forall ls : list R,
    Forall (fun l => 0 < l)%R ls ->
    map Dbl.log (map Fin ls) = map Fin (map ln ls).
Proof.
  induction ls as [|l ls IH]; intros H; simpl; [reflexivity|].
  inversion H; subst. rewrite log_Fin_pos by assumption.
  rewrite IH by assumption. reflexivity.
Qed.

Lemma mat_vec_Fin :
  forall (ts : list (list R)) (ls : list R),
    mat_vec (map (map Fin) ts) (map Fin ls) =
    map Fin (map (fun row => Rdot row ls) ts).
Proof.
  intros ts ls. unfold mat_vec. rewrite !map_map.
  apply map_ext. intros row. apply dot_Fin.
Qed.

(** C8.  With [eps = 0] and every distance 0, the complete-data
    log-likelihood of positive rates is [W * sum_j log lambda_j] minus the
    sum of the coefficients of [Tdiff * lambda]: the loop over the
    distances adds nothing.  On a finite [Tdiff] and a finite [W] this is
    the real number [W * sum_j ln lambda_j - sum_i sum_j Tdiff(i,j) *
    lambda_j]. *)
Theorem complete_log_likelihood_eps0_dist0 :
  forall (ls : list R) (Tdiff : MatrixXd) (dist : VectorXd) (W : double),
    Forall (fun l => 0 < l)%R ls ->
    Forall (fun d => d = Dbl.zero) dist ->
    complete_log_likelihood (map Fin ls) Dbl.zero Tdiff dist W =
      (W * Fin (Rsum (map ln ls)) - vsum (mat_vec Tdiff (map Fin ls)))%D
    /\ forall (ts : list (list R)) (wt : R),
         Tdiff = map (map Fin) ts -> W = Fin wt ->
         complete_log_likelihood (map Fin ls) Dbl.zero Tdiff dist W =
           Fin (wt * Rsum (map ln ls) -
                Rsum (map (fun row => Rdot row ls) ts))%R.
Proof.
  intros ls Tdiff dist W Hpos Hzero.
  assert (Hmain :
            complete_log_likelihood (map Fin ls) Dbl.zero Tdiff dist W =
            (W * Fin (Rsum (map ln ls)) -
             vsum (mat_vec Tdiff (map Fin ls)))%D).
  { unfold complete_log_likelihood. rewrite eqb_zero_zero.
    rewrite bernoulli_term_eps0_all_zero by assumption.
    rewrite map_log_Fin by assumption. rewrite vsum_Fin. reflexivity. }
  split; [exact Hmain|].
  intros ts wt HT HW. rewrite Hmain. subst Tdiff W.
  rewrite mat_vec_Fin, vsum_Fin. reflexivity.
Qed.

(** A call of [complete_log_likelihood] the identity applies to. *)
Lemma complete_log_likelihood_eps0_dist0_witness :
  complete_log_likelihood (map Fin [1; 2]%R) Dbl.zero
                          [[Fin 3; Fin 4]] [Dbl.zero] (Fin 5) =
  (Fin 5 * Fin (Rsum (map ln [1; 2]%R)) -
   vsum (mat_vec [[Fin 3; Fin 4]] (map Fin [1; 2]%R)))%D.
Proof.
  apply (complete_log_likelihood_eps0_dist0
           [1; 2]%R [[Fin 3; Fin 4]] [Dbl.zero] (Fin 5)).
  - repeat constructor; lra.
  - repeat constructor.
Defined.

(** ** Cycles *)

Lemma in_adjacency_mat2list :
  forall (poset : MatrixXi) (u v : nat),
    In (u, v) (adjacency_mat2list poset) <-> is_edge poset u v.
Proof.
  intros poset u v. unfold adjacency_mat2list, is_edge.
  rewrite in_flat_map. split.
  - intros [u' [Hu H]]. apply in_flat_map in H. destruct H as [v' [Hv H]].
    apply in_seq in Hu. apply in_seq in Hv.
    destruct (Z.eqb_spec (coeff 0%Z poset u' v') 1) as [E|E].
    + destruct H as [H|[]]. inversion H; subst. repeat split; auto; lia.
    + destruct H.
  - intros [Hu [Hv E]]. exists u. split; [apply in_seq; lia|].
    apply in_flat_map. exists v. split; [apply in_seq; lia|].
    rewrite E. simpl. left. reflexivity.
Qed.

Lemma has_parent_in_spec :
  forall (E : edge_container) (R : list Node) (v : Node),
    has_parent_in E R v = true <-> exists u, In (u, v) E /\ In u R.
Proof.
  intros E R v. unfold has_parent_in. rewrite existsb_exists. split.
  - intros [[a b] [Hin H]]. apply andb_true_iff in H. destruct H as [Hb Ha].
    apply Nat.eqb_eq in Hb. apply existsb_exists in Ha.
    destruct Ha as [x [Hx Hax]]. apply Nat.eqb_eq in Hax.
    unfold source, target in *. simpl in *. subst. exists x. auto.
  - intros [u [Hin Hu]]. exists (u, v). split; [assumption|].
    apply andb_true_iff. split.
    + apply Nat.eqb_eq. reflexivity.
    + apply existsb_exists. exists u. split; [assumption|].
      apply Nat.eqb_eq. reflexivity.
Qed.

(** A set of vertices each of which has a parent in the set is never
    peeled off. *)
Lemma peel_keeps :
  forall (E : edge_container) (C : Node -> Prop),
    (forall v, C v -> exists u, C u /\ In (u, v) E) ->
    forall (fuel : nat) (R order : list Node),
      (forall v, C v -> In v R) ->
      forall v, C v -> In v (fst (peel fuel E R order)).
Proof.
  intros E C Hpred. induction fuel as [|fuel IH]; intros R order HR v Hv.
  - simpl. apply HR. assumption.
  - simpl. apply IH; [|assumption].
    intros x Hx. apply filter_In. split; [apply HR; assumption|].
    apply has_parent_in_spec. destruct (Hpred x Hx) as [u [Hu Hin]].
    exists u. split; [assumption | apply HR; assumption].
Qed.

Lemma path_range :
  forall (poset : MatrixXi) (u v : nat),
    path poset u v -> u < length poset /\ v < length poset.
Proof.
  intros poset u v H. induction H as [u v [Hu [Hv _]]|u v x [Hu _] _ [_ Hx]];
    split; assumption.
Qed.

Lemma path_last :
  forall (poset : MatrixXi) (a b : nat),
    path poset a b ->
    exists u, is_edge poset u b /\ (u = a \/ path poset a u).
Proof.
  intros poset a b H. induction H as [u v He|u v x He Hp [y [Hy Hor]]].
  - exists u. auto.
  - exists y. split; [assumption|]. right.
    destruct Hor as [->|Hvy]; [apply path_edge; assumption|].
    apply path_step with v; assumption.
Qed.

Lemma cycle_has_cycles :
  forall (m : Model),
    cycle (has_cycles m) =
    match fst (peel_poset (poset m)) with [] => false | _ :: _ => true end.
Proof. reflexivity. Qed.

Section CycleDetection.

Context `{RT : Runtime}.

Lemma in_edges_build_model :
  forall (poset0 : MatrixXi) (lambda_s : double) (u v : nat),
    In (u, v) (edges (poset (build_model poset0 lambda_s))) <->
    is_edge poset0 u v.
Proof.
  intros poset0 lambda_s u v. simpl. rewrite nodup_In.
  apply in_adjacency_mat2list.
Qed.

(** The check of the entry points finds every directed cycle. *)
Lemma has_cycles_complete :
  forall (poset0 : MatrixXi) (lambda_s : double) (m : Model),
    poset m = poset (build_model poset0 lambda_s) ->
    has_directed_cycle poset0 ->
    cycle (has_cycles m) = true.
Proof.
  intros poset0 lambda_s m Hm [v0 Hcyc].
  rewrite cycle_has_cycles, Hm.
  set (C := fun x => path poset0 v0 x /\ path poset0 x v0).
  assert (Hin : In v0 (fst (peel_poset (poset (build_model poset0 lambda_s))))).
  { unfold peel_poset. apply peel_keeps with (C := C).
    - intros x [Hx1 Hx2]. destruct (path_last poset0 v0 x Hx1) as [u [He Hor]].
      exists u. split.
      + destruct Hor as [->|Hu]; [split; assumption|].
        split; [assumption|]. apply path_step with x; assumption.
      + apply in_edges_build_model. assumption.
    - intros x [Hx _]. apply path_range in Hx. simpl. apply in_seq. lia.
    - split; assumption. }
  destruct (fst (peel_poset (poset (build_model poset0 lambda_s))));
    [destruct Hin | reflexivity].
Qed.

End CycleDetection.

(** ** The cycle check reports cycles only *)

Lemma chain_tail :
  forall (poset0 : MatrixXi) (a : nat) (l : list nat),
    l <> [] -> chain poset0 (a :: l) -> chain poset0 l.
Proof.
  intros poset0 a l Hne H. inversion H; subst; [congruence | assumption].
Qed.

Lemma chain_suffix :
  forall (poset0 : MatrixXi) (l1 l2 : list nat),
    l2 <> [] -> chain poset0 (l1 ++ l2) -> chain poset0 l2.
Proof.
  intros poset0. induction l1 as [|a l1 IH]; intros l2 Hne H; [exact H|].
  apply IH; [assumption|]. apply chain_tail with a; [|exact H].
  destruct l1; destruct l2; simpl; congruence.
Qed.

Lemma chain_path :
  forall (poset0 : MatrixXi) (l l' : list nat) (a b : nat),
    chain poset0 (a :: l ++ b :: l') -> path poset0 a b.
Proof.
  intros poset0. induction l as [|c l IH]; intros l' a b H; simpl in H.
  - inversion H; subst. apply path_edge. assumption.
  - inversion H; subst. apply path_step with c; [assumption|].
    apply IH with l'. assumption.
Qed.

Lemma duplicate_split :
  forall l : list nat,
    ~ NoDup l ->
    exists x l1 l2 l3, l = l1 ++ x :: l2 ++ x :: l3.
Proof.
  induction l as [|a l IH]; intros H.
  - exfalso. apply H. constructor.
  - destruct (in_dec Nat.eq_dec a l) as [Hin|Hnin].
    + destruct (in_split a l Hin) as [l2 [l3 ->]].
      exists a, [], l2, l3. reflexivity.
    + destruct IH as [x [l1 [l2 [l3 ->]]]].
      * intros Hnd. apply H. constructor; assumption.
      * exists x, (a :: l1), l2, l3. reflexivity.
Qed.

(** A set of vertices that is not empty and in which every vertex has a
    parent contains a cycle. *)
Lemma closed_set_has_cycle :
  forall (poset0 : MatrixXi) (R : list nat),
    R <> [] ->
    (forall v, In v R -> exists u, In u R /\ is_edge poset0 u v) ->
    has_directed_cycle poset0.
Proof.
  intros poset0 R Hne Hclosed.
  assert (Hwalk : forall n, exists l,
               length l = S n /\ chain poset0 l /\ incl l R).
  { induction n as [|n [l [Hlen [Hc Hincl]]]].
    - destruct R as [|v R]; [congruence|]. exists [v].
      split; [reflexivity|]. split; [constructor|].
      intros x [<-|[]]. left. reflexivity.
    - destruct l as [|v l]; [discriminate|].
      destruct (Hclosed v (Hincl v (or_introl eq_refl))) as [u [Hu He]].
      exists (u :: v :: l). split; [simpl in *; lia|].
      split; [constructor; assumption|].
      intros x [<-|Hx]; [assumption | apply Hincl; assumption]. }
  destruct (Hwalk (length R)) as [l [Hlen [Hc Hincl]]].
  destruct (duplicate_split l) as [x [l1 [l2 [l3 ->]]]].
  - intros Hnd. pose proof (NoDup_incl_length Hnd Hincl). lia.
  - exists x. apply chain_path with l2 l3.
    apply chain_suffix with l1; [discriminate | assumption].
Qed.

Lemma filter_all :
  forall (A : Type) (f : A -> bool) (l : list A),
    length (filter f l) = length l -> forall x, In x l -> f x = true.
Proof.
  intros A f l H x Hx. apply filter_length_forallb in H.
  rewrite forallb_forall in H. apply H. assumption.
Qed.

Lemma peel_nil :
  forall (E : edge_container) (fuel : nat) (O : list Node),
    fst (peel fuel E [] O) = [].
Proof.
  intros E. induction fuel as [|fuel IH]; intros O; [reflexivity|].
  simpl. apply IH.
Qed.

(** Either [peel] meets a set of vertices that all have a parent in the
    set, or every round removes a vertex. *)
Lemma peel_progress :
  forall (E : edge_container) (fuel : nat) (R O : list Node),
    (exists R', R' <> [] /\
                forall v, In v R' -> has_parent_in E R' v = true) \/
    length (fst (peel fuel E R O)) + fuel <= length R \/
    fst (peel fuel E R O) = [].
Proof.
  intros E. induction fuel as [|fuel IH]; intros R O.
  - right. left. simpl. lia.
  - simpl.
    set (rest := filter (has_parent_in E R) R).
    set (ready := filter (fun v => negb (has_parent_in E R v)) R).
    pose proof (filter_length_le (has_parent_in E R) R) as Hle.
    fold rest in Hle.
    destruct (Nat.eq_dec (length rest) (length R)) as [Heq|Hlt].
    + destruct R as [|v R].
      * right. right. apply peel_nil.
      * left. exists (v :: R). split; [discriminate|].
        apply filter_all. exact Heq.
    + destruct (IH rest (O ++ ready)) as [H|[H|H]].
      * left. assumption.
      * right. left. lia.
      * right. right. assumption.
Qed.

Section CycleCheckSound.

Context `{RT : Runtime}.

(** A poset that the check of the entry points rejects has a directed
    cycle. *)
Lemma has_cycles_sound :
  forall (poset0 : MatrixXi) (lambda_s : double) (m : Model),
    poset m = poset (build_model poset0 lambda_s) ->
    cycle (has_cycles m) = true ->
    has_directed_cycle poset0.
Proof.
  intros poset0 lambda_s m Hm Hcyc. rewrite cycle_has_cycles, Hm in Hcyc.
  unfold peel_poset in Hcyc.
  destruct (peel_progress (edges (poset (build_model poset0 lambda_s)))
              (num_vertices (poset (build_model poset0 lambda_s)))
              (seq 0 (num_vertices (poset (build_model poset0 lambda_s))))
              []) as [[R' [Hne Hclosed]]|[Hlen|Hnil]].
  - apply closed_set_has_cycle with R'; [assumption|].
    intros v Hv. apply Hclosed in Hv. apply has_parent_in_spec in Hv.
    destruct Hv as [u [He Hu]]. exists u. split; [assumption|].
    apply (in_edges_build_model poset0 lambda_s). assumption.
  - rewrite length_seq in Hlen.
    destruct (fst (peel _ _ _ _)); [discriminate | simpl in Hlen; lia].
  - rewrite Hnil in Hcyc. discriminate.
Qed.

(** The check passes exactly on the posets without a directed cycle. *)
Lemma has_cycles_acyclic :
  forall (poset0 : MatrixXi) (lambda_s : double) (m : Model),
    poset m = poset (build_model poset0 lambda_s) ->
    (cycle (has_cycles m) = false <-> ~ has_directed_cycle poset0).
Proof.
  intros poset0 lambda_s m Hm. split.
  - intros Hf Hc.
    rewrite (has_cycles_complete poset0 lambda_s m Hm Hc) in Hf.
    discriminate.
  - intros Hn. destruct (cycle (has_cycles m)) eqn:E; [|reflexivity].
    exfalso. apply Hn. apply has_cycles_sound with lambda_s m; assumption.
Qed.

End CycleCheckSound.

(** ** The topological order *)

Lemma parents_first_weaken :
  forall (E : edge_container) (todo done done' : list Node),
    incl done done' ->
    parents_first E done todo -> parents_first E done' todo.
Proof.
  intros E. induction todo as [|v todo IH]; intros done done' Hincl H;
    simpl in *; [exact I|].
  destruct H as [Hv H]. split.
  - intros u Hu. apply Hincl. apply Hv. assumption.
  - apply IH with (v :: done); [|assumption].
    intros x [<-|Hx]; [left; reflexivity | right; apply Hincl; assumption].
Qed.

Lemma parents_first_all :
  forall (E : edge_container) (todo done : list Node),
    (forall v, In v todo -> forall u, In (u, v) E -> In u done) ->
    parents_first E done todo.
Proof.
  intros E. induction todo as [|v todo IH]; intros done H; simpl; [exact I|].
  split; [apply H; left; reflexivity|].
  apply parents_first_weaken with done; [intros x Hx; right; assumption|].
  apply IH. intros x Hx. apply H. right. assumption.
Qed.

Lemma parents_first_app :
  forall (E : edge_container) (l1 l2 done : list Node),
    parents_first E done l1 ->
    parents_first E (rev l1 ++ done) l2 ->
    parents_first E done (l1 ++ l2).
Proof.
  intros E. induction l1 as [|v l1 IH]; intros l2 done H1 H2; simpl in *;
    [assumption|].
  destruct H1 as [Hv H1]. split; [assumption|].
  apply IH; [assumption|]. rewrite <- app_assoc in H2. exact H2.
Qed.

Lemma filter_split_perm :
  forall (A : Type) (f : A -> bool) (l : list A),
    Permutation (filter (fun x => negb (f x)) l ++ filter f l) l.
Proof.
  intros A f. induction l as [|x l IH]; simpl; [constructor|].
  destruct (f x); simpl.
  - apply Permutation_sym. apply Permutation_cons_app.
    apply Permutation_sym. assumption.
  - constructor. assumption.
Qed.

Lemma peel_invariant :
  forall (E : edge_container) (p : nat),
    (forall u v, In (u, v) E -> u < p) ->
    forall (fuel : nat) (R O : list Node),
      NoDup (O ++ R) ->
      (forall v, In v (O ++ R) <-> v < p) ->
      parents_first E [] O ->
      NoDup (snd (peel fuel E R O) ++ fst (peel fuel E R O)) /\
      (forall v, In v (snd (peel fuel E R O) ++ fst (peel fuel E R O))
                 <-> v < p) /\
      parents_first E [] (snd (peel fuel E R O)).
Proof.
  intros E p Hrange. induction fuel as [|fuel IH]; intros R O Hnd Hcov Hpf.
  - simpl. auto.
  - simpl.
    set (ready := filter (fun v => negb (has_parent_in E R v)) R).
    set (rest := filter (has_parent_in E R) R).
    assert (Hperm : Permutation ((O ++ ready) ++ rest) (O ++ R)).
    { rewrite <- app_assoc. apply Permutation_app_head.
      apply filter_split_perm. }
    apply IH.
    + apply Permutation_NoDup with (O ++ R);
        [apply Permutation_sym; assumption | assumption].
    + intros v. rewrite <- Hcov. split; intros Hv.
      * apply Permutation_in with ((O ++ ready) ++ rest); assumption.
      * apply Permutation_in with (O ++ R);
          [apply Permutation_sym; assumption | assumption].
    + apply parents_first_app; [assumption|].
      apply parents_first_all. intros v Hv u Hu.
      apply filter_In in Hv. destruct Hv as [HvR Hnp].
      apply negb_true_iff in Hnp.
      assert (HuOR : In u (O ++ R)) by (apply Hcov; apply Hrange with v;
                                        assumption).
      apply in_app_or in HuOR. destruct HuOR as [HuO|HuR].
      * apply in_or_app. left. apply in_rev. rewrite rev_involutive.
        assumption.
      * exfalso. assert (Ht : has_parent_in E R v = true).
        { apply has_parent_in_spec. exists u. auto. }
        congruence.
Qed.

(** On a model that passed the cycle check, [topological_sort] leaves a
    [topo_path] that lists every event once, children first. *)
Lemma topological_sort_ok :
  forall (m : Model),
    (forall u v, In (u, v) (edges (poset m)) -> u < num_vertices (poset m)) ->
    num_vertices (poset m) = size m ->
    cycle (has_cycles m) = false ->
    topo_path_ok (topological_sort (has_cycles m)).
Proof.
  intros m Hrange Hsize Hcyc. rewrite cycle_has_cycles in Hcyc.
  unfold topo_path_ok, topological_sort. simpl.
  unfold peel_poset in *.
  destruct (peel_invariant (edges (poset m)) (num_vertices (poset m)) Hrange
              (num_vertices (poset m)) (seq 0 (num_vertices (poset m))) [])
    as [Hnd [Hcov Hpf]].
  - simpl. apply seq_NoDup.
  - intros v. simpl. rewrite in_seq. lia.
  - exact I.
  - destruct (fst (peel _ _ _ _)); [|discriminate].
    rewrite app_nil_r in *. rewrite rev_involutive.
    split; [apply NoDup_rev; assumption|]. split; [|assumption].
    intros v. rewrite <- in_rev. unfold size in *. rewrite <- Hsize.
    apply Hcov.
Qed.

(** C2.  On an adjacency matrix with a directed cycle, [_MCEM_hcbn],
    [obs_log_likelihood] (and so [_obs_log_likelihood]),
    [_importance_weight_genotype] and [_sample_genotypes] end in
    [NotAcyclic], whatever their other arguments are: the error is all
    they produce, nothing was sampled or inferred. *)
Theorem cyclic_poset_is_rejected :
  forall `{RT : Runtime} (poset0 : MatrixXi),
    has_directed_cycle poset0 ->
    (forall ilambda obs times lambda_s eps weights L sampling version
            max_iter0 update_step_size0 tol0 max_lambda0
            sampling_times_available thrds verbose seed,
        _MCEM_hcbn ilambda poset0 obs times lambda_s eps weights L sampling
                   version max_iter0 update_step_size0 tol0 max_lambda0
                   sampling_times_available thrds verbose seed =
        Error NotAcyclic) /\
    (forall obs lambda eps times L sampling version ctx lambda_s
            sampling_times_available thrds,
        obs_log_likelihood obs poset0 lambda eps times L sampling version
                           ctx lambda_s sampling_times_available thrds =
        Error NotAcyclic) /\
    (forall obs lambda eps times L sampling version lambda_s
            sampling_times_available thrds seed,
        _obs_log_likelihood obs poset0 lambda eps times L sampling version
                            lambda_s sampling_times_available thrds seed =
        Error NotAcyclic) /\
    (forall genotype L lambda eps time sampling version lambda_s
            sampling_times_available seed,
        _importance_weight_genotype genotype L poset0 lambda eps time
                                    sampling version lambda_s
                                    sampling_times_available seed =
        Error NotAcyclic) /\
    (forall N lambda T_events T_sampling lambda_s
            sampling_times_available seed,
        _sample_genotypes N poset0 lambda T_events T_sampling lambda_s
                          sampling_times_available seed =
        Error NotAcyclic).
Proof.
  intros RT poset0 Hcyc.
  assert (H2 : forall lambda_s lambda eps,
             cycle (has_cycles
                      (set_epsilon
                         (set_lambda (build_model poset0 lambda_s) lambda)
                         eps)) = true).
  { intros. apply has_cycles_complete with poset0 lambda_s;
      [reflexivity | assumption]. }
  assert (H1 : forall lambda_s lambda,
             cycle (has_cycles
                      (set_lambda (build_model poset0 lambda_s) lambda))
             = true).
  { intros. apply has_cycles_complete with poset0 lambda_s;
      [reflexivity | assumption]. }
  repeat split; intros.
  - unfold _MCEM_hcbn. rewrite H2. reflexivity.
  - unfold obs_log_likelihood. rewrite H2. reflexivity.
  - unfold _obs_log_likelihood, obs_log_likelihood. rewrite H2. reflexivity.
  - unfold _importance_weight_genotype. rewrite H2. reflexivity.
  - unfold _sample_genotypes. rewrite H1. reflexivity.
Qed.

(** The poset [0 -> 1, 1 -> 0] is rejected by [_MCEM_hcbn]. *)
Lemma cyclic_poset_is_rejected_witness :
  has_directed_cycle [[0; 1]; [1; 0]]%Z /\
  @_MCEM_hcbn counter_runtime [Fin 1; Fin 1] [[0; 1]; [1; 0]]%Z
              [[true; false]] [Fin 1] (Fin 1) (Fin 0) [Fin 1] 10
              "forward" 0 200%Z 20%Z (Fin (/ 1000)) (Fin 1000000)
              false 1 false 42%Z = Error NotAcyclic.
Proof.
  assert (Hcyc : has_directed_cycle [[0; 1]; [1; 0]]%Z).
  { exists 0. apply path_step with 1.
    - repeat split; simpl; lia.
    - apply path_edge. repeat split; simpl; lia. }
  split; [exact Hcyc|].
  apply (@cyclic_poset_is_rejected counter_runtime _ Hcyc).
Defined.

(** ** The driver *)

Lemma nth_repeat_lt :
  forall (A : Type) (x d : A) (n i : nat), i < n -> nth i (repeat x n) d = x.
Proof.
  intros A x d n. induction n as [|n IH]; intros i Hi; [lia|].
  destruct i as [|i]; simpl; [reflexivity | apply IH; lia].
Qed.

(** C10.  With [max_iter = 0] the body of the loop never runs:
    [MCEM_hcbn] overwrites the rates with zeros, epsilon and the
    likelihood with 0 and returns 0, so no rate of the model it leaves is
    positive; on a poset without a directed cycle [_MCEM_hcbn] hands
    these zeros to its caller. *)
Theorem MCEM_hcbn_max_iter_zero :
  forall `{RT : Runtime},
    (forall model obs times weights L sampling version control_EM
            sampling_times_available thrds ctx,
        max_iter control_EM = 0%Z ->
        let r := MCEM_hcbn model obs times weights L sampling version
                           control_EM sampling_times_available thrds ctx in
        get_lambda (fst (fst r)) = repeat Dbl.zero (size model) /\
        get_epsilon (fst (fst r)) = Dbl.zero /\
        get_llhood (fst (fst r)) = Dbl.zero /\
        snd r = Dbl.zero /\
        forall i, i < size model ->
                  ~ positive (get_lambda_at (fst (fst r)) i)) /\
    (forall ilambda poset0 obs times lambda_s eps weights L sampling version
            update_step_size0 tol0 max_lambda0 sampling_times_available
            thrds verbose seed,
        ~ has_directed_cycle poset0 ->
        _MCEM_hcbn ilambda poset0 obs times lambda_s eps weights L sampling
                   version 0%Z update_step_size0 tol0 max_lambda0
                   sampling_times_available thrds verbose seed =
        Ok (repeat Dbl.zero (length poset0), Dbl.zero, Dbl.zero)).
Proof.
  intros RT. split.
  - intros model obs times weights L sampling version control_EM
           sampling_times_available thrds ctx Hmax r.
    subst r. unfold MCEM_hcbn. rewrite Hmax. simpl.
    repeat split; try reflexivity.
    intros i Hi [l [Hl Hpos]]. unfold get_lambda_at in Hl. simpl in Hl.
    rewrite nth_repeat_lt in Hl by assumption.
    unfold Dbl.zero in Hl. inversion Hl. lra.
  - intros ilambda poset0 obs times lambda_s eps weights L sampling version
           update_step_size0 tol0 max_lambda0 sampling_times_available
           thrds verbose seed Hacyc.
    unfold _MCEM_hcbn.
    rewrite (proj2 (has_cycles_acyclic poset0 lambda_s _ eq_refl) Hacyc).
    reflexivity.
Qed.

(** [MCEM_hcbn] and [_MCEM_hcbn] on the chain [0 -> 1] with
    [max_iter = 0]. *)
Lemma MCEM_hcbn_max_iter_zero_witness :
  (let control_EM :=
     {| max_iter := 0; update_step_size := 20;
        tol := Fin (/ 1000); max_lambda := Fin 1000000 |} in
   let model :=
     set_lambda (@build_model counter_runtime [[0; 1]; [0; 0]]%Z (Fin 1))
                [Fin 1; Fin 1] in
   let r := @MCEM_hcbn counter_runtime model [[true; false]] [Fin 1]
                       [Fin 1] 10 "forward" 0 control_EM false 1
                       (@Context_new counter_runtime 42%Z false) in
   get_lambda (fst (fst r)) = [Dbl.zero; Dbl.zero] /\ snd r = Dbl.zero) /\
  @_MCEM_hcbn counter_runtime [Fin 1; Fin 1] [[0; 1]; [0; 0]]%Z
              [[true; false]] [Fin 1] (Fin 1) (Fin 0) [Fin 1] 10
              "forward" 0 0%Z 20%Z (Fin (/ 1000)) (Fin 1000000)
              false 1 false 42%Z =
  Ok ([Dbl.zero; Dbl.zero], Dbl.zero, Dbl.zero).
Proof.
  destruct (@MCEM_hcbn_max_iter_zero counter_runtime) as [Hcore Hentry].
  split.
  - intros control_EM model r.
    destruct (Hcore model [[true; false]] [Fin 1] [Fin 1] 10 "forward"%string
                    0 control_EM false 1
                    (@Context_new counter_runtime 42%Z false) eq_refl)
      as [Hl [_ [_ [Hr _]]]].
    split; [exact Hl | exact Hr].
  - apply Hentry.
    apply (@has_cycles_acyclic counter_runtime [[0; 1]; [0; 0]]%Z (Fin 1)
             (@build_model counter_runtime [[0; 1]; [0; 0]]%Z (Fin 1))
             eq_refl).
    reflexivity.
Defined.

Section WindowAverages.

Context `{RT : Runtime}.

Variables (control_EM : ControlEM) (obs : MatrixXb) (times : VectorXd)
          (weights : RowVectorXd) (L : nat) (sampling : string)
          (version : nat) (sampling_times_available : bool)
          (thrds : nat).

Let body := em_body control_EM obs times weights L sampling version
                    sampling_times_available thrds.
Let loop := em_loop control_EM obs times weights L sampling version
                    sampling_times_available thrds.
Let iteration := em_iteration control_EM obs times weights L sampling
                              version sampling_times_available thrds.

Lemma em_loop_snoc :
  forall (n : nat) (st0 st : EMState),
    loop (seq 0 n) st0 = Next st ->
    loop (seq 0 (S n)) st0 = body n st.
Proof.
  intros n st0 st H. subst loop body. unfold em_loop in *.
  rewrite seq_S, fold_left_app. simpl. rewrite H. reflexivity.
Qed.

Lemma em_loop_prefix :
  forall (n : nat) (st0 st : EMState),
    loop (seq 0 (S n)) st0 = Next st ->
    exists st', loop (seq 0 n) st0 = Next st'.
Proof.
  intros n st0 st H. subst loop. unfold em_loop in *.
  rewrite seq_S, fold_left_app in H. simpl in H.
  match type of H with
  | match ?f with _ => _ end = _ => destruct f as [st'|st'] eqn:E
  end; [exists st'; reflexivity | discriminate].
Qed.

Lemma em_update_step_size_iteration :
  forall st, em_update_step_size (iteration st) = em_update_step_size st.
Proof.
  intros st. subst iteration. unfold em_iteration.
  destruct (e_step _ _ _ _ _ _ _ _ _) as [[ed eT] g]. reflexivity.
Qed.

Lemma em_update_step_size_final_average :
  forall iter st,
    em_update_step_size (final_average control_EM iter st) =
    em_update_step_size st.
Proof.
  intros iter st. unfold final_average.
  destruct (iter + 1 =? max_iter control_EM)%Z; reflexivity.
Qed.

Lemma window_boundary_next_boundary :
  forall (p : nat) (iter : Z) (st st1 : EMState),
    (0 < update_step_size control_EM)%Z ->
    (0 <= iter)%Z ->
    (iter + update_step_size control_EM < 2 ^ 32)%Z ->
    em_update_step_size st =
      (if (iter =? 0)%Z then update_step_size control_EM
       else boundary_after control_EM (iter - 1)) ->
    window_boundary control_EM p iter st = Next st1 ->
    em_update_step_size st1 = boundary_after control_EM iter.
Proof.
  intros p iter st st1 Hu Hiter Hmax Hb Hw.
  unfold window_boundary in Hw. unfold boundary_after in *.
  set (u := update_step_size control_EM) in *.
  assert (Hstep :
            (if (iter =? 0)%Z then u else u * ((iter - 1) / u + 1))%Z =
            (if (iter mod u =? 0)%Z && negb (iter =? 0)%Z
             then iter else u * (iter / u + 1))%Z).
  { destruct (Z.eqb_spec iter 0) as [->|Hne].
    - rewrite Z.mod_0_l, Z.div_0_l by lia. simpl. lia.
    - rewrite andb_true_r.
      pose proof (Z.div_mod iter u ltac:(lia)) as Hdm.
      pose proof (Z.mod_pos_bound iter u Hu) as Hmb.
      destruct (Z.eqb_spec (iter mod u) 0) as [Hz|Hnz].
      + assert ((iter - 1) / u = iter / u - 1)%Z as ->.
        { symmetry. apply Z.div_unique with (r := (u - 1)%Z); lia. }
        lia.
      + assert ((iter - 1) / u = iter / u)%Z as ->.
        { symmetry. apply Z.div_unique with (r := (iter mod u - 1)%Z); lia. }
        reflexivity. }
  rewrite Hstep in Hb. clear Hstep.
  pose proof (Z.div_mod iter u ltac:(lia)) as Hdm.
  pose proof (Z.mod_pos_bound iter u Hu) as Hmb.
  destruct (Z.eqb_spec iter (em_update_step_size st)) as [Heq|Hne].
  - destruct (em_tol_comparison st && _) in Hw; [discriminate|].
    inversion Hw; subst st1; simpl. clear Hw.
    rewrite <- Heq. unfold wrap32. rewrite Z.mod_small by lia.
    destruct ((iter mod u =? 0)%Z && negb (iter =? 0)%Z) eqn:E.
    + apply andb_true_iff in E. destruct E as [E _].
      apply Z.eqb_eq in E. nia.
    + exfalso. rewrite <- Heq in Hb. nia.
  - inversion Hw; subst st1. clear Hw.
    destruct ((iter mod u =? 0)%Z && negb (iter =? 0)%Z) eqn:E.
    + exfalso. apply Hne. symmetry. assumption.
    + assumption.
Qed.

Lemma em_loop_boundary :
  forall (model : Model) (ctx : Context) (n : nat) (st : EMState),
    (0 < update_step_size control_EM)%Z ->
    (Z.of_nat n + update_step_size control_EM <= 2 ^ 32)%Z ->
    loop (seq 0 n) (em_init control_EM model ctx) = Next st ->
    em_update_step_size st =
      (if (Z.of_nat n =? 0)%Z then update_step_size control_EM
       else boundary_after control_EM (Z.of_nat n - 1)).
Proof.
  intros model ctx n. induction n as [|n IH]; intros st Hu Hmax H.
  - subst loop. simpl in H. inversion H. reflexivity.
  - destruct (em_loop_prefix _ _ _ H) as [st' Hpre].
    rewrite (em_loop_snoc _ _ _ Hpre) in H.
    specialize (IH st' Hu ltac:(lia) Hpre).
    subst body. unfold em_body in H.
    destruct (window_boundary control_EM (size (em_model st'))
                              (Z.of_nat n) st') as [st1|st1] eqn:Hw;
      [|discriminate].
    inversion H; subst st. clear H.
    rewrite em_update_step_size_final_average.
    fold iteration. rewrite em_update_step_size_iteration.
    replace (Z.of_nat (S n) =? 0)%Z with false
      by (symmetry; apply Z.eqb_neq; lia).
    replace (Z.of_nat (S n) - 1)%Z with (Z.of_nat n) by lia.
    apply window_boundary_next_boundary
      with (p := size (em_model st')) (st := st'); try assumption; lia.
Qed.

(** C5.  When the loop runs its [max_iter] iterations without a
    [break], the last one divides the three accumulators of the window
    it ends in by [max_iter - next boundary + update_step_size], taken
    in [unsigned int] arithmetic; [MCEM_hcbn] then stores the three
    quotients in the model and returns the averaged log-likelihood.
    While nothing overflows the divisor is [max_iter] minus the last
    multiple of the step that an iteration reached, that is the number
    of iterations run since the accumulators were last reset. *)
Theorem final_window_average :
  forall (model : Model) (ctx : Context) (n : nat) (st st1 : EMState),
    max_iter control_EM = Z.of_nat (S n) ->
    em_loop control_EM obs times weights L sampling version
            sampling_times_available thrds (seq 0 n)
            (em_init control_EM model ctx) = Next st ->
    window_boundary control_EM (size (em_model st)) (Z.of_nat n) st =
      Next st1 ->
    let acc := em_iteration control_EM obs times weights L sampling
                            version sampling_times_available thrds st1 in
    let k := wrap32 (wrap32 (max_iter control_EM - em_update_step_size st1)
                     + update_step_size control_EM) in
    let r := MCEM_hcbn model obs times weights L sampling version
                       control_EM sampling_times_available thrds ctx in
    get_lambda (fst (fst r)) =
      map (fun x => x / Dbl.of_Z k)%D (em_avg_lambda_current acc) /\
    get_epsilon (fst (fst r)) = (em_avg_eps_current acc / Dbl.of_Z k)%D /\
    get_llhood (fst (fst r)) = (em_avg_llhood acc / Dbl.of_Z k)%D /\
    snd r = (em_avg_llhood acc / Dbl.of_Z k)%D /\
    ((0 < update_step_size control_EM)%Z ->
     (max_iter control_EM + update_step_size control_EM <= 2 ^ 32)%Z ->
     em_update_step_size st1 = boundary_after control_EM (Z.of_nat n) /\
     k = (max_iter control_EM -
          update_step_size control_EM *
          (Z.of_nat n / update_step_size control_EM))%Z /\
     (1 <= k <= update_step_size control_EM)%Z).
Proof.
  intros model ctx n st st1 Hmax Hloop Hw acc k r.
  assert (Hr : r = em_exit ctx (final_average control_EM (Z.of_nat n) acc)).
  { subst r. unfold MCEM_hcbn. rewrite Hmax, Nat2Z.id.
    fold loop. rewrite (em_loop_snoc _ _ _ Hloop).
    subst body. unfold em_body. rewrite Hw. reflexivity. }
  assert (Hfin : final_average control_EM (Z.of_nat n) acc =
                 {| em_model := em_model acc;
                    em_rng := em_rng acc;
                    em_update_step_size := em_update_step_size acc;
                    em_avg_lambda := em_avg_lambda acc;
                    em_avg_lambda_current :=
                      map (fun x => x / Dbl.of_Z k)%D
                          (em_avg_lambda_current acc);
                    em_avg_eps := em_avg_eps acc;
                    em_avg_eps_current :=
                      (em_avg_eps_current acc / Dbl.of_Z k)%D;
                    em_avg_llhood := (em_avg_llhood acc / Dbl.of_Z k)%D;
                    em_llhood := em_llhood acc;
                    em_tol_comparison := em_tol_comparison acc |}).
  { unfold final_average.
    replace (Z.of_nat n + 1 =? max_iter control_EM)%Z with true
      by (symmetry; apply Z.eqb_eq; lia).
    unfold num_iter. subst acc. fold iteration.
    rewrite em_update_step_size_iteration. reflexivity. }
  rewrite Hr, Hfin. simpl.
  do 4 (split; [reflexivity|]).
  intros Hu Hov.
  assert (Hb : em_update_step_size st1 =
               boundary_after control_EM (Z.of_nat n)).
  { apply window_boundary_next_boundary
      with (p := size (em_model st)) (st := st); try assumption; try lia.
    apply em_loop_boundary with model ctx; try assumption. lia. }
  split; [exact Hb|].
  pose proof (Z.div_mod (Z.of_nat n) (update_step_size control_EM)
                        ltac:(lia)) as Hdm.
  pose proof (Z.mod_pos_bound (Z.of_nat n) (update_step_size control_EM)
                              ltac:(lia)) as Hmb.
  assert (Hk : k = (max_iter control_EM -
                    update_step_size control_EM *
                    (Z.of_nat n / update_step_size control_EM))%Z).
  { subst k. rewrite Hb. unfold boundary_after, wrap32.
    rewrite Zplus_mod_idemp_l. rewrite Z.mod_small; nia. }
  split; [exact Hk | rewrite Hk; nia].
Qed.

End WindowAverages.

(** A run of one iteration on one observation of the empty poset over one
    event: the window of that iteration is averaged over one iteration. *)
Lemma final_window_average_witness :
  let control_EM :=
    {| max_iter := 1; update_step_size := 20;
       tol := Fin (/ 1000); max_lambda := Fin 1000000 |} in
  let model :=
    topological_sort
      (has_cycles
         (set_epsilon
            (set_lambda (@build_model counter_runtime [[0%Z]] (Fin 1))
                        [Fin 1])
            (Fin (/ 2)))) in
  let ctx := @Context_new counter_runtime 42%Z false in
  let st := @em_init counter_runtime control_EM model ctx in
  let acc := @em_iteration counter_runtime control_EM [[true]] [Fin 1]
                           [Fin 1] 2 "forward" 0 false 1 st in
  let r := @MCEM_hcbn counter_runtime model [[true]] [Fin 1] [Fin 1] 2
                      "forward" 0 control_EM false 1 ctx in
  let k := wrap32 (wrap32 (1 - 20) + 20) in
  k = 1%Z /\
  get_lambda (fst (fst r)) =
    map (fun x => x / Dbl.of_Z k)%D (em_avg_lambda_current acc) /\
  get_epsilon (fst (fst r)) = (em_avg_eps_current acc / Dbl.of_Z k)%D /\
  snd r = (em_avg_llhood acc / Dbl.of_Z k)%D.
Proof.
  intros control_EM model ctx st acc r k.
  destruct (@final_window_average
              counter_runtime control_EM [[true]] [Fin 1] [Fin 1] 2
              "forward"%string 0 false 1 model ctx 0 st st
              eq_refl eq_refl eq_refl)
    as [Hl [He [_ [Hr _]]]].
  split; [reflexivity|].
  split; [exact Hl|]. split; [exact He | exact Hr].
Defined.

(** ** Vectors and matrices *)

Lemma length_upd :
  forall (A : Type) (l : list A) (n : nat) (x : A),
    length (upd n x l) = length l.
Proof.
  intros A l. induction l as [|h t IH]; intros [|n] x; simpl;
    try reflexivity. rewrite IH. reflexivity.
Qed.

Lemma nth_upd_eq :
  forall (A : Type) (l : list A) (n : nat) (x d : A),
    n < length l -> nth n (upd n x l) d = x.
Proof.
  intros A l. induction l as [|h t IH]; intros [|n] x d Hn; simpl in *;
    try lia; [reflexivity | apply IH; lia].
Qed.

Lemma nth_upd_neq :
  forall (A : Type) (l : list A) (n m : nat) (x d : A),
    n <> m -> nth m (upd n x l) d = nth m l d.
Proof.
  intros A l. induction l as [|h t IH]; intros [|n] [|m] x d Hnm; simpl;
    try reflexivity; try lia. apply IH. lia.
Qed.

Lemma Forall_upd :
  forall (A : Type) (P : A -> Prop) (l : list A) (n : nat) (x : A),
    Forall P l -> P x -> Forall P (upd n x l).
Proof.
  intros A P l. induction l as [|h t IH]; intros [|n] x Hl Hx; simpl;
    try assumption; inversion Hl; subst; constructor; auto.
Qed.

Lemma has_shape_row :
  forall (A : Type) (N p : nat) (M : list (list A)) (i : nat),
    has_shape N p M -> i < N -> length (nth i M []) = p.
Proof.
  intros A N p M i [HN HM] Hi. rewrite Forall_forall in HM.
  apply HM. apply nth_In. lia.
Qed.

Lemma has_shape_repeat :
  forall (A : Type) (N p : nat) (x : A),
    has_shape N p (repeat (repeat x p) N).
Proof.
  intros A N p x. split; [apply repeat_length|].
  apply Forall_forall. intros row Hrow. apply repeat_spec in Hrow.
  subst. apply repeat_length.
Qed.

Lemma has_shape_set_coeff :
  forall (A : Type) (N p : nat) (M : list (list A)) (i j : nat) (x : A),
    has_shape N p M -> i < N -> has_shape N p (set_coeff M i j x).
Proof.
  intros A N p M i j x HM Hi. pose proof HM as [HN HF]. unfold set_coeff.
  split.
  - rewrite length_upd. assumption.
  - apply Forall_upd; [assumption|]. rewrite length_upd.
    apply has_shape_row with N; assumption.
Qed.

Lemma coeff_set_coeff_eq :
  forall (A : Type) (N p : nat) (M : list (list A)) (i j : nat) (x d : A),
    has_shape N p M -> i < N -> j < p ->
    coeff d (set_coeff M i j x) i j = x.
Proof.
  intros A N p M i j x d HM Hi Hj. unfold coeff, set_coeff.
  destruct HM as [HN HF].
  rewrite nth_upd_eq by lia. apply nth_upd_eq.
  rewrite (has_shape_row A N p M i (conj HN HF) Hi). assumption.
Qed.

Lemma coeff_set_coeff_neq :
  forall (A : Type) (M : list (list A)) (i j i' j' : nat) (x d : A),
    i' <> i \/ j' <> j ->
    coeff d (set_coeff M i j x) i' j' = coeff d M i' j'.
Proof.
  intros A M i j i' j' x d H. unfold coeff, set_coeff.
  destruct (Nat.eq_dec i' i) as [->|Hi].
  - destruct H as [H|Hj]; [congruence|].
    destruct (Nat.lt_ge_cases i (length M)) as [Hlt|Hge].
    + rewrite nth_upd_eq by assumption. apply nth_upd_neq. congruence.
    + assert (Hge' : length (upd i (upd j x (nth i M [])) M) <= i)
        by (rewrite length_upd; assumption).
      rewrite (nth_overflow _ _ Hge'), (nth_overflow _ _ Hge). reflexivity.
  - rewrite nth_upd_neq by congruence. reflexivity.
Qed.

Lemma length_zip_with :
  forall (A B C : Type) (f : A -> B -> C) (a : list A) (b : list B),
    length (zip_with f a b) = Nat.min (length a) (length b).
Proof.
  intros A B C f a. induction a as [|x a IH]; intros [|y b]; simpl;
    try reflexivity. rewrite IH. reflexivity.
Qed.

Lemma nth_zip_with :
  forall (A B C : Type) (f : A -> B -> C) (a : list A) (b : list B)
         (i : nat) (da : A) (db : B) (dc : C),
    i < length a -> i < length b ->
    nth i (zip_with f a b) dc = f (nth i a da) (nth i b db).
Proof.
  intros A B C f a. induction a as [|x a IH]; intros [|y b] [|i] da db dc Ha Hb;
    simpl in *; try lia; [reflexivity | apply IH; lia].
Qed.

Lemma has_shape_set_col :
  forall (N p : nat) (M : MatrixXd) (j : nat) (v : VectorXd),
    has_shape N p M -> length v = N -> has_shape N p (set_col M j v).
Proof.
  intros N p M j v [HN HF] Hv. unfold set_col. split.
  - rewrite length_zip_with. lia.
  - clear HN Hv. revert v.
    induction M as [|r M IH]; intros [|x v]; simpl; try constructor.
    + rewrite length_upd. inversion HF; assumption.
    + apply IH. inversion HF; assumption.
Qed.

Lemma coeff_set_col_eq :
  forall (N p : nat) (M : MatrixXd) (j : nat) (v : VectorXd) (i : nat)
         (d : double),
    has_shape N p M -> length v = N -> i < N -> j < p ->
    coeff d (set_col M j v) i j = nth i v d.
Proof.
  intros N p M j v i d HM Hv Hi Hj. unfold coeff, set_col.
  destruct HM as [HN HF].
  rewrite (nth_zip_with _ _ _ _ M v i [] d []) by lia.
  apply nth_upd_eq.
  rewrite (has_shape_row _ N p M i (conj HN HF) Hi). assumption.
Qed.

Lemma coeff_set_col_neq :
  forall (N p : nat) (M : MatrixXd) (j j' : nat) (v : VectorXd) (i : nat)
         (d : double),
    has_shape N p M -> length v = N -> i < N -> j' <> j ->
    coeff d (set_col M j v) i j' = coeff d M i j'.
Proof.
  intros N p M j j' v i d [HN HF] Hv Hi Hj. unfold coeff, set_col.
  rewrite (nth_zip_with _ _ _ _ M v i [] d []) by lia.
  apply nth_upd_neq. congruence.
Qed.

Section SimulatorProperties.

Context `{RT : Runtime}.

Lemma rexp_std_length :
  forall (N : nat) (lambda : double) (g : rng_type),
    length (fst (rexp_std N lambda g)) = N.
Proof.
  induction N as [|N IH]; intros lambda g; simpl; [reflexivity|].
  destruct (exponential_distribution lambda g) as [t g1].
  specialize (IH lambda g1). destruct (rexp_std N lambda g1) as [T g2].
  simpl in *. rewrite IH. reflexivity.
Qed.

Lemma rexp_std_nonneg :
  forall (N : nat) (lambda : double) (g : rng_type),
    positive lambda -> Forall nonneg (fst (rexp_std N lambda g)).
Proof.
  induction N as [|N IH]; intros lambda g Hl; simpl; [constructor|].
  pose proof Hl as [l [-> Hpos]].
  pose proof (exponential_range l g Hpos) as [t [Ht Htpos]].
  destruct (exponential_distribution (Fin l) g) as [t0 g1]. simpl in Ht.
  specialize (IH (Fin l) g1 Hl). destruct (rexp_std N (Fin l) g1) as [T g2].
  simpl in *. constructor; [|assumption]. exists t. auto.
Qed.

Lemma rdiscrete_std_length :
  forall (N : nat) (ws : VectorXd) (g : rng_type),
    length (fst (rdiscrete_std N ws g)) = N.
Proof.
  induction N as [|N IH]; intros ws g; simpl; [reflexivity|].
  destruct (discrete_distribution ws g) as [k g1].
  specialize (IH ws g1). destruct (rdiscrete_std N ws g1) as [r g2].
  simpl in *. rewrite IH. reflexivity.
Qed.

Lemma rdiscrete_std_range :
  forall (N : nat) (ws : VectorXd) (g : rng_type),
    ws <> [] ->
    Forall (fun k => k < length ws) (fst (rdiscrete_std N ws g)).
Proof.
  induction N as [|N IH]; intros ws g Hws; simpl; [constructor|].
  pose proof (discrete_range ws g Hws) as Hk.
  destruct (discrete_distribution ws g) as [k g1]. simpl in Hk.
  specialize (IH ws g1 Hws). destruct (rdiscrete_std N ws g1) as [r g2].
  simpl in *. constructor; assumption.
Qed.

Lemma get_lambda_at_positive :
  forall (m : Model) (j : nat),
    rates_ok m -> j < size m -> positive (get_lambda_at m j).
Proof.
  intros m j [Hlen Hpos] Hj. unfold get_lambda_at.
  rewrite Forall_forall in Hpos. apply Hpos. apply nth_In.
  unfold get_lambda in *. lia.
Qed.

(** The waiting times drawn by lines 148-149 fill [T_events] with finite
    numbers that are not negative. *)
Lemma draw_T_events_spec :
  forall (N : nat) (m : Model) (T_events : MatrixXd) (g : rng_type),
    rates_ok m -> has_shape N (size m) T_events ->
    has_shape N (size m) (fst (draw_T_events N m T_events g)) /\
    forall i j, i < N -> j < size m ->
                nonneg (coeff Dbl.zero (fst (draw_T_events N m T_events g)) i j).
Proof.
  intros N m T_events g Hr HT. unfold draw_T_events.
  set (step := fun (acc : MatrixXd * rng_type) j =>
                 let (T, rng1) := rexp_std N (get_lambda_at m j) (snd acc) in
                 (set_col (fst acc) j T, rng1)).
  assert (H : forall k, k <= size m ->
                has_shape N (size m)
                          (fst (fold_left step (seq 0 k) (T_events, g))) /\
                forall i j, i < N -> j < k ->
                  nonneg (coeff Dbl.zero
                            (fst (fold_left step (seq 0 k) (T_events, g)))
                            i j)).
  { induction k as [|k IH]; intros Hk.
    - simpl. split; [assumption | intros; lia].
    - rewrite seq_S, fold_left_app. simpl.
      destruct (IH ltac:(lia)) as [Hshape Hnn].
      destruct (fold_left step (seq 0 k) (T_events, g)) as [T1 g1].
      simpl in *. unfold step. simpl.
      pose proof (rexp_std_length N (get_lambda_at m k) g1) as Hlen.
      pose proof (rexp_std_nonneg N (get_lambda_at m k) g1
                    (get_lambda_at_positive m k Hr ltac:(lia))) as Hpos.
      destruct (rexp_std N (get_lambda_at m k) g1) as [T g2]. simpl in *.
      split; [apply has_shape_set_col; assumption|].
      intros i j Hi Hj. destruct (Nat.eq_dec j k) as [->|Hne].
      + rewrite (coeff_set_col_eq N (size m)) by (assumption || lia).
        rewrite Forall_forall in Hpos. apply Hpos. apply nth_In. lia.
      + rewrite (coeff_set_col_neq N (size m)) by (assumption || lia).
        apply Hnn; lia. }
  apply H. lia.
Qed.

End SimulatorProperties.

(** *** The maximum over the parents *)

Lemma gtb_Fin :
  forall a b : R,
    Dbl.gtb (Fin a) (Fin b) = if Rlt_dec b a then true else false.
Proof. reflexivity. Qed.

Lemma fold_T_max_spec :
  forall (S : MatrixXd) (i : nat) (es : list Edge) (m0 : R),
    (forall e, In e es -> nonneg (coeff Dbl.zero S i (source e))) ->
    exists m : R,
      fold_left
        (fun T_max e =>
           if Dbl.gtb (coeff Dbl.zero S i (source e)) T_max
           then coeff Dbl.zero S i (source e) else T_max)
        es (Fin m0) = Fin m /\
      (m0 <= m)%R /\
      (forall e, In e es ->
                 exists r, coeff Dbl.zero S i (source e) = Fin r /\ (r <= m)%R) /\
      (m = m0 \/
       exists e, In e es /\ coeff Dbl.zero S i (source e) = Fin m).
Proof.
  intros S i es. induction es as [|e es IH]; intros m0 Hnn.
  - exists m0. simpl. repeat split; [lra | intros e [] | left; reflexivity].
  - destruct (Hnn e (or_introl eq_refl)) as [r [Hr Hrpos]].
    simpl. rewrite Hr, gtb_Fin.
    destruct (Rlt_dec m0 r) as [Hlt|Hge].
    + destruct (IH r (fun e' H => Hnn e' (or_intror H)))
        as [m [Hm [Hle [Hub Hatt]]]].
      exists m. split; [exact Hm|]. split; [lra|]. split.
      * intros e' [<-|Hin]; [exists r; split; [assumption | lra]|].
        apply Hub. assumption.
      * right. destruct Hatt as [->|[e' [Hin He']]].
        -- exists e. split; [left; reflexivity | assumption].
        -- exists e'. split; [right; assumption | assumption].
    + destruct (IH m0 (fun e' H => Hnn e' (or_intror H)))
        as [m [Hm [Hle [Hub Hatt]]]].
      exists m. split; [exact Hm|]. split; [lra|]. split.
      * intros e' [<-|Hin]; [exists r; split; [assumption | lra]|].
        apply Hub. assumption.
      * destruct Hatt as [->|[e' [Hin He']]]; [left; reflexivity|].
        right. exists e'. split; [right; assumption | assumption].
Qed.

Lemma parents_T_max_spec :
  forall (S : MatrixXd) (i : nat) (v : Node) (g : Poset),
    (forall e, In e (in_edges v g) ->
               nonneg (coeff Dbl.zero S i (source e))) ->
    exists m : R,
      parents_T_max S i v g = Fin m /\ (0 <= m)%R /\
      max_over_parents g S i v m.
Proof.
  intros S i v g Hnn. unfold parents_T_max, Dbl.zero.
  destruct (fold_T_max_spec S i (in_edges v g) 0 Hnn)
    as [m [Hm [Hle [Hub Hatt]]]].
  exists m. split; [exact Hm|]. split; [exact Hle|].
  unfold max_over_parents. split; [exact Hub|]. split.
  - intros Hnil. rewrite Hnil in Hatt.
    destruct Hatt as [->|[e [[] _]]]. reflexivity.
  - intros Hne. destruct Hatt as [->|Hex]; [|exact Hex].
    destruct (in_edges v g) as [|e es] eqn:E; [congruence|].
    exists e. split; [left; reflexivity|].
    destruct (Hub e (or_introl eq_refl)) as [r [Hr Hr0]].
    destruct (Hnn e (or_introl eq_refl)) as [r' [Hr' Hr'0]].
    rewrite Hr in Hr'. inversion Hr'; subst r'.
    rewrite Hr. f_equal. lra.
Qed.

Lemma parents_T_max_ext :
  forall (S S' : MatrixXd) (i : nat) (v : Node) (g : Poset),
    (forall e, In e (in_edges v g) ->
               coeff Dbl.zero S' i (source e) =
               coeff Dbl.zero S i (source e)) ->
    parents_T_max S' i v g = parents_T_max S i v g.
Proof.
  intros S S' i v g. unfold parents_T_max.
  assert (H : forall (es : list Edge) (acc : double),
             (forall e, In e es ->
                        coeff Dbl.zero S' i (source e) =
                        coeff Dbl.zero S i (source e)) ->
             fold_left
               (fun T_max e =>
                  if Dbl.gtb (coeff Dbl.zero S' i (source e)) T_max
                  then coeff Dbl.zero S' i (source e) else T_max) es acc =
             fold_left
               (fun T_max e =>
                  if Dbl.gtb (coeff Dbl.zero S i (source e)) T_max
                  then coeff Dbl.zero S i (source e) else T_max) es acc).
  { induction es as [|e es IH]; intros acc H; simpl; [reflexivity|].
    rewrite (H e (or_introl eq_refl)). apply IH.
    intros e' He'. apply H. right. assumption. }
  apply H.
Qed.

Lemma max_over_parents_ext :
  forall (S S' : MatrixXd) (i : nat) (v : Node) (g : Poset) (m : R),
    (forall e, In e (in_edges v g) ->
               coeff Dbl.zero S' i (source e) =
               coeff Dbl.zero S i (source e)) ->
    max_over_parents g S i v m -> max_over_parents g S' i v m.
Proof.
  intros S S' i v g m H [Hub [Hnil Hatt]]. unfold max_over_parents.
  split; [|split].
  - intros e He. rewrite (H e He). apply Hub. assumption.
  - exact Hnil.
  - intros Hne. destruct (Hatt Hne) as [e [He Hm]].
    exists e. split; [assumption|]. rewrite (H e He). assumption.
Qed.

Lemma in_in_edges :
  forall (g : Poset) (v : Node) (e : Edge),
    In e (in_edges v g) <-> In e (edges g) /\ target e = v.
Proof.
  intros g v e. unfold in_edges. rewrite filter_In, Nat.eqb_eq. tauto.
Qed.

(** *** The loop over the samples *)

Section SampleLoop.

Context `{RT : Runtime}.

Variables (m : Model) (T_events : MatrixXd) (T_sampling : VectorXd)
          (N : nat).

(** The occurrence time line 166 stores for sample [i] and vertex [v]. *)
Let occurrence (S : MatrixXd) (i : nat) (v : Node) : double :=
  (coeff Dbl.zero T_events i v + parents_T_max S i v (poset m))%D.

Lemma sample_cell_spec :
  forall (v : Node) (S : MatrixXd) (obs : MatrixXb) (a : nat),
    v < size m -> a < N ->
    has_shape N (size m) S -> has_shape N (size m) obs ->
    let r := sample_cell m T_events T_sampling v (S, obs) a in
    has_shape N (size m) (fst r) /\ has_shape N (size m) (snd r) /\
    coeff Dbl.zero (fst r) a v = occurrence S a v /\
    coeff false (snd r) a v =
      (if Dbl.leb (occurrence S a v) (nth a T_sampling NaN)
       then true else coeff false obs a v) /\
    (forall i j, i <> a \/ j <> v ->
                 coeff Dbl.zero (fst r) i j = coeff Dbl.zero S i j /\
                 coeff false (snd r) i j = coeff false obs i j).
Proof.
  intros v S obs a Hv Ha HS Hobs r. subst r. unfold sample_cell.
  cbv beta iota zeta. fold (occurrence S a v).
  rewrite (coeff_set_coeff_eq _ N (size m)) by assumption.
  destruct (Dbl.leb (occurrence S a v) (nth a T_sampling NaN));
    cbn [fst snd];
    (split; [apply has_shape_set_coeff; assumption|]).
  - split; [apply has_shape_set_coeff; assumption|].
    split; [apply (coeff_set_coeff_eq _ N (size m)); assumption|].
    split; [apply (coeff_set_coeff_eq _ N (size m)); assumption|].
    intros i j Hij. split; apply coeff_set_coeff_neq; assumption.
  - split; [assumption|].
    split; [apply (coeff_set_coeff_eq _ N (size m)); assumption|].
    split; [reflexivity|].
    intros i j Hij. split; [apply coeff_set_coeff_neq; assumption|].
    reflexivity.
Qed.

Lemma sample_rows_spec :
  forall (v : Node),
    v < size m ->
    forall (k a : nat) (S : MatrixXd) (obs : MatrixXb),
      a + k <= N ->
      has_shape N (size m) S -> has_shape N (size m) obs ->
      let r := fold_left (sample_cell m T_events T_sampling v) (seq a k)
                         (S, obs) in
      has_shape N (size m) (fst r) /\ has_shape N (size m) (snd r) /\
      (forall i, a <= i < a + k ->
         coeff Dbl.zero (fst r) i v = occurrence S i v /\
         coeff false (snd r) i v =
           (if Dbl.leb (occurrence S i v) (nth i T_sampling NaN)
            then true else coeff false obs i v)) /\
      (forall i j, ~ (a <= i < a + k /\ j = v) ->
         coeff Dbl.zero (fst r) i j = coeff Dbl.zero S i j /\
         coeff false (snd r) i j = coeff false obs i j).
Proof.
  intros v Hv. induction k as [|k IH]; intros a S obs Hak HS Hobs r.
  - subst r. simpl. split; [assumption|]. split; [assumption|].
    split; [intros i Hi; lia | intros; split; reflexivity].
  - subst r. cbn [seq fold_left].
    destruct (sample_cell_spec v S obs a Hv ltac:(lia) HS Hobs)
      as [HS1 [Hobs1 [Hs [Ho Hrest]]]].
    destruct (sample_cell m T_events T_sampling v (S, obs) a) as [S1 obs1].
    cbn [fst snd] in *.
    destruct (IH (Datatypes.S a) S1 obs1 ltac:(lia) HS1 Hobs1)
      as [HS2 [Hobs2 [Hin Hout]]].
    split; [assumption|]. split; [assumption|]. split.
    + intros i Hi. destruct (Nat.eq_dec i a) as [->|Hne].
      * destruct (Hout a v ltac:(lia)) as [-> ->]. split; assumption.
      * destruct (Hin i ltac:(lia)) as [H1 H2].
        assert (Hocc : occurrence S1 i v = occurrence S i v).
        { unfold occurrence. f_equal. apply parents_T_max_ext.
          intros e _. apply Hrest. left. assumption. }
        rewrite Hocc in H1, H2. split; [assumption|].
        rewrite H2. destruct (Hrest i v (or_introl Hne)) as [_ ->].
        reflexivity.
    + intros i j Hij. destruct (Hout i j ltac:(lia)) as [-> ->].
      apply Hrest. destruct (Nat.eq_dec i a), (Nat.eq_dec j v); subst;
        try (left; assumption); try (right; assumption).
      exfalso. apply Hij. lia.
Qed.

End SampleLoop.

(** *** The loop over the vertices *)

Section VertexLoop.

Context `{RT : Runtime}.

Variables (m : Model) (T_events : MatrixXd) (T_sampling : VectorXd)
          (N : nat).

Hypothesis T_events_nonneg :
  forall i j, i < N -> j < size m -> nonneg (coeff Dbl.zero T_events i j).

Let visit (st : MatrixXd * MatrixXb) (v : Node) : MatrixXd * MatrixXb :=
  fold_left (sample_cell m T_events T_sampling v) (seq 0 N) st.

Let ok := occurrence_ok (poset m) T_events.

Lemma occurrence_ok_ext :
  forall (S S' : MatrixXd) (obs obs' : MatrixXb) (i : nat) (v : Node),
    coeff Dbl.zero S' i v = coeff Dbl.zero S i v ->
    coeff false obs' i v = coeff false obs i v ->
    (forall e, In e (in_edges v (poset m)) ->
               coeff Dbl.zero S' i (source e) =
               coeff Dbl.zero S i (source e)) ->
    ok S T_sampling obs i v -> ok S' T_sampling obs' i v.
Proof.
  intros S S' obs obs' i v HS Hobs Hpar [s [t [mx H]]].
  destruct H as [Hs [Ht [Ht0 [Hm0 [Hst [Hmax Ho]]]]]].
  exists s, t, mx. rewrite HS, Hobs.
  repeat (split; [assumption|]). split; [|assumption].
  apply max_over_parents_ext with S; assumption.
Qed.

Lemma visit_invariant :
  forall (todo done : list Node) (S : MatrixXd) (obs : MatrixXb),
    NoDup todo ->
    (forall v, In v todo -> ~ In v done) ->
    (forall v, In v todo -> v < size m) ->
    parents_first (edges (poset m)) done todo ->
    (forall u v, In v done -> In (u, v) (edges (poset m)) -> In u done) ->
    has_shape N (size m) S -> has_shape N (size m) obs ->
    (forall i v, i < N -> In v done -> ok S T_sampling obs i v) ->
    (forall i v, i < N -> ~ In v done ->
                 coeff Dbl.zero S i v = Dbl.zero /\
                 coeff false obs i v = false) ->
    let r := fold_left visit todo (S, obs) in
    has_shape N (size m) (fst r) /\ has_shape N (size m) (snd r) /\
    forall i v, i < N -> In v done \/ In v todo ->
                ok (fst r) T_sampling (snd r) i v.
Proof.
  induction todo as [|v todo IH];
    intros done S obs Hnd Hfresh Hrange Hpf Hclosed HS Hobs Hok Hzero r.
  - subst r. simpl. split; [assumption|]. split; [assumption|].
    intros i v Hi [Hv|[]]. apply Hok; assumption.
  - subst r. cbn [fold_left].
    change (visit (S, obs) v)
      with (fold_left (sample_cell m T_events T_sampling v) (seq 0 N)
                      (S, obs)).
    assert (Hv : v < size m) by (apply Hrange; left; reflexivity).
    destruct (sample_rows_spec m T_events T_sampling N v Hv N 0 S obs
                               ltac:(lia) HS Hobs)
      as [HS1 [Hobs1 [Hin Hout]]].
    destruct (fold_left (sample_cell m T_events T_sampling v) (seq 0 N)
                        (S, obs)) as [S1 obs1].
    cbn [fst snd] in *.
    destruct Hpf as [Hparents Hpf].
    inversion Hnd as [|? ? Hvtodo Hnd']; subst.
    assert (Hvdone : ~ In v done) by (apply Hfresh; left; reflexivity).
    assert (Hpar_ne : forall e, In e (in_edges v (poset m)) ->
                                In (source e) done).
    { intros [a b] He. apply in_in_edges in He. destruct He as [He Hb].
      unfold target in Hb. simpl in *. subst b. apply Hparents. assumption. }
    assert (Hsame : forall i j, j <> v ->
                      coeff Dbl.zero S1 i j = coeff Dbl.zero S i j /\
                      coeff false obs1 i j = coeff false obs i j).
    { intros i j Hj. apply Hout. intros [_ Heq]. congruence. }
    destruct (IH (v :: done) S1 obs1) as [HS2 [Hobs2 Hfin]];
      try assumption.
    + intros x Hx [<-|Hd]; [contradiction|].
      apply (Hfresh x); [right; assumption | assumption].
    + intros x Hx. apply Hrange. right. assumption.
    + intros u x [<-|Hx] He; [right; apply Hparents; assumption|].
      right. apply Hclosed with x; assumption.
    + intros i x Hi [<-|Hx].
      * (* the vertex just visited *)
        destruct (Hin i ltac:(lia)) as [Hocc Hbit].
        destruct (parents_T_max_spec S i v (poset m)) as [mx [Hmx [Hmx0 Hmax]]].
        { intros e He. destruct (Hok i (source e) Hi (Hpar_ne e He))
            as [s [t [m0 H]]].
          destruct H as [Hs [_ [Ht0 [Hm0 [Hst _]]]]].
          exists s. split; [assumption | lra]. }
        destruct (T_events_nonneg i v Hi Hv) as [t [Ht Ht0]].
        rewrite Hmx, Ht in Hocc, Hbit.
        change (Fin t + Fin mx)%D with (Fin (t + mx)) in Hocc, Hbit.
        exists (t + mx)%R, t, mx.
        split; [assumption|]. split; [assumption|].
        split; [assumption|]. split; [assumption|].
        split; [reflexivity|]. split.
        -- apply max_over_parents_ext with S; [|assumption].
           intros e He. apply Hsame. intros Heq.
           apply Hvdone. rewrite <- Heq. apply Hpar_ne. assumption.
        -- rewrite Hbit. destruct (Hzero i v Hi Hvdone) as [_ ->].
           destruct (Dbl.leb (Fin (t + mx)) (nth i T_sampling NaN));
             reflexivity.
      * (* a vertex visited before *)
        assert (Hxv : x <> v) by congruence.
        apply occurrence_ok_ext with S obs.
        -- apply Hsame. assumption.
        -- apply Hsame. assumption.
        -- intros [a b] He. apply Hsame. intros Hsrc.
           apply in_in_edges in He. destruct He as [He Hb].
           unfold source, target in *. simpl in *. subst a b.
           apply Hvdone. apply Hclosed with x; assumption.
        -- apply Hok; assumption.
    + intros i x Hi Hx.
      assert (Hxv : x <> v) by (intros ->; apply Hx; left; reflexivity).
      destruct (Hsame i x Hxv) as [-> ->]. apply Hzero; [assumption|].
      intros Hd. apply Hx. right. assumption.
    + split; [assumption|]. split; [assumption|].
      intros i x Hi Hx. apply Hfin; [assumption|].
      destruct Hx as [Hx|[<-|Hx]].
      * left. right. assumption.
      * left. left. reflexivity.
      * right. assumption.
Qed.

End VertexLoop.

(** *** The simulator *)

Lemma coeff_repeat_any :
  forall (A : Type) (N p : nat) (x : A) (i j : nat),
    i < N -> coeff x (repeat (repeat x p) N) i j = x.
Proof.
  intros A N p x i j Hi. unfold coeff.
  rewrite nth_repeat_lt by assumption. apply nth_repeat.
Qed.

(** The recurrence of the simulator on a model whose [topo_path] lists
    the events parents first when read from the back, and whose rates are
    positive. *)
Lemma sample_genotypes_recurrence :
  forall `{RT : Runtime} (N : nat) (model : Model) (T_events : MatrixXd)
         (T_sampling : VectorXd) (rng : rng_type)
         (sampling_times_available : bool),
    topo_path_ok model -> rates_ok model ->
    has_shape N (size model) T_events ->
    let sim := sample_genotypes N model T_events T_sampling rng
                                sampling_times_available in
    (sampling_times_available = true -> sim_T_sampling sim = T_sampling) /\
    forall i v, i < N -> v < size model ->
      occurrence_ok (poset model) (sim_T_events sim) (sim_T_events_sum sim)
                    (sim_T_sampling sim) (sim_obs sim) i v /\
      forall u, In (u, v) (edges (poset model)) ->
        exists su sv : R,
          coeff Dbl.zero (sim_T_events_sum sim) i u = Fin su /\
          coeff Dbl.zero (sim_T_events_sum sim) i v = Fin sv /\
          (su <= sv)%R.
Proof.
  intros RT N model T_events T_sampling g avail [Hnd [Hcover Hpf]] Hrates HT sim.
  subst sim. unfold sample_genotypes.
  destruct (draw_T_events_spec N model T_events g Hrates HT) as [HT1 Hnn].
  destruct (draw_T_events N model T_events g) as [T1 g1]. cbn [fst] in *.
  set (Ts := if negb avail then rexp_std N (get_lambda_s model) g1
             else (T_sampling, g1)).
  assert (HTs : avail = true -> fst Ts = T_sampling).
  { intros ->. reflexivity. }
  destruct Ts as [Ts1 g2]. cbn [fst] in HTs.
  pose proof (visit_invariant model T1 Ts1 N Hnn (rev (topo_path model)) []
                (repeat (repeat Dbl.zero (size model)) N)
                (repeat (repeat false (size model)) N)) as Hinv.
  unfold sample_loop.
  destruct (fold_left _ (rev (topo_path model)) _) as [S obs].
  cbn [fst snd sim_obs sim_T_events sim_T_sampling sim_T_events_sum] in *.
  split; [exact HTs|].
  destruct Hinv as [_ [_ Hok]].
  - apply NoDup_rev. assumption.
  - intros v _ [].
  - intros v Hv. apply Hcover. apply in_rev. assumption.
  - assumption.
  - intros u v [].
  - apply has_shape_repeat.
  - apply has_shape_repeat.
  - intros i v _ [].
  - intros i v Hi _. split; apply coeff_repeat_any; assumption.
  - intros i v Hi Hv.
    assert (Hv_ok : occurrence_ok (poset model) T1 S Ts1 obs i v).
    { apply Hok; [assumption|]. right. apply in_rev.
      rewrite rev_involutive. apply Hcover. assumption. }
    split; [exact Hv_ok|].
    intros u Hu. destruct Hv_ok as [s [t [mx H]]].
    destruct H as [Hs [Ht [Ht0 [Hm0 [Hst [[Hub _] _]]]]]].
    destruct (Hub (u, v)) as [r [Hr Hle]].
    { apply in_in_edges. split; [assumption | reflexivity]. }
    exists r, s. split; [exact Hr|]. split; [exact Hs | lra].
Qed.

Section EntryModel.

Context `{RT : Runtime}.

(** The model an entry point builds from an adjacency matrix without a
    directed cycle and from one positive rate per event is fit for the
    simulator. *)
Lemma entry_model_ok :
  forall (poset0 : MatrixXi) (lambda_s : double) (lambda : VectorXd)
         (m : Model),
    poset m = poset (build_model poset0 lambda_s) ->
    size m = length poset0 ->
    get_lambda m = lambda ->
    ~ has_directed_cycle poset0 ->
    length lambda = length poset0 -> Forall positive lambda ->
    cycle (has_cycles m) = false /\
    topo_path_ok (topological_sort (has_cycles m)) /\
    rates_ok (topological_sort (has_cycles m)).
Proof.
  intros poset0 lambda_s lambda m Hm Hsize Hlam Hacyc Hlen Hpos.
  assert (Hc : cycle (has_cycles m) = false)
    by (apply (has_cycles_acyclic poset0 lambda_s); assumption).
  split; [exact Hc|]. split.
  - apply topological_sort_ok; [| |exact Hc].
    + intros u v He. rewrite Hm in *.
      apply in_edges_build_model in He. simpl. apply He.
    + rewrite Hm, Hsize. reflexivity.
  - unfold rates_ok, topological_sort, has_cycles, size, get_lambda in *.
    simpl. rewrite Hlam, Hsize. split; assumption.
Qed.

End EntryModel.



(** ** The importance sampler *)

(** C1, as the code has it.  For the proposal "add-remove"
    [importance_weight] returns the record as [DataImportanceSampling(L, p)]
    constructed it, no coefficient assigned and no random number drawn;
    no error is raised.  [_importance_weight_genotype] hands that record
    to its caller, unless the poset has a cycle. *)
Theorem importance_weight_add_remove :
  forall `{RT : Runtime},
    (forall genotype L model time version rng0 sampling_times_available,
        importance_weight genotype L model time "add-remove" version rng0
                          sampling_times_available =
        (DataImportanceSampling_new L (size model), rng0)) /\
    (forall genotype L poset0 lambda eps time version lambda_s
            sampling_times_available seed,
        _importance_weight_genotype genotype L poset0 lambda eps time
                                    "add-remove" version lambda_s
                                    sampling_times_available seed =
        if cycle (has_cycles
                    (set_epsilon
                       (set_lambda (build_model poset0 lambda_s) lambda)
                       eps))
        then Error NotAcyclic
        else Ok (DataImportanceSampling_new L (length poset0))).
Proof.
  intros RT. split.
  - intros. reflexivity.
  - intros. unfold _importance_weight_genotype.
    destruct (cycle _); reflexivity.
Qed.

(** C1 as stated fails: on the poset without edges over one event
    [_importance_weight_genotype] answers the proposal "add-remove" with a
    record, not with [NotImplemented]. *)
Lemma importance_weight_add_remove_counterexample :
  @_importance_weight_genotype counter_runtime [true] 2 [[0%Z]] [Fin 1]
                               (Fin 0) (Fin 1) "add-remove" 0 (Fin 1)
                               false 42%Z
  = Ok (@DataImportanceSampling_new counter_runtime 2 1) /\
  @_importance_weight_genotype counter_runtime [true] 2 [[0%Z]] [Fin 1]
                               (Fin 0) (Fin 1) "add-remove" 0 (Fin 1)
                               false 42%Z
  <> Error NotImplemented.
Proof.
  split; [reflexivity | discriminate].
Qed.

Lemma fold_left_invariant :
  forall {A B : Type} (P : A -> Prop) (Q : B -> Prop) (f : A -> B -> A)
         (l : list B) (a : A),
    (forall a b, P a -> Q b -> P (f a b)) ->
    Forall Q l -> P a -> P (fold_left f l a).
Proof.
  intros A B P Q f l. induction l as [|b l IH]; intros a Hf Hl Ha; simpl;
    [assumption|].
  inversion Hl; subst. apply IH; auto.
Qed.

Section SamplerProperties.

Context `{RT : Runtime}.

Lemma sample_loop_shape :
  forall (N : nat) (model : Model) (T_events : MatrixXd)
         (T_sampling : VectorXd),
    has_shape N (size model)
              (fst (sample_loop N model T_events T_sampling)) /\
    has_shape N (size model)
              (snd (sample_loop N model T_events T_sampling)).
Proof.
  intros N model T_events T_sampling. unfold sample_loop.
  apply (fold_left_invariant
           (fun st : MatrixXd * MatrixXb =>
              has_shape N (size model) (fst st) /\
              has_shape N (size model) (snd st))
           (fun _ : Node => True)).
  - intros st v Hst _.
    apply (fold_left_invariant
             (fun st : MatrixXd * MatrixXb =>
                has_shape N (size model) (fst st) /\
                has_shape N (size model) (snd st))
             (fun i : nat => i < N)).
    + intros [S obs] i [HS Hobs] Hi. unfold sample_cell. cbn [fst snd] in *.
      split; [apply has_shape_set_coeff; assumption|].
      destruct (Dbl.leb _ _);
        [apply has_shape_set_coeff; assumption | assumption].
    + apply Forall_forall. intros i Hi. apply in_seq in Hi. lia.
    + assumption.
  - apply Forall_forall. intros; exact I.
  - split; apply has_shape_repeat.
Qed.

Lemma sample_genotypes_shape :
  forall (N : nat) (model : Model) (T_events : MatrixXd)
         (T_sampling : VectorXd) (g : rng_type) (avail : bool),
    has_shape N (size model)
              (sim_obs (sample_genotypes N model T_events T_sampling g avail)).
Proof.
  intros N model T_events T_sampling g avail. unfold sample_genotypes.
  destruct (draw_T_events N model T_events g) as [T1 g1].
  destruct (if negb avail then _ else _) as [Ts g2].
  pose proof (sample_loop_shape N model T1 Ts) as [_ H].
  destruct (sample_loop N model T1 Ts) as [S obs]. exact H.
Qed.

Lemma sample_genotypes_supplied_times :
  forall (N : nat) (model : Model) (T_events : MatrixXd)
         (T_sampling : VectorXd) (g : rng_type),
    sim_T_sampling (sample_genotypes N model T_events T_sampling g true) =
    T_sampling.
Proof.
  intros N model T_events T_sampling g. unfold sample_genotypes.
  destruct (draw_T_events N model T_events g) as [T1 g1]. simpl.
  destruct (sample_loop N model T1 T_sampling) as [S obs]. reflexivity.
Qed.

End SamplerProperties.

Lemma nth_map_lt :
  forall (A B : Type) (f : A -> B) (l : list A) (i : nat) (d : B) (d' : A),
    i < length l -> nth i (map f l) d = f (nth i l d').
Proof.
  intros A B f l. induction l as [|x l IH]; intros [|i] d d' Hi; simpl in *;
    try lia; [reflexivity | apply IH; lia].
Qed.

Lemma length_filter_map :
  forall (A B : Type) (f : B -> bool) (g : A -> B) (l : list A),
    length (filter f (map g l)) = length (filter (fun x => f (g x)) l).
Proof.
  intros A B f g. induction l as [|x l IH]; simpl; [reflexivity|].
  destruct (f (g x)); simpl; rewrite IH; reflexivity.
Qed.

(** Counting the differing coefficients of two rows of [p] events gives
    their Hamming distance. *)
Lemma count_differ_Hamming :
  forall (a b : list bool) (p : nat),
    length a = p -> length b = p ->
    length (filter (fun x : bool => x)
                   (zip_with (fun x y => negb (Bool.eqb x y)) a b)) =
    Hamming p a b.
Proof.
  induction a as [|x a IH]; intros [|y b] p Ha Hb; simpl in *; subst p;
    try discriminate; [reflexivity|].
  unfold Hamming. rewrite <- cons_seq, <- seq_shift. simpl.
  specialize (IH b (length a) eq_refl ltac:(lia)). unfold Hamming in IH.
  destruct (negb (Bool.eqb x y)); simpl; rewrite length_filter_map, IH;
    reflexivity.
Qed.

Lemma length_hamming_dist_mat :
  forall (x : MatrixXb) (y : RowVectorXb),
    length (hamming_dist_mat x y) = length x.
Proof.
  intros x y. unfold hamming_dist_mat.
  rewrite length_map, length_zip_with, repeat_length. lia.
Qed.

Lemma nth_hamming_dist_mat :
  forall (N p : nat) (x : MatrixXb) (y : RowVectorXb) (l : nat),
    has_shape N p x -> length y = p -> l < N ->
    nth l (hamming_dist_mat x y) 0 = Hamming p (nth l x []) y.
Proof.
  intros N p x y l [HN HF] Hy Hl. unfold hamming_dist_mat.
  rewrite (nth_map_lt _ _ _ _ _ 0 [])
    by (rewrite length_zip_with, repeat_length; lia).
  rewrite (nth_zip_with _ _ _ _ x (repeat y (length x)) l [] [] [])
    by (rewrite ?repeat_length; lia).
  rewrite nth_repeat_lt by lia.
  apply count_differ_Hamming; [|assumption].
  apply has_shape_row with N; [split; assumption | assumption].
Qed.

Lemma Hamming_le :
  forall (p : nat) (a b : list bool), Hamming p a b <= p.
Proof.
  intros p a b. unfold Hamming.
  eapply Nat.le_trans; [apply filter_length_le|].
  rewrite length_seq. apply Nat.le_refl.
Qed.

Lemma pow_Fin : forall (e : R) (n : nat), Dbl.pow (Fin e) n = Fin (e ^ n).
Proof.
  intros e [|n]; reflexivity.
Qed.

Lemma bernoulli_weight_Fin :
  forall (e : R) (p d : nat),
    bernoulli_weight (Fin e) p d = Fin (e ^ d * (1 - e) ^ (p - d)).
Proof.
  intros e p d. unfold bernoulli_weight.
  change (Dbl.one - Fin e)%D with (Fin (1 + - e)).
  rewrite !pow_Fin. reflexivity.
Qed.

(** C9.  For the proposal "forward" [importance_weight] runs the
    simulator once for [L] samples, with [T_sampling] filled with the
    supplied time when sampling times are available; the record it
    returns holds, for every [l < L], the Hamming distance [d_l] between
    the [l]-th simulated genotype and the observed one, the weight
    [eps^d_l * (1 - eps)^(p - d_l)], and the waiting times of the
    simulator. *)
Theorem importance_weight_forward_weights :
  forall `{RT : Runtime} (genotype : RowVectorXb) (L : nat) (model : Model)
         (time : double) (version : nat) (rng0 : rng_type)
         (sampling_times_available : bool),
    length genotype = size model ->
    let p := size model in
    let T_sampling :=
      if sampling_times_available then repeat time L
      else repeat uninit_double L in
    let sim :=
      sample_genotypes L model (repeat (repeat uninit_double p) L)
                       T_sampling rng0 sampling_times_available in
    let r := importance_weight genotype L model time "forward" version rng0
                               sampling_times_available in
    snd r = sim_rng sim /\
    Tdiff (fst r) = sim_T_events sim /\
    length (dist (fst r)) = L /\
    length (w (fst r)) = L /\
    (sampling_times_available = true ->
     sim_T_sampling sim = repeat time L) /\
    forall l, l < L ->
      let d := nth l (dist (fst r)) 0 in
      d = Hamming p (nth l (sim_obs sim) []) genotype /\
      d <= p /\
      nth l (w (fst r)) NaN =
        (Dbl.pow (get_epsilon model) d *
         Dbl.pow (Dbl.one - get_epsilon model) (p - d))%D /\
      forall e : R,
        get_epsilon model = Fin e ->
        nth l (w (fst r)) NaN = Fin (e ^ d * (1 - e) ^ (p - d)).
Proof.
  intros RT genotype L model time version rng0 avail Hg p T_sampling sim r.
  assert (Hr : r = ({| w := map (bernoulli_weight (get_epsilon model) p)
                               (hamming_dist_mat (sim_obs sim) genotype);
                       dist := hamming_dist_mat (sim_obs sim) genotype;
                       Tdiff := sim_T_events sim |}, sim_rng sim))
    by reflexivity.
  pose proof (sample_genotypes_shape L model
                (repeat (repeat uninit_double p) L) T_sampling rng0 avail)
    as Hshape.
  fold sim in Hshape. fold p in Hshape.
  assert (Hlen : length (hamming_dist_mat (sim_obs sim) genotype) = L).
  { rewrite length_hamming_dist_mat. apply Hshape. }
  rewrite Hr. cbn [fst snd w dist Tdiff].
  split; [reflexivity|]. split; [reflexivity|]. split; [exact Hlen|].
  split; [rewrite length_map; exact Hlen|]. split.
  - intros ->. apply sample_genotypes_supplied_times.
  - intros l Hl.
    set (d := nth l (hamming_dist_mat (sim_obs sim) genotype) 0).
    assert (Hd : d = Hamming p (nth l (sim_obs sim) []) genotype).
    { subst d. apply nth_hamming_dist_mat with L; assumption. }
    split; [exact Hd|]. split; [rewrite Hd; apply Hamming_le|].
    assert (Hw : nth l (map (bernoulli_weight (get_epsilon model) p)
                            (hamming_dist_mat (sim_obs sim) genotype)) NaN =
                 bernoulli_weight (get_epsilon model) p d).
    { subst d. apply nth_map_lt. lia. }
    split; [exact Hw|].
    intros e He. rewrite Hw, He. apply bernoulli_weight_Fin.
Qed.

(** Two forward samples for the observation [1] of one event, at the
    supplied sampling time 3 and the error rate 1/4. *)
Lemma importance_weight_forward_weights_witness :
  let model :=
    set_epsilon
      (set_lambda (@build_model counter_runtime [[0%Z]] (Fin 1)) [Fin 1])
      (Fin (/ 4)) in
  let sim :=
    @sample_genotypes counter_runtime 2 model
                      (repeat (repeat (Fin 0) 1) 2) (repeat (Fin 3) 2) 0
                      true in
  let r := @importance_weight counter_runtime [true] 2 model (Fin 3)
                              "forward" 0 0 true in
  length [true] = size model /\
  sim_T_sampling sim = [Fin 3; Fin 3] /\
  forall l, l < 2 ->
    let d := nth l (dist (fst r)) 0 in
    d = Hamming 1 (nth l (sim_obs sim) []) [true] /\
    nth l (w (fst r)) NaN = Fin ((/ 4) ^ d * (1 - / 4) ^ (1 - d)).
Proof.
  intros model sim r.
  destruct (@importance_weight_forward_weights
              counter_runtime [true] 2 model (Fin 3) 0 0 true eq_refl)
    as [_ [_ [_ [_ [Ht H]]]]].
  split; [reflexivity|]. split; [exact (Ht eq_refl)|].
  intros l Hl d. destruct (H l Hl) as [Hd [_ [_ Hw]]].
  split; [exact Hd | exact (Hw (/ 4)%R eq_refl)].
Defined.

Lemma Rsum_nonneg :
  forall l : list R, Forall (fun x => 0 <= x)%R l -> (0 <= Rsum l)%R.
Proof.
  induction l as [|x l IH]; intros H; simpl; [lra|].
  inversion H; subst. specialize (IH ltac:(assumption)). lra.
Qed.

Lemma Rsum_zero_all_zero :
  forall l : list R,
    Forall (fun x => 0 <= x)%R l ->
    (Rsum l = 0%R <-> Forall (fun x => x = 0%R) l).
Proof.
  induction l as [|x l IH]; intros H; simpl.
  - split; [constructor | reflexivity].
  - inversion H as [|? ? Hx Hl]; subst.
    pose proof (Rsum_nonneg l Hl) as Hs. specialize (IH Hl). split.
    + intros Hsum. constructor; [lra|]. apply IH. lra.
    + intros Hall. inversion Hall; subst.
      apply IH in H3. rewrite H3. lra.
Qed.

Lemma eqb_Fin_zero :
  forall x : R, Dbl.eqb (Fin x) Dbl.zero = true <-> x = 0%R.
Proof.
  intros x. unfold Dbl.eqb, Dbl.zero.
  destruct (Req_dec_T x 0); split; intros; try assumption;
    try reflexivity; try discriminate; contradiction.
Qed.

Lemma vsum_repeat_one :
  forall K : nat, vsum (repeat Dbl.one K) = Dbl.of_nat K.
Proof.
  induction K as [|K IH]; [reflexivity|].
  change (vsum (repeat Dbl.one (S K))) with
    (Dbl.one + vsum (repeat Dbl.one K))%D.
  rewrite IH. unfold Dbl.of_nat, Dbl.one. rewrite S_INR.
  change (Fin 1 + Fin (INR K))%D with (Fin (1 + INR K)).
  f_equal. lra.
Qed.

Lemma bernoulli_weight_nonneg :
  forall (e : R) (p d : nat),
    (0 <= e <= 1)%R -> (0 <= e ^ d * (1 - e) ^ (p - d))%R.
Proof.
  intros e p d He. apply Rmult_le_pos; apply pow_le; lra.
Qed.

(** For an error rate in [0, 1] the pool weights sum to zero exactly when
    each of them is zero. *)
Lemma pool_weights_sum_zero :
  forall (e : R) (p : nat) (dist_pool : VectorXi),
    (0 <= e <= 1)%R ->
    (Dbl.eqb (vsum (map (bernoulli_weight (Fin e) p) dist_pool)) Dbl.zero
     = true <->
     Forall (fun x => x = Dbl.zero)
            (map (bernoulli_weight (Fin e) p) dist_pool)).
Proof.
  intros e p dist_pool He.
  assert (Hq : map (bernoulli_weight (Fin e) p) dist_pool =
               map Fin (map (fun d => e ^ d * (1 - e) ^ (p - d))%R
                            dist_pool)).
  { rewrite map_map. apply map_ext. intros d. apply bernoulli_weight_Fin. }
  rewrite Hq, vsum_Fin, eqb_Fin_zero.
  rewrite Rsum_zero_all_zero.
  - rewrite !Forall_map. unfold Dbl.zero.
    split; intros H; eapply Forall_impl; try exact H; simpl.
    + intros d ->. reflexivity.
    + intros d Hd. inversion Hd. reflexivity.
  - rewrite Forall_map. apply Forall_forall. intros d _.
    apply bernoulli_weight_nonneg. assumption.
Qed.

Lemma length_log_bernoulli_process :
  forall (dist0 : VectorXd) (eps : double) (p : nat),
    length (log_bernoulli_process dist0 eps p) = length dist0.
Proof.
  intros dist0 eps p. unfold log_bernoulli_process.
  destruct (Dbl.eqb eps Dbl.zero); apply length_map.
Qed.

(** The record the branch "rejection" builds, once the pool size
    [K = p * L] fits an [unsigned int]. *)
Lemma rejection_record :
  forall `{RT : Runtime} (genotype : RowVectorXb) (L : nat) (model : Model)
         (time : double) (version : nat) (rng0 : rng_type)
         (sampling_times_available : bool),
    (Z.of_nat (size model) * Z.of_nat L < 2 ^ 32)%Z ->
    let p := size model in
    let K := p * L in
    let T_sampling :=
      if sampling_times_available then repeat time K
      else repeat uninit_double K in
    let sim :=
      sample_genotypes K model (repeat (repeat uninit_double p) K)
                       T_sampling rng0 sampling_times_available in
    let dist_pool := hamming_dist_mat (sim_obs sim) genotype in
    let q := map (bernoulli_weight (get_epsilon model) p) dist_pool in
    let random := Dbl.eqb (vsum q) Dbl.zero in
    let idxs :=
      fst (rdiscrete_std
             L (if random then repeat (Dbl.one / Dbl.of_nat K)%D K
                else map (fun x => x / vsum q)%D q)
             (sim_rng sim)) in
    let dist' := map (fun idx => nth idx dist_pool uninit_int) idxs in
    length dist_pool = K /\
    length idxs = L /\
    fst (importance_weight genotype L model time "rejection" version rng0
                           sampling_times_available) =
    {| w := if random
            then map Dbl.exp
                     (log_bernoulli_process (cast_double dist')
                                            (get_epsilon model) p)
            else repeat (vsum q / Dbl.of_nat K)%D L;
       dist := dist';
       Tdiff := map (fun idx => nth idx (sim_T_events sim) []) idxs |}.
Proof.
  intros RT genotype L model time version rng0 avail HK
         p K T_sampling sim dist_pool q random idxs dist'.
  assert (HK' : Z.to_nat (wrap32 (Z.of_nat p * Z.of_nat L)) = K).
  { unfold wrap32. rewrite Z.mod_small by (subst p; lia).
    subst K. lia. }
  assert (Hpool : length dist_pool = K).
  { subst dist_pool. rewrite length_hamming_dist_mat.
    apply (sample_genotypes_shape K model). }
  assert (Hq : length q = K) by (subst q; rewrite length_map; exact Hpool).
  split; [exact Hpool|].
  split; [subst idxs; apply rdiscrete_std_length|].
  change (importance_weight genotype L model time "rejection" version rng0
                            avail)
    with (importance_weight_rejection genotype L model time rng0 avail).
  unfold importance_weight_rejection.
  fold p. rewrite HK'.
  fold T_sampling. fold sim. fold dist_pool. fold q. fold random.
  rewrite Hq, Hpool. subst idxs dist'.
  destruct random.
  - rewrite vsum_repeat_one, map_repeat.
    destruct (rdiscrete_std L (repeat (Dbl.one / Dbl.of_nat K)%D K)
                            (sim_rng sim)) as [idxs g1].
    reflexivity.
  - destruct (rdiscrete_std L (map (fun x => x / vsum q)%D q)
                            (sim_rng sim)) as [idxs g1].
    reflexivity.
Qed.

(** The distances the branch "rejection" returns are distances of the
    pool: the indices drawn fall inside the pool, so each returned
    distance is a Hamming distance over the [p] events. *)
Lemma rejection_distances :
  forall `{RT : Runtime} (genotype : RowVectorXb) (L : nat) (model : Model)
         (time : double) (version : nat) (rng0 : rng_type)
         (sampling_times_available : bool),
    (Z.of_nat (size model) * Z.of_nat L < 2 ^ 32)%Z ->
    0 < size model -> length genotype = size model ->
    Forall (fun d => d <= size model)
           (dist (fst (importance_weight genotype L model time "rejection"
                                         version rng0
                                         sampling_times_available))).
Proof.
  intros RT genotype L model time version rng0 avail HK Hp Hg.
  destruct (rejection_record genotype L model time version rng0 avail HK)
    as [Hpool [Hidxs ->]].
  cbn [dist].
  destruct L as [|L']; [simpl; constructor|].
  set (K := size model * S L') in *.
  set (sim := sample_genotypes K model _ _ rng0 avail) in *.
  set (ws := if Dbl.eqb _ _ then _ else _) in *.
  assert (Hws : length ws = K).
  { subst ws. destruct (Dbl.eqb _ _);
      [apply repeat_length | rewrite !length_map; exact Hpool]. }
  assert (Hne : ws <> []).
  { intros Hnil. rewrite Hnil in Hws. simpl in Hws. subst K. nia. }
  pose proof (rdiscrete_std_range (S L') ws (sim_rng sim) Hne) as Hrange.
  rewrite Forall_map. eapply Forall_impl; [|exact Hrange].
  intros idx Hidx. simpl. rewrite Hws in Hidx.
  rewrite (nth_indep _ uninit_int 0) by (rewrite Hpool; exact Hidx).
  rewrite (nth_hamming_dist_mat K (size model)); try assumption.
  - apply Hamming_le.
  - apply sample_genotypes_shape.
Qed.

(** C4.  For the proposal "rejection", an error rate in [0, 1] and a pool
    size [K = p * L] that fits an [unsigned int], [importance_weight]
    simulates [K] candidates.  When every pool weight is zero it draws the
    [L] indices with the uniform probabilities [1 / K] and returns the
    weights [exp (log_bernoulli_process (dist, eps, p))]; otherwise it
    draws them with the probabilities [q / Q] and every returned weight is
    [Q / K], [Q] being the sum of the pool weights. *)
Theorem importance_weight_rejection_weights :
  forall `{RT : Runtime} (genotype : RowVectorXb) (L : nat) (model : Model)
         (time : double) (version : nat) (rng0 : rng_type)
         (sampling_times_available : bool) (e : R),
    get_epsilon model = Fin e -> (0 <= e <= 1)%R ->
    (Z.of_nat (size model) * Z.of_nat L < 2 ^ 32)%Z ->
    let p := size model in
    let K := p * L in
    let T_sampling :=
      if sampling_times_available then repeat time K
      else repeat uninit_double K in
    let sim :=
      sample_genotypes K model (repeat (repeat uninit_double p) K)
                       T_sampling rng0 sampling_times_available in
    let dist_pool := hamming_dist_mat (sim_obs sim) genotype in
    let q := map (bernoulli_weight (Fin e) p) dist_pool in
    let r := fst (importance_weight genotype L model time "rejection"
                                    version rng0 sampling_times_available) in
    length dist_pool = K /\
    length (w r) = L /\
    (Forall (fun x => x = Dbl.zero) q ->
     let idxs :=
       fst (rdiscrete_std L (repeat (Dbl.one / Dbl.of_nat K)%D K)
                          (sim_rng sim)) in
     dist r = map (fun idx => nth idx dist_pool uninit_int) idxs /\
     Tdiff r = map (fun idx => nth idx (sim_T_events sim) []) idxs /\
     w r = map Dbl.exp
               (log_bernoulli_process (cast_double (dist r)) (Fin e) p)) /\
    (~ Forall (fun x => x = Dbl.zero) q ->
     let Q := vsum q in
     let idxs :=
       fst (rdiscrete_std L (map (fun x => x / Q)%D q) (sim_rng sim)) in
     dist r = map (fun idx => nth idx dist_pool uninit_int) idxs /\
     Tdiff r = map (fun idx => nth idx (sim_T_events sim) []) idxs /\
     forall l, l < L -> nth l (w r) NaN = (Q / Dbl.of_nat K)%D).
Proof.
  intros RT genotype L model time version rng0 avail e Heps He HK
         p K T_sampling sim dist_pool q r.
  cbv zeta.
  destruct (rejection_record genotype L model time version rng0 avail HK)
    as [Hpool [Hidxs Hr]].
  rewrite Heps in Hr, Hidxs.
  fold p K T_sampling sim dist_pool q in Hpool, Hidxs, Hr. fold r in Hr.
  pose proof (pool_weights_sum_zero e p dist_pool He) as Hzero.
  fold q in Hzero.
  split; [exact Hpool|].
  destruct (Dbl.eqb (vsum q) Dbl.zero) eqn:Hrandom.
  - rewrite Hr. cbn [w dist Tdiff]. split.
    + rewrite length_map, length_log_bernoulli_process.
      unfold cast_double. rewrite !length_map. exact Hidxs.
    + split.
      * intros _. repeat split; reflexivity.
      * intros Hnz. exfalso. apply Hnz. apply Hzero. reflexivity.
  - rewrite Hr. cbn [w dist Tdiff].
    split; [apply repeat_length|]. split.
    + intros Hall. apply Hzero in Hall. discriminate.
    + intros _. split; [reflexivity|]. split; [reflexivity|].
      intros l Hl. apply nth_repeat_lt. assumption.
Qed.

(** A pool for two samples of the observation [1] of one event, at the
    error rate 1/4: no pool weight is zero, so both returned weights are
    [Q / K]. *)
Lemma importance_weight_rejection_weights_witness :
  let model :=
    set_epsilon
      (set_lambda (@build_model counter_runtime [[0%Z]] (Fin 1)) [Fin 1])
      (Fin (/ 4)) in
  let sim :=
    @sample_genotypes counter_runtime 2 model
                      (repeat (repeat (Fin 0) 1) 2) (repeat (Fin 3) 2) 0
                      true in
  let dist_pool := hamming_dist_mat (sim_obs sim) [true] in
  let q := map (bernoulli_weight (Fin (/ 4)) 1) dist_pool in
  let r := fst (@importance_weight counter_runtime [true] 2 model (Fin 3)
                                   "rejection" 0 0 true) in
  get_epsilon model = Fin (/ 4) /\ (0 <= / 4 <= 1)%R /\
  (Z.of_nat (size model) * Z.of_nat 2 < 2 ^ 32)%Z /\
  length dist_pool = 2 /\ length (w r) = 2 /\
  (~ Forall (fun x => x = Dbl.zero) q ->
   forall l, l < 2 -> nth l (w r) NaN = (vsum q / Dbl.of_nat 2)%D).
Proof.
  intros model sim dist_pool q r.
  assert (He : (0 <= / 4 <= 1)%R) by lra.
  assert (HK : (Z.of_nat (size model) * Z.of_nat 2 < 2 ^ 32)%Z)
    by (simpl; lia).
  destruct (@importance_weight_rejection_weights
              counter_runtime [true] 2 model (Fin 3) 0 0 true (/ 4)
              eq_refl He HK)
    as [Hpool [Hw [_ Hq]]].
  split; [reflexivity|]. split; [exact He|]. split; [exact HK|].
  split; [exact Hpool|]. split; [exact Hw|].
  intros Hnz l Hl. destruct (Hq Hnz) as [_ [_ H]]. apply H. exact Hl.
Defined.

(** ** The M-step *)

Lemma div_Fin :
  forall a b : R, b <> 0%R -> (Fin a / Fin b)%D = Fin (a / b).
Proof.
  intros a b Hb. unfold Dbl.div.
  destruct (Req_dec_T b 0); [contradiction | reflexivity].
Qed.

Lemma zero_div_zero : (Fin 0 / Fin 0)%D = NaN.
Proof.
  unfold Dbl.div. destruct (Req_dec_T 0 0) as [_|H]; [|lra].
  unfold Dbl.inf_of_sign.
  destruct (total_order_T 0 0) as [[H|_]|H]; try lra. reflexivity.
Qed.

Lemma Rsum_le_length :
  forall (l : list R) (c : R),
    Forall (fun x => 0 <= x <= c)%R l ->
    (0 <= Rsum l <= INR (length l) * c)%R.
Proof.
  induction l as [|x l IH]; intros c H.
  - simpl. lra.
  - inversion H; subst. specialize (IH c ltac:(assumption)).
    change (Rsum (x :: l)) with (x + Rsum l)%R.
    change (length (x :: l)) with (S (length l)). rewrite S_INR. lra.
Qed.

Lemma Rdot_nonneg :
  forall a b : list R,
    Forall (fun x => 0 <= x)%R a -> Forall (fun x => 0 <= x)%R b ->
    (0 <= Rdot a b)%R.
Proof.
  intros a b Ha Hb. unfold Rdot. apply Rsum_nonneg.
  revert b Hb. induction Ha as [|x a Hx Ha IH]; intros b Hb.
  - destruct b; constructor.
  - destruct Hb as [|y b Hy Hb]; simpl; constructor;
      [apply Rmult_le_pos; assumption | apply IH; assumption].
Qed.

Lemma col_Fin :
  forall (ts : list (list R)) (j : nat),
    col (map (map Fin) ts) j = map Fin (map (fun row => nth j row 0%R) ts).
Proof.
  intros ts j. unfold col. rewrite !map_map. apply map_ext. intros row.
  change Dbl.zero with (Fin 0). apply map_nth.
Qed.

Lemma Forall_nth_nonneg :
  forall (ts : list (list R)) (j : nat),
    Forall (Forall (fun t => 0 <= t)%R) ts ->
    Forall (fun x => 0 <= x)%R (map (fun row => nth j row 0%R) ts).
Proof.
  intros ts j H. rewrite Forall_map. eapply Forall_impl; [|exact H].
  intros row Hrow. simpl.
  destruct (Nat.lt_ge_cases j (length row)) as [Hlt|Hge].
  - rewrite Forall_forall in Hrow. apply Hrow. apply nth_In. assumption.
  - rewrite nth_overflow by assumption. lra.
Qed.

Lemma Rdot_zero_l :
  forall a b : list R, Forall (fun x => x = 0%R) a -> Rdot a b = 0%R.
Proof.
  unfold Rdot. intros a b Ha. revert b.
  induction Ha as [|x a Hx Ha IH]; intros [|y b]; simpl; try reflexivity.
  rewrite IH, Hx. lra.
Qed.

(** The rate the M-step stores for a column sum [s >= 0] under a total
    weight [W >= 0] that vanishes only together with [s]. *)
Lemma to_float_nonneg :
  forall r : R,
    (0 <= r)%R ->
    (to_float (Fin r) = Fin 0 /\ (r <= / 2 ^ 150)%R) \/
    (to_float (Fin r) = Fin r /\ (/ 2 ^ 150 < r)%R) \/
    (to_float (Fin r) = PInf /\ (2 ^ 128 - 2 ^ 103 <= r)%R).
Proof.
  intros r Hr. unfold to_float.
  destruct (Rle_dec (- / 2 ^ 150) r) as [_|Hn]; [|exfalso; lra].
  destruct (Rle_dec r (/ 2 ^ 150)) as [Hle|Hgt].
  - left. split; [reflexivity | assumption].
  - destruct (Rle_dec (2 ^ 128 - 2 ^ 103) r) as [Hh|Hh].
    + right. right. split; [reflexivity | assumption].
    + right. left. split; [reflexivity | lra].
Qed.

(** Closes the cases of a rate that the value of [W] rules out. *)
Ltac close_case :=
  intros;
  try discriminate;
  repeat match goal with
         | H : Fin _ = Fin _ |- _ => inversion H; subst; clear H
         end;
  try lra.

(** The rate lines 406-407 store, by the value of [W]. *)
Lemma clamp_inverse :
  forall (s mx : R) (W : double),
    (0 <= s)%R -> (0 < mx)%R ->
    (forall Wr : R, W = Fin Wr -> (0 <= Wr)%R) ->
    W = PInf \/ (exists Wr : R, W = Fin Wr) ->
    exists l : R,
      clamp_lambda (Fin mx) (Dbl.inverse (Fin s / W)%D) = Fin l /\
      (0 <= l <= mx)%R /\
      (s = 0%R -> l = mx) /\
      (forall Wr : R,
          W = Fin Wr -> (0 < Wr)%R -> (0 < s)%R ->
          l = Rmin (Wr / s) mx) /\
      (W = Fin 0 -> (0 < s)%R -> l = 0%R) /\
      (W = PInf -> l = mx).
Proof.
  intros s mx W Hs Hmx HW0 [->|[Wr ->]].
  - (* the sum of the weights is past the largest float *)
    exists mx. split.
    + unfold Dbl.div, Dbl.inverse, Dbl.one, Dbl.div, clamp_lambda.
      destruct (Req_dec_T 0 0) as [_|H]; [|lra].
      unfold Dbl.inf_of_sign.
      destruct (total_order_T 0 1) as [[_|H]|H]; try lra. reflexivity.
    + repeat split; close_case.
  - specialize (HW0 Wr eq_refl).
    destruct (Req_dec_T Wr 0) as [->|HWr].
    + destruct (Req_dec_T s 0) as [->|Hne].
      * (* no weight and no waiting time: 0 / 0 *)
        rewrite zero_div_zero. exists mx.
        unfold clamp_lambda. simpl. repeat split; close_case.
      * (* no weight left in the float: s / 0 *)
        exists 0%R. split.
        -- unfold Dbl.div at 1.
           destruct (Req_dec_T 0 0) as [_|H]; [|lra].
           unfold Dbl.inf_of_sign.
           destruct (total_order_T 0 s) as [[_|H]|H]; try lra.
           unfold Dbl.inverse, Dbl.one, Dbl.div, clamp_lambda,
             Dbl.gtb, Dbl.ltb, Dbl.isfinite.
           destruct (Rlt_dec mx 0); [lra | reflexivity].
        -- repeat split; close_case.
    + rewrite div_Fin by lra. unfold Dbl.inverse, Dbl.one, clamp_lambda.
      destruct (Req_dec_T s 0) as [->|Hne].
      * exists mx. unfold Dbl.div.
        replace (0 / Wr)%R with 0%R by (field; lra).
        destruct (Req_dec_T 0 0) as [_|H]; [|lra].
        unfold Dbl.inf_of_sign.
        destruct (total_order_T 0 1) as [[_|H]|H]; try lra.
        simpl. repeat split; close_case.
      * assert (Hpos : (0 < s / Wr)%R) by (apply Rdiv_lt_0_compat; lra).
        rewrite div_Fin by lra.
        replace (1 / (s / Wr))%R with (Wr / s)%R by (field; lra).
        assert (Hq : (0 < Wr / s)%R) by (apply Rdiv_lt_0_compat; lra).
        unfold Dbl.gtb, Dbl.ltb, Dbl.isfinite. simpl.
        destruct (Rlt_dec mx (Wr / s)) as [Hgt|Hle].
        -- exists mx. simpl. repeat split; close_case.
           unfold Rmin.
           match goal with
           | |- context [Rle_dec ?a ?b] => destruct (Rle_dec a b); lra
           end.
        -- exists (Wr / s)%R. simpl. repeat split; close_case.
           unfold Rmin.
           match goal with
           | |- context [Rle_dec ?a ?b] => destruct (Rle_dec a b); lra
           end.
Qed.

Lemma Rdot_le_sum :
  forall (a b : list R) (c : R),
    (0 <= c)%R ->
    Forall (fun x => 0 <= x)%R a ->
    Forall (fun x => 0 <= x <= c)%R b ->
    (0 <= Rdot a b <= c * Rsum a)%R.
Proof.
  intros a b c Hc Ha. revert b. unfold Rdot.
  induction Ha as [|x a Hx Ha IH]; intros b Hb.
  - simpl. lra.
  - pose proof (Rsum_nonneg a Ha) as Hs.
    destruct Hb as [|y b Hy Hb]; simpl; [nra|].
    specialize (IH b Hb). nra.
Qed.

Lemma cast_double_Fin :
  forall ds : VectorXi, cast_double ds = map Fin (map INR ds).
Proof.
  intros ds. unfold cast_double. rewrite map_map. reflexivity.
Qed.

(** The expectations line 396-401 compute from a record whose weights are
    finite, not negative and of positive sum, whose distances are at most
    [p] and whose waiting times are finite and not negative: a distance
    in [0, p] and waiting times that are finite and not negative. *)
Lemma expected_statistics_range :
  forall (p : nat) (wr : list R) (ds : VectorXi) (ts : list (list R)),
    Forall (fun x => 0 <= x)%R wr -> (0 < Rsum wr)%R ->
    Forall (fun d => d <= p) ds ->
    Forall (Forall (fun t => 0 <= t)%R) ts ->
    let st := expected_statistics
                p {| w := map Fin wr; dist := ds;
                     Tdiff := map (map Fin) ts |} in
    (exists d : R, fst st = Fin d /\ (0 <= d <= INR p)%R) /\
    (exists row : list R,
        snd st = map Fin row /\ length row = p /\
        Forall (fun t => 0 <= t)%R row).
Proof.
  intros p wr ds ts Hw HW Hd Ht st. subst st.
  unfold expected_statistics. cbn [fst snd w dist Tdiff].
  rewrite vsum_Fin. split.
  - rewrite cast_double_Fin, dot_Fin, div_Fin by lra.
    eexists. split; [reflexivity|].
    destruct (Rdot_le_sum wr (map INR ds) (INR p) (pos_INR p) Hw) as [H0 H1].
    { rewrite Forall_map. eapply Forall_impl; [|exact Hd].
      intros d Hdp. simpl. split; [apply pos_INR | apply le_INR; assumption]. }
    split.
    + apply Rmult_le_pos; [assumption|]. apply Rlt_le.
      apply Rinv_0_lt_compat. assumption.
    + apply Rmult_le_reg_r with (Rsum wr); [assumption|].
      unfold Rdiv. rewrite Rmult_assoc, Rinv_l by lra. lra.
  - exists (map (fun j => Rdot (map (fun row => nth j row 0%R) ts) wr
                          / Rsum wr)%R (seq 0 p)).
    split; [|split].
    + unfold transpose_mat_vec. rewrite !map_map. apply map_ext.
      intros j. rewrite col_Fin, dot_Fin. apply div_Fin. lra.
    + rewrite length_map. apply length_seq.
    + rewrite Forall_map. apply Forall_forall. intros j _.
      apply Rmult_le_pos.
      * apply Rdot_nonneg; [|assumption]. apply Forall_nth_nonneg.
        assumption.
      * apply Rlt_le. apply Rinv_0_lt_compat. assumption.
Qed.

(** C6, as the code has it.  The model an iteration of [MCEM_hcbn]
    leaves is the one its M-step builds from the expectations of the
    E-step and from the sum of the weights, stored in a [float].  With
    [N > 0] observations of [p > 0] events and expected distances that
    are finite, not negative and at most [p], the M-step sets [eps] to
    [sum_i E_dist(i) / (N * p)], which lies in [0, 1].  With weights and
    expected waiting times that are finite and not negative and a
    positive [max_lambda], every [lambda_j] it stores is finite and lies
    in [0, max_lambda]: it is [max_lambda] when [s_j = 0] or when the sum
    of the weights is past the largest [float], it is [W / s_j] clamped
    above by [max_lambda] when [s_j] and the [float] [W] are positive,
    and it is 0 when [s_j] is positive and the [float] [W] is 0. *)
Theorem m_step_ranges :
  forall `{RT : Runtime} (control_EM : ControlEM),
    (forall obs times weights L sampling version sampling_times_available
            thrds st,
        em_model (em_iteration control_EM obs times weights L sampling
                               version sampling_times_available thrds st) =
        let stats :=
          fst (e_step (em_model st) obs times L sampling version
                      sampling_times_available thrds (em_rng st)) in
        m_step control_EM (em_model st) (length obs) (size (em_model st))
               weights (to_float (vsum weights)) (fst stats) (snd stats)) /\
    (forall (model : Model) (N p : nat) (weights : RowVectorXd) (W : double)
            (ds : list R) (expected_Tdiff : MatrixXd),
        length ds = N -> 0 < N -> 0 < p ->
        Forall (fun d => 0 <= d <= INR p)%R ds ->
        let model' :=
          m_step control_EM model N p weights W (map Fin ds)
                 expected_Tdiff in
        get_epsilon model' = Fin (Rsum ds / INR (N * p)) /\
        (0 <= Rsum ds / INR (N * p) <= 1)%R) /\
    (forall (model : Model) (N p : nat) (ws : list R)
            (expected_dist : VectorXd) (ts : list (list R)) (mx : R),
        max_lambda control_EM = Fin mx -> (0 < mx)%R ->
        Forall (fun x => 0 <= x)%R ws ->
        Forall (Forall (fun t => 0 <= t)%R) ts ->
        let W := to_float (vsum (map Fin ws)) in
        let s := fun j => Rdot ws (map (fun row => nth j row 0%R) ts) in
        let model' :=
          m_step control_EM model N p (map Fin ws) W expected_dist
                 (map (map Fin) ts) in
        length (get_lambda model') = p /\
        forall j, j < p ->
          exists l : R,
            get_lambda_at model' j = Fin l /\
            (0 <= l <= mx)%R /\
            (0 <= s j)%R /\
            (s j = 0%R -> l = mx) /\
            (forall Wr : R,
                W = Fin Wr -> (0 < Wr)%R -> (0 < s j)%R ->
                Wr = Rsum ws /\ l = Rmin (Wr / s j) mx) /\
            (W = Fin 0 -> (0 < s j)%R -> l = 0%R) /\
            (W = PInf -> l = mx)).
Proof.
  intros RT control_EM. split; [|split].
  - intros. unfold em_iteration.
    destruct (e_step _ _ _ _ _ _ _ _ _) as [[ed eT] g]. reflexivity.
  - intros model N p weights W ds eT HN HN0 Hp Hds model'.
    assert (HNp : (0 < INR (N * p))%R) by (apply lt_0_INR; nia).
    split.
    + subst model'. unfold m_step, set_lambda_max. cbn.
      rewrite vsum_Fin. unfold Dbl.of_nat. apply div_Fin. lra.
    + pose proof (Rsum_le_length ds (INR p) Hds) as [Hlo Hhi].
      rewrite HN in Hhi. rewrite mult_INR. rewrite mult_INR in HNp.
      split.
      * apply Rmult_le_pos; [lra|]. apply Rlt_le. apply Rinv_0_lt_compat.
        assumption.
      * apply Rmult_le_reg_r with (INR N * INR p)%R; [assumption|].
        unfold Rdiv. rewrite Rmult_assoc, Rinv_l by lra. lra.
  - intros model N p ws ed ts mx Hmax Hmx Hws Hts W s model'.
    split.
    + subst model'. unfold m_step, set_lambda_max, row_vec_mat. cbn.
      rewrite !length_map. apply length_seq.
    + intros j Hj.
      assert (Hsj : (0 <= s j)%R).
      { subst s. apply Rdot_nonneg; [assumption|].
        apply Forall_nth_nonneg. assumption. }
      assert (HWsum : (0 <= Rsum ws)%R) by (apply Rsum_nonneg; assumption).
      assert (HW : W = to_float (Fin (Rsum ws))).
      { subst W. rewrite vsum_Fin. reflexivity. }
      assert (Hval : forall Wr, W = Fin Wr ->
                                (0 <= Wr)%R /\ (0 < Wr -> Wr = Rsum ws)%R).
      { intros Wr HWr. rewrite HW in HWr.
        destruct (to_float_nonneg (Rsum ws) HWsum)
          as [[H _]|[[H _]|[H _]]]; rewrite H in HWr.
        - inversion HWr. split; lra.
        - inversion HWr. subst. split; [assumption | reflexivity].
        - discriminate. }
      assert (Hform : W = PInf \/ exists Wr, W = Fin Wr).
      { rewrite HW.
        destruct (to_float_nonneg (Rsum ws) HWsum)
          as [[H _]|[[H _]|[H _]]]; rewrite H;
          [right; eexists; reflexivity | right; eexists; reflexivity
           | left; reflexivity]. }
      destruct (clamp_inverse (s j) mx W Hsj Hmx
                              (fun Wr H => proj1 (Hval Wr H)) Hform)
        as [l [Hl [Hr [H0 [H1 [H2 H3]]]]]].
      exists l. split.
      { rewrite <- Hl. subst model'.
        unfold m_step, set_lambda_max, get_lambda_at, row_vec_mat. cbn.
        rewrite Hmax.
        rewrite (nth_map_lt _ _ _ _ _ NaN NaN)
          by (rewrite !length_map, length_seq; assumption).
        rewrite (nth_map_lt _ _ _ _ _ NaN NaN)
          by (rewrite length_map, length_seq; assumption).
        rewrite (nth_map_lt _ _ _ _ _ NaN 0)
          by (rewrite length_seq; assumption).
        rewrite seq_nth by assumption. simpl.
        rewrite col_Fin, dot_Fin. reflexivity. }
      split; [exact Hr|]. split; [exact Hsj|]. split; [exact H0|].
      split; [|split; assumption].
      intros Wr HWr HWpos Hspos. split.
      * apply (proj2 (Hval Wr HWr)). assumption.
      * apply H1; assumption.
Qed.

(** One observation of two events under the weight 2, with the expected
    distance 1 and the expected waiting times 3 and 0. *)
Lemma m_step_ranges_witness :
  let control_EM :=
    {| max_iter := 100; update_step_size := 20;
       tol := Fin (/ 1000); max_lambda := Fin 1000000 |} in
  let model := @build_model counter_runtime [[0; 1]; [0; 0]]%Z (Fin 1) in
  let model' :=
    m_step control_EM model 1 2 (map Fin [2%R])
           (to_float (vsum (map Fin [2%R])))
           (map Fin [1%R]) (map (map Fin) [[3%R; 0%R]]) in
  get_epsilon model' = Fin (Rsum [1%R] / INR (1 * 2)) /\
  (0 <= Rsum [1%R] / INR (1 * 2) <= 1)%R /\
  length (get_lambda model') = 2.
Proof.
  intros control_EM model model'.
  destruct (@m_step_ranges counter_runtime control_EM) as [_ [Heps Hlam]].
  destruct (Heps model 1 2 (map Fin [2%R])
                 (to_float (vsum (map Fin [2%R]))) [1%R]
                 (map (map Fin) [[3%R; 0%R]]))
    as [He Hr]; try reflexivity; try lia.
  - repeat constructor; simpl; lra.
  - destruct (Hlam model 1 2 [2%R] (map Fin [1%R]) [[3%R; 0%R]] 1000000%R)
      as [Hl _]; try reflexivity; try lra.
    + repeat constructor; lra.
    + repeat constructor; lra.
    + split; [exact He|]. split; [exact Hr | exact Hl].
Defined.

(** The comparisons of reals a run on concrete numbers meets are settled
    by [lra]. *)
Ltac decide_reals :=
  repeat match goal with
  | |- context [Rlt_dec ?a ?b] =>
      destruct (Rlt_dec a b); [try (exfalso; lra) | try (exfalso; lra)]
  | |- context [Rle_dec ?a ?b] =>
      destruct (Rle_dec a b); [try (exfalso; lra) | try (exfalso; lra)]
  | |- context [Req_dec_T ?a ?b] =>
      destruct (Req_dec_T a b); [try (exfalso; lra) | try (exfalso; lra)]
  | |- context [total_order_T ?a ?b] =>
      destruct (total_order_T a b) as [[?|?]|?];
      [try (exfalso; lra) | try (exfalso; lra) | try (exfalso; lra)]
  end.

(** Runs the program on concrete arguments, the arithmetic of the reals
    left symbolic. *)
Ltac run_program :=
  repeat (progress
            (cbv -[Rplus Rmult Rminus Ropp Rinv Rdiv IZR Rlt_dec Rle_dec
                   Req_dec_T total_order_T ln Rtrigo_def.exp pow Rabs
                   Rlt Rle Rgt Rge];
             decide_reals)).

(** C6 as stated fails.  With no observation the M-step divides the
    empty sum of the expected distances by [N * p = 0] and stores NaN as
    [eps], after the M-step of [MCEM_hcbn] as after a call of the M-step
    alone.  And one observation under the weight 2^-151, which the
    [float] [W] of line 326 stores as 0, gives [s / W = 1 / 0], so that
    the rate stored is 0, not a positive number: [_MCEM_hcbn], run for
    one iteration on one observation of one event under that weight,
    returns the rate 0. *)
Lemma m_step_ranges_counterexample :
  (let control_EM :=
     {| max_iter := 100; update_step_size := 20;
        tol := Fin (/ 1000); max_lambda := Fin 1000000 |} in
   let model := @build_model counter_runtime [[0%Z]] (Fin 1) in
   let st := @em_init counter_runtime control_EM model
                      (@Context_new counter_runtime 42%Z false) in
   get_epsilon
     (em_model (@em_iteration counter_runtime control_EM [] [] [] 2
                              "forward" 0 false 1 st)) = NaN /\
   get_epsilon (m_step control_EM model 0 1 [] (to_float (vsum [])) [] []) =
     NaN /\
   (forall e : R, NaN <> Fin e) /\
   get_lambda_at
     (m_step control_EM model 1 1 [Fin (/ 2 ^ 151)]
             (to_float (vsum [Fin (/ 2 ^ 151)])) [Fin 0] [[Fin 1]]) 0 =
     Fin 0 /\
   ~ positive (Fin 0)) /\
  @_MCEM_hcbn counter_runtime [Fin 1] [[0%Z]] [[true]] [Fin 0] (Fin 1)
              (Fin (/ 2)) [Fin (/ 2 ^ 151)] 1 "forward" 0 1%Z 20%Z
              (Fin (/ 1000)) (Fin 10) true 1 false 0%Z =
    Ok ([Fin 0], Fin 1, NaN).
Proof.
  split.
  - intros control_EM model st.
    split; [|split; [|split; [|split]]].
    + unfold em_iteration, e_step.
      destruct (get_auxiliary_rngs 1 (em_rng st)) as [rngs g1].
      cbn [length seq e_step_loop fst snd map em_model].
      match goal with
      | |- get_epsilon ?m = NaN =>
          change (get_epsilon m) with (Fin 0 / Fin 0)%D
      end.
      apply zero_div_zero.
    + match goal with
      | |- get_epsilon ?m = NaN =>
          change (get_epsilon m) with (Fin 0 / Fin 0)%D
      end.
      apply zero_div_zero.
    + intros e. discriminate.
    + assert (Htiny : (0 < / 2 ^ 151 <= / 2 ^ 150)%R) by lra.
      assert (HW : to_float (vsum [Fin (/ 2 ^ 151)]) = Fin 0).
      { change (vsum [Fin (/ 2 ^ 151)]) with (Fin (/ 2 ^ 151 + 0)).
        unfold to_float.
        destruct (Rle_dec (- / 2 ^ 150) (/ 2 ^ 151 + 0)) as [_|Hn];
          [|exfalso; lra].
        destruct (Rle_dec (/ 2 ^ 151 + 0) (/ 2 ^ 150)) as [_|Hn];
          [reflexivity | exfalso; lra]. }
      rewrite HW.
      destruct (clamp_inverse (/ 2 ^ 151 * 1 + 0) 1000000 (Fin 0))
        as [l [Hl [_ [_ [_ [Hz _]]]]]]; try lra.
      * intros Wr H. inversion H. lra.
      * right. eexists. reflexivity.
      * rewrite (Hz eq_refl ltac:(lra)) in Hl. exact Hl.
    + intros [r [Hr Hpos]]. inversion Hr. lra.
  - assert (Htiny : (0 < / 2 ^ 151 <= / 2 ^ 150)%R) by lra.
    revert Htiny. generalize (/ 2 ^ 151)%R. intros tiny Htiny.
    run_program. repeat f_equal; field.
Qed.

(** ** Importance weights that sum to zero *)

Lemma add_NaN_r : forall x : double, (x + NaN)%D = NaN.
Proof. intros [r| | |]; reflexivity. Qed.

Lemma vsum_In_NaN : forall l : VectorXd, In NaN l -> vsum l = NaN.
Proof.
  induction l as [|x l IH]; intros H; [destruct H|].
  change (vsum (x :: l)) with (x + vsum l)%D.
  destruct H as [->|H]; [reflexivity|].
  rewrite IH by assumption. apply add_NaN_r.
Qed.

Lemma vsum_all_zero :
  forall ws : VectorXd,
    Forall (fun x => x = Dbl.zero) ws -> vsum ws = Fin 0.
Proof.
  induction ws as [|x ws IH]; intros H; [reflexivity|].
  inversion H; subst.
  change (vsum (Dbl.zero :: ws)) with (Dbl.zero + vsum ws)%D.
  rewrite IH by assumption. unfold Dbl.zero, Dbl.add. f_equal. lra.
Qed.

Lemma dot_all_zero :
  forall (ws : VectorXd) (ds : VectorXi),
    Forall (fun x => x = Dbl.zero) ws ->
    dot ws (cast_double ds) = Fin 0.
Proof.
  unfold dot. induction ws as [|x ws IH]; intros ds H; [reflexivity|].
  inversion H; subst. destruct ds as [|d ds]; [reflexivity|].
  change (vsum (zip_with Dbl.mul (Dbl.zero :: ws) (cast_double (d :: ds))))
    with (Dbl.zero * Dbl.of_nat d +
          vsum (zip_with Dbl.mul ws (cast_double ds)))%D.
  rewrite IH by assumption.
  unfold Dbl.zero, Dbl.of_nat, Dbl.mul, Dbl.add. f_equal. lra.
Qed.

Lemma DBL_EPSILON_range : (0 < / 2 ^ 52 < 1)%R.
Proof.
  assert (H : (1 < 2 ^ 52)%R).
  { apply Rlt_pow_R1; [lra | lia]. }
  split.
  - apply Rinv_0_lt_compat. lra.
  - rewrite <- Rinv_1. apply Rinv_lt_contravar; lra.
Qed.

(** C3, as the code has it.  A sum of importance weights equal to zero is
    no error: [_MCEM_hcbn] ends in [NotAcyclic] or returns a result; an
    observation whose weights are all zero gets the expected distance
    [0 / 0], NaN, and a NaN among the expected distances makes the M-step
    store NaN as [eps]. *)
Theorem zero_weight_sum_is_no_error :
  forall `{RT : Runtime},
    (forall ilambda poset0 obs times lambda_s eps weights L sampling version
            max_iter0 update_step_size0 tol0 max_lambda0
            sampling_times_available thrds verbose seed,
        _MCEM_hcbn ilambda poset0 obs times lambda_s eps weights L sampling
                   version max_iter0 update_step_size0 tol0 max_lambda0
                   sampling_times_available thrds verbose seed =
          Error NotAcyclic \/
        exists res,
          _MCEM_hcbn ilambda poset0 obs times lambda_s eps weights L
                     sampling version max_iter0 update_step_size0 tol0
                     max_lambda0 sampling_times_available thrds verbose seed =
          Ok res) /\
    (forall (p : nat) (s : DataImportanceSampling),
        Forall (fun x => x = Dbl.zero) (w s) ->
        vsum (w s) = Fin 0 /\ fst (expected_statistics p s) = NaN) /\
    (forall control_EM model N p weights W expected_dist expected_Tdiff,
        In NaN expected_dist ->
        get_epsilon (m_step control_EM model N p weights W expected_dist
                            expected_Tdiff) = NaN).
Proof.
  intros RT. split; [|split].
  - intros. unfold _MCEM_hcbn.
    destruct (cycle _); [left; reflexivity|].
    right. destruct (MCEM_hcbn _ _ _ _ _ _ _ _ _ _ _) as [[M2 c] ll].
    eexists. reflexivity.
  - intros p s Hz. split; [apply vsum_all_zero; assumption|].
    unfold expected_statistics. cbn [fst].
    rewrite dot_all_zero, vsum_all_zero by assumption.
    apply zero_div_zero.
  - intros control_EM model N p weights W ed eT Hin.
    unfold m_step, set_lambda_max. cbn.
    rewrite vsum_In_NaN by assumption. reflexivity.
Qed.

(** A record whose weights are zero, and an E-step that produced a
    NaN. *)
Lemma zero_weight_sum_is_no_error_witness :
  fst (expected_statistics
         1 {| w := [Dbl.zero; Dbl.zero]; dist := [1; 1];
              Tdiff := [[Fin 1]; [Fin 2]] |}) = NaN /\
  (let control_EM :=
     {| max_iter := 1; update_step_size := 20;
        tol := Fin (/ 1000); max_lambda := Fin 10 |} in
   get_epsilon
     (m_step control_EM (@build_model counter_runtime [[0%Z]] (Fin 1)) 1 1
             [Fin 1] (Fin 1) [NaN] [[NaN]]) = NaN).
Proof.
  destruct (@zero_weight_sum_is_no_error counter_runtime)
    as [_ [Hstat Hnan]].
  split.
  - apply Hstat. repeat constructor.
  - intros control_EM. apply Hnan. left. reflexivity.
Defined.

(** C3 as stated fails.  One observation [1] of one event, sampled at time
    0 under [eps = 0] with the proposal "forward": the simulated event
    occurs at time 1, after the sampling time, so the one sample is at
    distance 1 and its weight is [0^1 * 1^0 = 0].  The weights sum to
    zero, no guard applies, and [_MCEM_hcbn] returns a result whose [eps]
    and [llhood] are NaN instead of failing. *)
Lemma zero_weight_sum_counterexample :
  (let model :=
     topological_sort
       (has_cycles
          (set_epsilon
             (set_lambda (@build_model counter_runtime [[0%Z]] (Fin 1))
                         [Fin 1])
             (Fin 0))) in
   vsum (w (fst (@importance_weight counter_runtime [true] 1 model (Fin 0)
                                    "forward" 0 0 true))) = Fin 0) /\
  @_MCEM_hcbn counter_runtime [Fin 1] [[0%Z]] [[true]] [Fin 0] (Fin 1)
              (Fin 0) [Fin 1] 1 "forward" 0 1%Z 20%Z (Fin (/ 1000)) (Fin 10)
              true 1 false 0%Z = Ok ([Fin 10], NaN, NaN) /\
  @_MCEM_hcbn counter_runtime [Fin 1] [[0%Z]] [[true]] [Fin 0] (Fin 1)
              (Fin 0) [Fin 1] 1 "forward" 0 1%Z 20%Z (Fin (/ 1000)) (Fin 10)
              true 1 false 0%Z <> Error Numerical.
Proof.
  assert (H : @_MCEM_hcbn counter_runtime [Fin 1] [[0%Z]] [[true]] [Fin 0]
                          (Fin 1) (Fin 0) [Fin 1] 1 "forward" 0 1%Z 20%Z
                          (Fin (/ 1000)) (Fin 10) true 1 false 0%Z =
              Ok ([Fin 10], NaN, NaN)).
  { run_program. repeat f_equal. lra. }
  split; [|split; [exact H | rewrite H; discriminate]].
  intros model. run_program. f_equal. lra.
Qed.

(** ** The log-Bernoulli terms *)

Lemma exp_mult_ln_pow :
  forall (x : R) (n : nat), (0 < x)%R -> exp (ln x * INR n) = (x ^ n)%R.
Proof.
  intros x n Hx. rewrite <- (Rpower_pow n x Hx). unfold Rpower.
  f_equal. apply Rmult_comm.
Qed.

Lemma eqb_Fin_nonzero :
  forall e : R, e <> 0%R -> Dbl.eqb (Fin e) Dbl.zero = false.
Proof.
  intros e He. unfold Dbl.eqb, Dbl.zero.
  destruct (Req_dec_T e 0); [contradiction | reflexivity].
Qed.

Lemma neqb_of_nat :
  forall d : nat, Dbl.neqb (Dbl.of_nat d) Dbl.zero = negb (d =? 0).
Proof.
  intros d. unfold Dbl.neqb, Dbl.eqb, Dbl.of_nat, Dbl.zero.
  destruct (Req_dec_T (INR d) 0) as [H|H].
  - destruct d as [|d]; [reflexivity|].
    exfalso. revert H. apply not_0_INR. discriminate.
  - destruct d as [|d]; [|reflexivity]. exfalso. apply H. reflexivity.
Qed.

(** One term of [log_bernoulli_process] at a probability in (0, 1). *)
Lemma log_bernoulli_term :
  forall (e : R) (p d : nat),
    (0 < e < 1)%R -> d <= p ->
    (Dbl.log (Fin e) * Dbl.of_nat d +
     Dbl.log (Dbl.one - Fin e) * (Dbl.of_nat p - Dbl.of_nat d))%D =
    Fin (ln e * INR d + ln (1 - e) * INR (p - d)).
Proof.
  intros e p d He Hd.
  rewrite log_Fin_pos by lra.
  change (Dbl.one - Fin e)%D with (Fin (1 + - e)).
  rewrite log_Fin_pos by lra.
  change (Dbl.of_nat p - Dbl.of_nat d)%D with (Fin (INR p + - INR d)).
  change (Dbl.of_nat d) with (Fin (INR d)).
  change (Fin (ln e) * Fin (INR d))%D with (Fin (ln e * INR d)).
  change (Fin (ln (1 + - e)) * Fin (INR p + - INR d))%D
    with (Fin (ln (1 + - e) * (INR p + - INR d))).
  change (Fin (ln e * INR d) + Fin (ln (1 + - e) * (INR p + - INR d)))%D
    with (Fin (ln e * INR d + ln (1 + - e) * (INR p + - INR d))).
  rewrite (minus_INR p d Hd). reflexivity.
Qed.

(** X1.  At an error rate strictly between 0 and 1 the exponential of the
    terms of [log_bernoulli_process] is the weight that the forward
    branch of [importance_weight] computes with [pow]: for a distance
    [d <= p], [exp (log eps * d + log (1 - eps) * (p - d))] is
    [eps^d * (1 - eps)^(p - d)].  The two branches of the rejection
    sampler therefore weigh a sample the same way. *)
Theorem log_bernoulli_process_exp :
  forall (e : R) (p : nat) (ds : VectorXi),
    (0 < e < 1)%R ->
    Forall (fun d => d <= p) ds ->
    map Dbl.exp (log_bernoulli_process (cast_double ds) (Fin e) p) =
      map (bernoulli_weight (Fin e) p) ds /\
    map Dbl.exp (log_bernoulli_process (cast_double ds) (Fin e) p) =
      map (fun d => Fin (e ^ d * (1 - e) ^ (p - d))) ds.
Proof.
  intros e p ds He Hds.
  assert (H : map Dbl.exp (log_bernoulli_process (cast_double ds) (Fin e) p) =
              map (fun d => Fin (e ^ d * (1 - e) ^ (p - d))) ds).
  { unfold log_bernoulli_process.
    rewrite eqb_Fin_nonzero by lra.
    unfold cast_double. rewrite !map_map.
    apply map_ext_in. intros d Hin.
    rewrite Forall_forall in Hds. specialize (Hds d Hin).
    rewrite log_bernoulli_term by assumption.
    unfold Dbl.exp. f_equal.
    rewrite exp_plus, !exp_mult_ln_pow by lra. reflexivity. }
  split; [|exact H].
  rewrite H. apply map_ext. intros d. symmetry. apply bernoulli_weight_Fin.
Qed.

(** Three distances over four events at an error rate of 1/4. *)
Lemma log_bernoulli_process_exp_witness :
  map Dbl.exp (log_bernoulli_process (cast_double [0; 2; 4]) (Fin (/ 4)) 4) =
  map (bernoulli_weight (Fin (/ 4)) 4) [0; 2; 4].
Proof.
  apply (log_bernoulli_process_exp (/ 4) 4 [0; 2; 4]).
  - lra.
  - repeat constructor.
Defined.

(** X2.  At an error rate of exactly 0 [log_bernoulli_process] gives a
    sample at distance 0 the log-probability 0 and a sample at a distance
    [d] between 1 and [p] the finite, negative number
    [d * ln DBL_EPSILON + (p - d) * ln (1 - DBL_EPSILON)]: the guard of
    lines 89-101 keeps [log 0] out, and weighs such a sample as an error
    rate of [DBL_EPSILON] would, not with the weight 0 of the forward
    branch. *)
Theorem log_bernoulli_process_eps0 :
  forall (p : nat) (ds : VectorXi),
    Forall (fun d => d <= p) ds ->
    log_bernoulli_process (cast_double ds) Dbl.zero p =
      map (fun d =>
             if d =? 0 then Dbl.zero
             else Fin (ln (/ 2 ^ 52) * INR d +
                       ln (1 - / 2 ^ 52) * INR (p - d))) ds /\
    (forall d, In d ds -> d <> 0 ->
       (ln (/ 2 ^ 52) * INR d + ln (1 - / 2 ^ 52) * INR (p - d) < 0)%R) /\
    map Dbl.exp (log_bernoulli_process (cast_double ds) Dbl.zero p) =
      map (fun d =>
             if d =? 0 then Dbl.one
             else bernoulli_weight DBL_EPSILON p d) ds.
Proof.
  intros p ds Hds.
  pose proof DBL_EPSILON_range as Hr.
  assert (H1 : log_bernoulli_process (cast_double ds) Dbl.zero p =
               map (fun d =>
                      if d =? 0 then Dbl.zero
                      else Fin (ln (/ 2 ^ 52) * INR d +
                                ln (1 - / 2 ^ 52) * INR (p - d))) ds).
  { unfold log_bernoulli_process. rewrite eqb_zero_zero.
    unfold cast_double. rewrite map_map.
    apply map_ext_in. intros d Hin.
    rewrite Forall_forall in Hds. specialize (Hds d Hin).
    rewrite neqb_of_nat.
    destruct (d =? 0); [reflexivity|]. cbn [negb].
    change (Dbl.zero + DBL_EPSILON)%D with (Fin (0 + / 2 ^ 52)).
    change (Dbl.one - Dbl.zero - DBL_EPSILON)%D
      with (Fin (1 + - 0 + - / 2 ^ 52)).
    replace (0 + / 2 ^ 52)%R with (/ 2 ^ 52)%R by lra.
    replace (1 + - 0 + - / 2 ^ 52)%R with (1 - / 2 ^ 52)%R by lra.
    change (Fin (1 - / 2 ^ 52)) with (Dbl.one - Fin (/ 2 ^ 52))%D.
    apply log_bernoulli_term; assumption. }
  split; [exact H1|]. split.
  - intros d Hin Hd.
    assert (Hl1 : (ln (/ 2 ^ 52) < 0)%R).
    { rewrite <- ln_1. apply ln_increasing; lra. }
    assert (Hl2 : (ln (1 - / 2 ^ 52) < 0)%R).
    { rewrite <- ln_1. apply ln_increasing; lra. }
    assert (Hd1 : (1 <= INR d)%R).
    { change 1%R with (INR 1). apply le_INR. lia. }
    pose proof (pos_INR (p - d)) as Hpd.
    nra.
  - rewrite H1, map_map. apply map_ext_in. intros d Hin.
    rewrite Forall_forall in Hds. specialize (Hds d Hin).
    destruct (d =? 0).
    + unfold Dbl.exp, Dbl.zero, Dbl.one. rewrite exp_0. reflexivity.
    + unfold DBL_EPSILON. rewrite bernoulli_weight_Fin.
      unfold Dbl.exp. f_equal.
      rewrite exp_plus, !exp_mult_ln_pow by lra. reflexivity.
Qed.

(** Distances 0 and 2 over three events. *)
Lemma log_bernoulli_process_eps0_witness :
  log_bernoulli_process (cast_double [0; 2]) Dbl.zero 3 =
  [Dbl.zero;
   Fin (ln (/ 2 ^ 52) * INR 2 + ln (1 - / 2 ^ 52) * INR (3 - 2))].
Proof.
  apply (log_bernoulli_process_eps0 3 [0; 2]).
  repeat constructor.
Defined.

(** X3.  At an error rate of exactly 1 the second branch of
    [log_bernoulli_process] multiplies [log 0] by [p - d]: a sample at a
    distance below [p] gets minus infinity, and a sample at distance [p],
    the only one such an error rate allows, gets NaN, not 0. *)
Theorem log_bernoulli_process_eps1 :
  forall (p : nat) (ds : VectorXi),
    Forall (fun d => d <= p) ds ->
    log_bernoulli_process (cast_double ds) Dbl.one p =
    map (fun d => if d =? p then NaN else NInf) ds.
Proof.
  intros p ds Hds. unfold log_bernoulli_process.
  unfold Dbl.one at 1. rewrite eqb_Fin_nonzero by lra.
  unfold cast_double. rewrite map_map.
  apply map_ext_in. intros d Hin.
  rewrite Forall_forall in Hds. specialize (Hds d Hin).
  unfold Dbl.one. rewrite log_Fin_pos by lra.
  change (Fin 1 - Fin 1)%D with (Fin (1 + - 1)).
  assert (Hlog0 : Dbl.log (Fin (1 + - 1)) = NInf).
  { unfold Dbl.log. destruct (total_order_T 0 (1 + - 1)) as [[H|H]|H];
      [lra | reflexivity | lra]. }
  rewrite Hlog0.
  change (Dbl.of_nat p - Dbl.of_nat d)%D with (Fin (INR p + - INR d)).
  change (Fin (ln 1) * Dbl.of_nat d)%D with (Fin (ln 1 * INR d)).
  unfold Dbl.mul, Dbl.inf_of_sign.
  destruct (Nat.eqb_spec d p) as [->|Hne].
  - destruct (total_order_T 0 (- (INR p + - INR p))) as [[H|H]|H];
      [lra | reflexivity | lra].
  - assert (Hlt : (INR d < INR p)%R) by (apply lt_INR; lia).
    destruct (total_order_T 0 (- (INR p + - INR d))) as [[H|H]|H];
      [lra | lra | reflexivity].
Qed.

(** Distances 1 and 2 over two events. *)
Lemma log_bernoulli_process_eps1_witness :
  log_bernoulli_process (cast_double [1; 2]) Dbl.one 2 = [NInf; NaN].
Proof.
  apply (log_bernoulli_process_eps1 2 [1; 2]).
  repeat constructor.
Defined.

(** ** The complete-data log-likelihood, term by term *)

Lemma add_Fin_assoc :
  forall (x : double) (a b : R), (x + Fin a + Fin b)%D = (x + Fin (a + b))%D.
Proof.
  intros [r| | |] a b; unfold Dbl.add; try reflexivity.
  f_equal. lra.
Qed.

Lemma add_Fin_zero : forall x : double, (x + Fin 0)%D = x.
Proof.
  intros [r| | |]; unfold Dbl.add; try reflexivity. f_equal. lra.
Qed.

Lemma neqb_Fin :
  forall d : R,
    Dbl.neqb (Fin d) Dbl.zero = if Req_dec_T d 0 then false else true.
Proof.
  intros d. unfold Dbl.neqb, Dbl.eqb, Dbl.zero.
  destruct (Req_dec_T d 0); reflexivity.
Qed.

(** The terms of [log_bernoulli_process] at finite distances and an
    error rate in [0, 1) are finite. *)
Lemma log_bernoulli_process_reals :
  forall (e : R) (p : nat) (ds : list R),
    (0 <= e < 1)%R ->
    log_bernoulli_process (map Fin ds) (Fin e) p =
    map Fin
        (map (fun d =>
                if Req_dec_T e 0 then
                  if Req_dec_T d 0 then 0
                  else ln (0 + / 2 ^ 52) * d +
                       ln (1 + - 0 + - / 2 ^ 52) * (INR p + - d)
                else ln e * d + ln (1 + - e) * (INR p + - d))%R ds).
Proof.
  intros e p ds He. pose proof DBL_EPSILON_range as Hr.
  unfold log_bernoulli_process. rewrite !map_map.
  destruct (Req_dec_T e 0) as [->|Hne].
  - change (Fin 0) with Dbl.zero. rewrite eqb_zero_zero.
    apply map_ext. intros d. rewrite neqb_Fin.
    destruct (Req_dec_T d 0); [reflexivity|].
    change (Dbl.zero + DBL_EPSILON)%D with (Fin (0 + / 2 ^ 52)).
    change (Dbl.one - Dbl.zero - DBL_EPSILON)%D
      with (Fin (1 + - 0 + - / 2 ^ 52)).
    rewrite !log_Fin_pos by lra. reflexivity.
  - rewrite eqb_Fin_nonzero by assumption.
    apply map_ext. intros d.
    change (Dbl.one - Fin e)%D with (Fin (1 + - e)).
    rewrite !log_Fin_pos by lra. reflexivity.
Qed.

Lemma bernoulli_term_eps0_reals :
  forall (p : nat) (ds : list R) (llhood : double),
    bernoulli_term_eps0 Dbl.zero p llhood (map Fin ds) =
    (llhood +
     Fin (Rsum (map (fun d =>
                       if Req_dec_T d 0 then 0
                       else ln (0 + / 2 ^ 52) * d +
                            ln (1 + - 0 + - / 2 ^ 52) * (INR p + - d))%R
                    ds)))%D.
Proof.
  intros p ds. pose proof DBL_EPSILON_range as Hr.
  unfold bernoulli_term_eps0.
  induction ds as [|d ds IH]; intros llhood.
  - simpl. symmetry. apply add_Fin_zero.
  - cbn [map fold_left Rsum fold_right]. rewrite IH. fold (Rsum
      (map (fun d0 : R =>
              if Req_dec_T d0 0 then 0
              else ln (0 + / 2 ^ 52) * d0 +
                   ln (1 + - 0 + - / 2 ^ 52) * (INR p + - d0))%R ds)).
    rewrite neqb_Fin. destruct (Req_dec_T d 0).
    + f_equal. f_equal. lra.
    + change (Dbl.zero + DBL_EPSILON)%D with (Fin (0 + / 2 ^ 52)).
      change (Dbl.one - Dbl.zero - DBL_EPSILON)%D
        with (Fin (1 + - 0 + - / 2 ^ 52)).
      rewrite !log_Fin_pos by lra.
      apply add_Fin_assoc.
Qed.

Lemma Rsum_linear :
  forall (a b c : R) (ds : list R),
    (a * Rsum ds + b * Rsum (map (fun d => c + - d) ds))%R =
    Rsum (map (fun d => a * d + b * (c + - d))%R ds).
Proof.
  intros a b c ds. induction ds as [|d ds IH]; simpl; [lra|].
  fold (Rsum ds). fold (Rsum (map (fun d0 => c + - d0)%R ds)).
  fold (Rsum (map (fun d0 => a * d0 + b * (c + - d0))%R ds)).
  rewrite <- IH. ring.
Qed.

(** X4.  At finite distances and an error rate in [0, 1) the
    complete-data log-likelihood is its rate part, [W * sum_j log
    lambda_j - sum (Tdiff * lambda)], plus the sum of the terms that
    [log_bernoulli_process] computes for the same distances, in the
    branch [eps == 0] as in the other one; [_complete_log_likelihood]
    hands that number to its caller. *)
Theorem complete_log_likelihood_terms :
  forall (lambda : VectorXd) (e : R) (Tdiff : MatrixXd) (ds : list R)
         (W : double),
    (0 <= e < 1)%R ->
    complete_log_likelihood lambda (Fin e) Tdiff (map Fin ds) W =
      ((W * vsum (map Dbl.log lambda) - vsum (mat_vec Tdiff lambda)) +
       vsum (log_bernoulli_process (map Fin ds) (Fin e) (length lambda)))%D
    /\
    _complete_log_likelihood lambda (Fin e) Tdiff (map Fin ds) W =
      Ok ((W * vsum (map Dbl.log lambda) - vsum (mat_vec Tdiff lambda)) +
          vsum (log_bernoulli_process (map Fin ds) (Fin e)
                                      (length lambda)))%D.
Proof.
  intros lambda e Tdiff ds W He.
  assert (H : complete_log_likelihood lambda (Fin e) Tdiff (map Fin ds) W =
              ((W * vsum (map Dbl.log lambda) -
                vsum (mat_vec Tdiff lambda)) +
               vsum (log_bernoulli_process (map Fin ds) (Fin e)
                                           (length lambda)))%D).
  { rewrite log_bernoulli_process_reals by assumption.
    rewrite vsum_Fin. unfold complete_log_likelihood.
    destruct (Req_dec_T e 0) as [->|Hne].
    - change (Fin 0) with Dbl.zero. rewrite eqb_zero_zero.
      apply bernoulli_term_eps0_reals.
    - rewrite eqb_Fin_nonzero by assumption.
      change (Dbl.one - Fin e)%D with (Fin (1 + - e)).
      rewrite !log_Fin_pos by lra.
      rewrite vsum_Fin.
      replace (map (fun d : double => (Dbl.of_nat (length lambda) - d)%D)
                   (map Fin ds))
        with (map Fin (map (fun d => INR (length lambda) + - d)%R ds))
        by (rewrite !map_map; reflexivity).
      rewrite vsum_Fin.
      change (Fin (ln e) * Fin (Rsum ds))%D with (Fin (ln e * Rsum ds)).
      match goal with
      | |- context [(Fin (ln (1 + - e)) * Fin ?s)%D] =>
          change (Fin (ln (1 + - e)) * Fin s)%D
            with (Fin (ln (1 + - e) * s))
      end.
      match goal with
      | |- context [(Fin ?a + Fin ?b)%D] =>
          change (Fin a + Fin b)%D with (Fin (a + b))
      end.
      rewrite Rsum_linear. reflexivity. }
  split; [exact H|].
  unfold _complete_log_likelihood. rewrite H. reflexivity.
Qed.

(** Two observations of two events, one at distance 0 and one at
    distance 1, at an error rate of 0. *)
Lemma complete_log_likelihood_terms_witness :
  complete_log_likelihood [Fin 1; Fin 2] (Fin 0) [[Fin 3; Fin 4]]
                          (map Fin [0; 1]%R) (Fin 5) =
  ((Fin 5 * vsum (map Dbl.log [Fin 1; Fin 2]) -
    vsum (mat_vec [[Fin 3; Fin 4]] [Fin 1; Fin 2])) +
   vsum (log_bernoulli_process (map Fin [0; 1]%R) (Fin 0) 2))%D.
Proof.
  apply (complete_log_likelihood_terms
           [Fin 1; Fin 2] 0 [[Fin 3; Fin 4]] [0; 1]%R (Fin 5)).
  lra.
Defined.

(** ** Hamming distances *)

Lemma filter_length_zero :
  forall (A : Type) (f : A -> bool) (l : list A),
    length (filter f l) = 0 <-> forall x, In x l -> f x = false.
Proof.
  intros A f l. induction l as [|a l IH]; simpl.
  - split; [intros _ x [] | reflexivity].
  - destruct (f a) eqn:E; simpl.
    + split; [discriminate|]. intros H.
      rewrite (H a (or_introl eq_refl)) in E. discriminate.
    + rewrite IH. split.
      * intros H x [<-|Hx]; [assumption | apply H; assumption].
      * intros H x Hx. apply H. right. assumption.
Qed.

Lemma filter_length_cover :
  forall (A : Type) (f g h : A -> bool) (l : list A),
    (forall x, f x = true -> g x = true \/ h x = true) ->
    length (filter f l) <= length (filter g l) + length (filter h l).
Proof.
  intros A f g h l H. induction l as [|a l IH]; simpl; [lia|].
  specialize (H a).
  destruct (f a), (g a), (h a); simpl; try lia;
    destruct (H eq_refl); discriminate.
Qed.

Lemma Hamming_zero_iff :
  forall (p : nat) (a b : list bool),
    length a = p -> length b = p -> (Hamming p a b = 0 <-> a = b).
Proof.
  intros p a b Ha Hb. unfold Hamming. rewrite filter_length_zero. split.
  - intros H. apply nth_ext with (d := false) (d' := false); [congruence|].
    intros j Hj. specialize (H j).
    rewrite in_seq in H. specialize (H ltac:(lia)).
    apply negb_false_iff in H. apply Bool.eqb_prop. assumption.
  - intros -> j _. rewrite Bool.eqb_reflx. reflexivity.
Qed.

Lemma Hamming_sym :
  forall (p : nat) (a b : list bool), Hamming p a b = Hamming p b a.
Proof.
  intros p a b. unfold Hamming. f_equal. apply filter_ext.
  intros j. f_equal.
  destruct (nth j a false), (nth j b false); reflexivity.
Qed.

Lemma Hamming_triangle :
  forall (p : nat) (a b c : list bool),
    Hamming p a c <= Hamming p a b + Hamming p b c.
Proof.
  intros p a b c. unfold Hamming. apply filter_length_cover.
  intros j. destruct (nth j a false), (nth j b false), (nth j c false);
    simpl; auto.
Qed.

Lemma has_shape_one :
  forall (A : Type) (p : nat) (y : list A),
    length y = p -> has_shape 1 p [y].
Proof.
  intros A p y Hy. split; [reflexivity|]. constructor; [assumption|].
  constructor.
Qed.

(** X5.  On genotypes of [p] events every coefficient of
    [hamming_dist_mat] is a distance: it is at most [p], it is 0 exactly
    when the row is the genotype it is compared with, it does not depend
    on which of the two is the row and which the vector, and it obeys the
    triangle inequality. *)
Theorem hamming_dist_mat_distance :
  forall (N p : nat) (x : MatrixXb) (y : RowVectorXb) (l : nat),
    has_shape N p x -> length y = p -> l < N ->
    let d := nth l (hamming_dist_mat x y) 0 in
    d <= p /\
    (d = 0 <-> nth l x [] = y) /\
    d = nth 0 (hamming_dist_mat [y] (nth l x [])) 0 /\
    forall z : RowVectorXb,
      length z = p ->
      d <= nth l (hamming_dist_mat x z) 0 +
           nth 0 (hamming_dist_mat [z] y) 0.
Proof.
  intros N p x y l Hx Hy Hl d. subst d.
  assert (Hrow : length (nth l x []) = p).
  { destruct Hx as [HN Hrows]. rewrite Forall_forall in Hrows.
    apply Hrows. apply nth_In. lia. }
  rewrite (nth_hamming_dist_mat N p x y l Hx Hy Hl).
  split; [apply Hamming_le|].
  split; [apply Hamming_zero_iff; assumption|].
  split.
  - rewrite (nth_hamming_dist_mat 1 p [y] (nth l x []) 0
               (has_shape_one _ p y Hy) Hrow) by lia.
    apply Hamming_sym.
  - intros z Hz.
    rewrite (nth_hamming_dist_mat N p x z l Hx Hz Hl).
    rewrite (nth_hamming_dist_mat 1 p [z] y 0
               (has_shape_one _ p z Hz) Hy) by lia.
    apply Hamming_triangle.
Qed.

(** Two genotypes of three events against a third one. *)
Lemma hamming_dist_mat_distance_witness :
  let x := [[true; false; true]; [false; false; true]] in
  let y := [false; false; true] in
  nth 1 (hamming_dist_mat x y) 0 <= 3 /\
  (nth 1 (hamming_dist_mat x y) 0 = 0 <-> nth 1 x [] = y).
Proof.
  intros x y.
  destruct (hamming_dist_mat_distance 2 3 x y 1) as [H1 [H2 _]].
  - split; [reflexivity|]. repeat constructor.
  - reflexivity.
  - lia.
  - split; [exact H1 | exact H2].
Defined.

Lemma hamming_dist_mat_one_cons :
  forall (a b : bool) (x y : list bool),
    nth 0 (hamming_dist_mat [a :: x] (b :: y)) 0 =
    (if Bool.eqb a b then 0 else 1) + nth 0 (hamming_dist_mat [x] y) 0.
Proof.
  intros a b x y. unfold hamming_dist_mat. simpl.
  destruct (Bool.eqb a b); reflexivity.
Qed.

Lemma int_rangeb_spec :
  forall z : Z, int_rangeb z = true <-> int_range z.
Proof.
  intros z. unfold int_rangeb, int_range.
  rewrite andb_true_iff, Z.leb_le, Z.ltb_lt. reflexivity.
Qed.

(** When [hamming_dist] has a result: no difference, no absolute value
    and not the sum leaves the range of an [int]. *)
Lemma hamming_dist_Some :
  forall (x y : list Z) (d : Z),
    hamming_dist x y = Some d <->
    Forall int_range (zip_with Z.sub x y) /\
    Forall int_range (map Z.abs (zip_with Z.sub x y)) /\
    int_range d /\
    d = fold_right Z.add 0%Z (map Z.abs (zip_with Z.sub x y)).
Proof.
  intros x y d. unfold hamming_dist.
  destruct (forallb int_rangeb (zip_with Z.sub x y)) eqn:E1;
    [|split; [discriminate|]; intros [H _];
      rewrite <- not_true_iff_false in E1; exfalso; apply E1;
      apply forallb_forall; intros z Hz; apply int_rangeb_spec;
      rewrite Forall_forall in H; apply H; assumption].
  destruct (forallb int_rangeb (map Z.abs (zip_with Z.sub x y))) eqn:E2;
    [|split; [discriminate|]; intros [_ [H _]];
      rewrite <- not_true_iff_false in E2; exfalso; apply E2;
      apply forallb_forall; intros z Hz; apply int_rangeb_spec;
      rewrite Forall_forall in H; apply H; assumption].
  destruct (int_rangeb (fold_right Z.add 0%Z
                                   (map Z.abs (zip_with Z.sub x y)))) eqn:E3;
    cbn [andb].
  - rewrite forallb_forall in E1, E2. apply int_rangeb_spec in E3.
    split.
    + intros H. inversion H; subst.
      repeat split; try apply E3; apply Forall_forall; intros z Hz;
        apply int_rangeb_spec; auto.
    + intros [_ [_ [_ ->]]]. reflexivity.
  - split; [discriminate|]. intros [_ [_ [H ->]]].
    apply int_rangeb_spec in H. congruence.
Qed.

Lemma abs_sum_nonneg :
  forall l : list Z, (0 <= fold_right Z.add 0 (map Z.abs l))%Z.
Proof.
  induction l as [|a l IH]; simpl; lia.
Qed.

Lemma abs_sum_zero :
  forall x y : list Z,
    length x = length y ->
    (fold_right Z.add 0%Z (map Z.abs (zip_with Z.sub x y)) = 0%Z <-> x = y).
Proof.
  induction x as [|a x IH]; intros [|b y] Hlen; try discriminate.
  - split; reflexivity.
  - cbn [zip_with map fold_right].
    pose proof (abs_sum_nonneg (zip_with Z.sub x y)) as Hnn.
    specialize (IH y ltac:(simpl in Hlen; lia)).
    split.
    + intros H. assert (a = b) by lia.
      assert (Hz : fold_right Z.add 0%Z (map Z.abs (zip_with Z.sub x y))
                   = 0%Z) by lia.
      apply IH in Hz. congruence.
    + intros Heq. inversion Heq; subst.
      assert (Hz : fold_right Z.add 0%Z (map Z.abs (zip_with Z.sub y y))
                   = 0%Z) by (apply IH; reflexivity).
      lia.
Qed.

Lemma abs_diff_sym :
  forall x y : list Z,
    map Z.abs (zip_with Z.sub y x) = map Z.abs (zip_with Z.sub x y).
Proof.
  induction x as [|a x IH]; intros [|b y]; try reflexivity.
  cbn [zip_with map]. rewrite IH. f_equal. lia.
Qed.

(** A difference whose absolute value is an [int] can be taken the
    other way round. *)
Lemma diff_sym_range :
  forall x y : list Z,
    Forall int_range (map Z.abs (zip_with Z.sub x y)) ->
    Forall int_range (zip_with Z.sub y x).
Proof.
  induction x as [|a x IH]; intros [|b y] H; try constructor.
  - cbn [zip_with map] in H. inversion H; subst.
    unfold int_range in *. lia.
  - apply IH. cbn [zip_with map] in H. inversion H; subst. assumption.
Qed.

Lemma genotype_diff_range :
  forall a b : RowVectorXb,
    Forall int_range (zip_with Z.sub (genotype_ints a) (genotype_ints b)) /\
    Forall int_range
           (map Z.abs
                (zip_with Z.sub (genotype_ints a) (genotype_ints b))).
Proof.
  unfold genotype_ints.
  induction a as [|u a IH]; intros [|v b]; cbn [map zip_with];
    try (split; constructor).
  - destruct u, v; unfold int_range; simpl; lia.
  - apply IH.
  - destruct u, v; unfold int_range; simpl; lia.
  - apply IH.
Qed.

Lemma genotype_abs_sum :
  forall a b : RowVectorXb,
    fold_right Z.add 0%Z
               (map Z.abs
                    (zip_with Z.sub (genotype_ints a) (genotype_ints b))) =
    Z.of_nat (nth 0 (hamming_dist_mat [a] b) 0).
Proof.
  unfold genotype_ints.
  induction a as [|u a IH]; intros [|v b]; try reflexivity.
  cbn [map zip_with fold_right].
  rewrite hamming_dist_mat_one_cons, IH, Nat2Z.inj_add.
  f_equal. destruct u, v; reflexivity.
Qed.

(** X6.  [hamming_dist] takes two [int] vectors of one size and has a
    result when nothing it computes leaves the range of an [int].  The
    result is then a distance: it is not negative, it is the same with
    the arguments exchanged, and it is 0 exactly when the two vectors are
    equal.  A vector is at distance 0 of itself.  On two genotypes
    written with 0s and 1s, of fewer than 2^31 events, the result is the
    coefficient that [hamming_dist_mat] computes for them, the number of
    events on which they differ.  On [2147483647] and [-1], whose
    difference is no [int], there is no result. *)
Theorem hamming_dist_properties :
  (forall (x y : list Z) (d : Z),
      length x = length y -> Forall int_range x -> Forall int_range y ->
      hamming_dist x y = Some d ->
      (0 <= d < 2 ^ 31)%Z /\
      hamming_dist y x = Some d /\
      (d = 0%Z <-> x = y)) /\
  (forall x : list Z,
      Forall int_range x -> hamming_dist x x = Some 0%Z) /\
  (forall a b : RowVectorXb,
      length a = length b -> (Z.of_nat (length a) < 2 ^ 31)%Z ->
      hamming_dist (genotype_ints a) (genotype_ints b) =
      Some (Z.of_nat (nth 0 (hamming_dist_mat [a] b) 0))) /\
  hamming_dist [2147483647%Z] [(-1)%Z] = None.
Proof.
  split; [|split; [|split]].
  - intros x y d Hlen _ _ H.
    apply hamming_dist_Some in H. destruct H as [H1 [H2 [H3 H4]]].
    split; [|split].
    + pose proof (abs_sum_nonneg (zip_with Z.sub x y)) as Hnn.
      unfold int_range in H3. lia.
    + apply hamming_dist_Some. rewrite abs_diff_sym.
      repeat split; try assumption; try apply H3.
      apply diff_sym_range. assumption.
    + rewrite H4. apply abs_sum_zero. assumption.
  - intros x _. apply hamming_dist_Some.
    assert (Hz : forall l : list Z, zip_with Z.sub l l = map (fun _ => 0%Z) l).
    { induction l as [|a l IH]; [reflexivity|].
      cbn [zip_with map]. rewrite IH. f_equal. lia. }
    rewrite Hz, map_map.
    assert (Hs : forall l : list Z,
               fold_right Z.add 0%Z (map (fun _ : Z => Z.abs 0) l) = 0%Z).
    { induction l as [|a l IH]; [reflexivity|].
      cbn [map fold_right]. rewrite IH. reflexivity. }
    rewrite Hs. repeat split; try (unfold int_range; lia);
      rewrite Forall_map; apply Forall_forall; intros z _;
      unfold int_range; simpl; lia.
  - intros a b Hlen Hp. apply hamming_dist_Some.
    destruct (genotype_diff_range a b) as [H1 H2].
    rewrite genotype_abs_sum.
    assert (Hle : nth 0 (hamming_dist_mat [a] b) 0 <= length a).
    { rewrite (nth_hamming_dist_mat 1 (length a) [a] b 0
                 (has_shape_one _ (length a) a eq_refl))
        by (try symmetry; try assumption; lia).
      apply Hamming_le. }
    split; [assumption|]. split; [assumption|].
    split; [unfold int_range; lia | reflexivity].
  - reflexivity.
Qed.

(** Two genotypes of three events that differ on one of them. *)
Lemma hamming_dist_properties_witness :
  hamming_dist (genotype_ints [true; false; true])
               (genotype_ints [true; true; true]) =
  Some (Z.of_nat (nth 0 (hamming_dist_mat [[true; false; true]]
                                          [true; true; true]) 0)) /\
  hamming_dist [1; 1; 1]%Z [1; 0; 1]%Z = Some 1%Z.
Proof.
  destruct hamming_dist_properties as [Hint [_ [Hbool _]]].
  split.
  - apply (Hbool [true; false; true] [true; true; true]).
    + reflexivity.
    + simpl. lia.
  - apply (Hint [1; 0; 1]%Z [1; 1; 1]%Z 1%Z).
    + reflexivity.
    + repeat constructor; unfold int_range; lia.
    + repeat constructor; unfold int_range; lia.
    + reflexivity.
Defined.

(** ** The simulator: compatible genotypes, shapes, sampling times *)

Lemma sample_genotypes_fields :
  forall `{RT : Runtime} (N : nat) (model : Model) (T_events : MatrixXd)
         (T_sampling : VectorXd) (g : rng_type) (avail : bool),
    let sim := sample_genotypes N model T_events T_sampling g avail in
    let drawn := draw_T_events N model T_events g in
    let times :=
      if avail then (T_sampling, snd drawn)
      else rexp_std N (get_lambda_s model) (snd drawn) in
    sim_T_events sim = fst drawn /\
    sim_T_sampling sim = fst times /\
    sim_rng sim = snd times /\
    sim_T_events_sum sim =
      fst (sample_loop N model (fst drawn) (fst times)) /\
    sim_obs sim = snd (sample_loop N model (fst drawn) (fst times)).
Proof.
  intros RT N model T_events T_sampling g avail. cbv zeta.
  unfold sample_genotypes.
  destruct (draw_T_events N model T_events g) as [T1 g1]. cbn [fst snd].
  destruct avail; cbn [negb].
  - cbn [fst snd]. destruct (sample_loop N model T1 T_sampling) as [S obs].
    repeat split.
  - destruct (rexp_std N (get_lambda_s model) g1) as [Ts g2]. cbn [fst snd].
    destruct (sample_loop N model T1 Ts) as [S obs]. repeat split.
Qed.

Lemma parents_first_parent :
  forall (E : edge_container) (todo done : list Node) (u v : Node),
    parents_first E done todo -> In v todo -> In (u, v) E ->
    In u (done ++ todo).
Proof.
  intros E todo. induction todo as [|x todo IH]; intros done u v Hpf Hv Hu.
  - destruct Hv.
  - destruct Hpf as [Hx Hrest]. destruct Hv as [->|Hv].
    + apply in_or_app. left. apply Hx. assumption.
    + specialize (IH (x :: done) u v Hrest Hv Hu).
      apply in_app_or in IH. apply in_or_app.
      destruct IH as [[->|H]|H]; [right; left; reflexivity | left | right; right];
        assumption.
Qed.

Lemma topo_path_ok_parent :
  forall (m : Model) (u v : Node),
    topo_path_ok m -> v < size m -> In (u, v) (edges (poset m)) ->
    u < size m.
Proof.
  intros m u v [_ [Hcover Hpf]] Hv Hu.
  apply Hcover. apply in_rev.
  apply (parents_first_parent _ _ [] u v Hpf); [|assumption].
  apply in_rev. rewrite rev_involutive. apply Hcover. assumption.
Qed.

Lemma leb_Fin_le :
  forall (a b : R) (t : double),
    (a <= b)%R -> Dbl.leb (Fin b) t = true -> Dbl.leb (Fin a) t = true.
Proof.
  intros a b [r| | |] Hab; unfold Dbl.leb; try (intros; assumption).
  destruct (Rle_dec b r); [|discriminate]. intros _.
  destruct (Rle_dec a r); [reflexivity | lra].
Qed.

Lemma leb_Fin_trans :
  forall (s : R) (t1 t2 : double),
    Dbl.leb (Fin s) t1 = true -> Dbl.leb t1 t2 = true ->
    Dbl.leb (Fin s) t2 = true.
Proof.
  intros s [a| | |] [b| | |]; unfold Dbl.leb; try (intros; congruence).
  destruct (Rle_dec s a); [|discriminate].
  destruct (Rle_dec a b); [|discriminate].
  destruct (Rle_dec s b); [reflexivity | lra].
Qed.

(** X7.  Every genotype that [sample_genotypes] returns is compatible
    with the poset: on a model whose [topo_path] lists the events parents
    first and whose rates are positive, an event that has occurred in a
    sample has all its parents occurred in that sample. *)
Theorem sample_genotypes_compatible :
  forall `{RT : Runtime} (N : nat) (model : Model) (T_events : MatrixXd)
         (T_sampling : VectorXd) (rng : rng_type)
         (sampling_times_available : bool),
    topo_path_ok model -> rates_ok model ->
    has_shape N (size model) T_events ->
    let sim := sample_genotypes N model T_events T_sampling rng
                                sampling_times_available in
    forall i u v,
      i < N -> v < size model -> In (u, v) (edges (poset model)) ->
      coeff false (sim_obs sim) i v = true ->
      coeff false (sim_obs sim) i u = true.
Proof.
  intros RT N model T_events T_sampling g avail Htopo Hrates HT sim
         i u v Hi Hv Huv Hobs.
  pose proof (topo_path_ok_parent model u v Htopo Hv Huv) as Hu.
  destruct (sample_genotypes_recurrence N model T_events T_sampling g avail
              Htopo Hrates HT) as [_ Hrec].
  fold sim in Hrec.
  destruct (Hrec i v Hi Hv) as [Hokv Hedge].
  destruct (Hrec i u Hi Hu) as [Hoku _].
  destruct (Hedge u Huv) as [su [sv [Hsu [Hsv Hle]]]].
  destruct Hokv as [s [t [m [Hs [_ [_ [_ [_ [_ Hbit]]]]]]]]].
  destruct Hoku as [s' [t' [m' [Hs' [_ [_ [_ [_ [_ Hbit']]]]]]]]].
  rewrite Hbit'. rewrite Hbit in Hobs.
  rewrite Hs in Hsv. rewrite Hs' in Hsu.
  inversion Hsv; inversion Hsu; subst.
  apply leb_Fin_le with sv; assumption.
Qed.

Lemma chain_model_ok :
  forall eps : double,
    topo_path_ok (chain_model eps) /\ rates_ok (chain_model eps).
Proof.
  intros eps. unfold chain_model.
  assert (Hacyc : ~ has_directed_cycle chain_poset).
  { apply (@has_cycles_acyclic counter_runtime chain_poset (Fin 1)
             (@build_model counter_runtime chain_poset (Fin 1)) eq_refl).
    reflexivity. }
  assert (Hpos : Forall positive [Fin 2; Fin 2; Fin 2]).
  { repeat constructor; (eexists; split; [reflexivity | lra]). }
  destruct (@entry_model_ok counter_runtime chain_poset (Fin 1)
              [Fin 2; Fin 2; Fin 2]
              (set_epsilon
                 (set_lambda (@build_model counter_runtime chain_poset (Fin 1))
                             [Fin 2; Fin 2; Fin 2]) eps)
              eq_refl eq_refl eq_refl Hacyc eq_refl Hpos) as [_ H].
  exact H.
Qed.

(** Two samples of the chain [0 -> 1 -> 2]: event 1 occurs only where
    event 0 has. *)
Lemma sample_genotypes_compatible_witness :
  let model := chain_model (Fin 0) in
  let sim :=
    @sample_genotypes counter_runtime 2 model
                      (repeat (repeat Dbl.zero 3) 2) [] 0 false in
  In (0, 1) (edges (poset model)) /\
  (coeff false (sim_obs sim) 1 1 = true ->
   coeff false (sim_obs sim) 1 0 = true).
Proof.
  intros model sim.
  assert (Hedge : In (0, 1) (edges (poset model))) by (simpl; auto).
  split; [exact Hedge|].
  destruct (chain_model_ok (Fin 0)) as [Htopo Hrates].
  apply (@sample_genotypes_compatible counter_runtime 2 model
           (repeat (repeat Dbl.zero 3) 2) [] 0 false Htopo Hrates
           (has_shape_repeat _ 2 3 Dbl.zero) 1 0 1);
    [lia | simpl; lia | exact Hedge].
Defined.

(** X8.  What [sample_genotypes] hands back on a model with positive
    rates and a positive sampling rate: [N] genotypes of [p] events, an
    [N x p] matrix of waiting times that are finite and not negative,
    and [N] sampling times, which are the ones supplied, untouched, when
    [sampling_times_available], and [N] fresh ones, finite and not
    negative, otherwise. *)
Theorem sample_genotypes_shapes :
  forall `{RT : Runtime} (N : nat) (model : Model) (T_events : MatrixXd)
         (T_sampling : VectorXd) (rng : rng_type)
         (sampling_times_available : bool),
    rates_ok model -> positive (get_lambda_s model) ->
    has_shape N (size model) T_events ->
    let sim := sample_genotypes N model T_events T_sampling rng
                                sampling_times_available in
    has_shape N (size model) (sim_obs sim) /\
    has_shape N (size model) (sim_T_events sim) /\
    (forall i j, i < N -> j < size model ->
                 nonneg (coeff Dbl.zero (sim_T_events sim) i j)) /\
    (sampling_times_available = true -> sim_T_sampling sim = T_sampling) /\
    (sampling_times_available = false ->
     length (sim_T_sampling sim) = N /\
     Forall nonneg (sim_T_sampling sim)).
Proof.
  intros RT N model T_events T_sampling g avail Hrates Hls HT sim.
  destruct (sample_genotypes_fields N model T_events T_sampling g avail)
    as [HTe [HTs _]].
  fold sim in HTe, HTs.
  destruct (draw_T_events_spec N model T_events g Hrates HT) as [Hshape Hnn].
  split; [apply sample_genotypes_shape|].
  rewrite HTe. split; [exact Hshape|]. split; [exact Hnn|].
  rewrite HTs. split.
  - intros ->. reflexivity.
  - intros ->. split; [apply rexp_std_length|].
    apply rexp_std_nonneg. assumption.
Qed.

(** Two samples of the chain [0 -> 1 -> 2] with fresh sampling times. *)
Lemma sample_genotypes_shapes_witness :
  let sim :=
    @sample_genotypes counter_runtime 2 (chain_model (Fin 0))
                      (repeat (repeat Dbl.zero 3) 2) [] 0 false in
  has_shape 2 3 (sim_obs sim) /\
  has_shape 2 3 (sim_T_events sim) /\
  length (sim_T_sampling sim) = 2.
Proof.
  intros sim.
  destruct (chain_model_ok (Fin 0)) as [_ Hrates].
  destruct (@sample_genotypes_shapes counter_runtime 2 (chain_model (Fin 0))
              (repeat (repeat Dbl.zero 3) 2) [] 0 false Hrates)
    as [H1 [H2 [_ [_ H3]]]].
  - exists 1%R. split; [reflexivity | lra].
  - apply has_shape_repeat.
  - split; [exact H1|]. split; [exact H2|].
    apply H3. reflexivity.
Defined.

Lemma fold_left_related :
  forall (A B : Type) (Rel : A -> A -> Prop) (f1 f2 : A -> B -> A)
         (l : list B),
    (forall a a' x, Rel a a' -> Rel (f1 a x) (f2 a' x)) ->
    forall a a', Rel a a' -> Rel (fold_left f1 l a) (fold_left f2 l a').
Proof.
  intros A B Rel f1 f2 l Hstep.
  induction l as [|x l IH]; intros a a' H; simpl; [assumption|].
  apply IH. apply Hstep. assumption.
Qed.

(** The occurrence times [sample_loop] computes do not depend on the
    sampling times. *)
Lemma sample_loop_times :
  forall `{RT : Runtime} (N : nat) (model : Model) (T_events : MatrixXd)
         (T1 T2 : VectorXd),
    fst (sample_loop N model T_events T1) =
    fst (sample_loop N model T_events T2).
Proof.
  intros RT N model T_events T1 T2. unfold sample_loop.
  apply (fold_left_related _ _ (fun a a' : MatrixXd * MatrixXb => fst a = fst a'));
    [|reflexivity].
  intros a a' v Ha.
  apply (fold_left_related _ _ (fun a a' : MatrixXd * MatrixXb => fst a = fst a'));
    [|assumption].
  intros [S obs] [S' obs'] i HS. cbn [fst] in HS. subst S'.
  unfold sample_cell. reflexivity.
Qed.

(** X9.  With supplied sampling times the waiting times that
    [sample_genotypes] draws, and the generator it leaves, do not depend
    on those times, and a later sampling time can only add events: an
    event observed in sample [i] at the time [T1(i)] is observed in
    sample [i] at any time [T2(i) >= T1(i)]. *)
Theorem sample_genotypes_later_sampling :
  forall `{RT : Runtime} (N : nat) (model : Model) (T_events : MatrixXd)
         (T1 T2 : VectorXd) (rng : rng_type),
    topo_path_ok model -> rates_ok model ->
    has_shape N (size model) T_events ->
    (forall i, i < N -> Dbl.leb (nth i T1 NaN) (nth i T2 NaN) = true) ->
    let sim1 := sample_genotypes N model T_events T1 rng true in
    let sim2 := sample_genotypes N model T_events T2 rng true in
    sim_T_events sim1 = sim_T_events sim2 /\
    sim_rng sim1 = sim_rng sim2 /\
    forall i v, i < N -> v < size model ->
      coeff false (sim_obs sim1) i v = true ->
      coeff false (sim_obs sim2) i v = true.
Proof.
  intros RT N model T_events T1 T2 g Htopo Hrates HT Hle sim1 sim2.
  destruct (sample_genotypes_fields N model T_events T1 g true)
    as [He1 [Hs1 [Hg1 [HS1 _]]]].
  destruct (sample_genotypes_fields N model T_events T2 g true)
    as [He2 [Hs2 [Hg2 [HS2 _]]]].
  fold sim1 in He1, Hs1, Hg1, HS1. fold sim2 in He2, Hs2, Hg2, HS2.
  cbn [fst snd] in *.
  split; [congruence|]. split; [congruence|].
  intros i v Hi Hv Hobs.
  destruct (sample_genotypes_recurrence N model T_events T1 g true
              Htopo Hrates HT) as [_ Hrec1].
  destruct (sample_genotypes_recurrence N model T_events T2 g true
              Htopo Hrates HT) as [_ Hrec2].
  fold sim1 in Hrec1. fold sim2 in Hrec2.
  destruct (Hrec1 i v Hi Hv) as [[s1 [t1 [m1 H1]]] _].
  destruct (Hrec2 i v Hi Hv) as [[s2 [t2 [m2 H2]]] _].
  destruct H1 as [Hc1 [_ [_ [_ [_ [_ Hb1]]]]]].
  destruct H2 as [Hc2 [_ [_ [_ [_ [_ Hb2]]]]]].
  rewrite Hb2. rewrite Hb1 in Hobs.
  assert (Hsame : s1 = s2).
  { rewrite HS1 in Hc1. rewrite HS2 in Hc2.
    rewrite (sample_loop_times N model (fst (draw_T_events N model T_events g))
                               T1 T2) in Hc1.
    rewrite Hc1 in Hc2. inversion Hc2. reflexivity. }
  subst s2. rewrite Hs1 in Hobs. rewrite Hs2.
  apply leb_Fin_trans with (nth i T1 NaN); [assumption | apply Hle; assumption].
Qed.

(** Two samples of the chain [0 -> 1 -> 2], read at the times 1 and 2
    and then at the times 3 and 4. *)
Lemma sample_genotypes_later_sampling_witness :
  let sim1 :=
    @sample_genotypes counter_runtime 2 (chain_model (Fin 0))
                      (repeat (repeat Dbl.zero 3) 2) [Fin 1; Fin 2] 0 true in
  let sim2 :=
    @sample_genotypes counter_runtime 2 (chain_model (Fin 0))
                      (repeat (repeat Dbl.zero 3) 2) [Fin 3; Fin 4] 0 true in
  sim_T_events sim1 = sim_T_events sim2 /\
  (coeff false (sim_obs sim1) 0 0 = true ->
   coeff false (sim_obs sim2) 0 0 = true).
Proof.
  intros sim1 sim2.
  destruct (chain_model_ok (Fin 0)) as [Htopo Hrates].
  destruct (@sample_genotypes_later_sampling counter_runtime 2
              (chain_model (Fin 0)) (repeat (repeat Dbl.zero 3) 2)
              [Fin 1; Fin 2] [Fin 3; Fin 4] 0 Htopo Hrates
              (has_shape_repeat _ 2 3 Dbl.zero))
    as [H1 [_ H2]].
  - intros [|[|i]] Hi; [| |lia]; simpl; unfold Dbl.leb;
      match goal with |- context [Rle_dec ?a ?b] =>
        destruct (Rle_dec a b); [reflexivity | lra] end.
  - split; [exact H1|]. apply H2; simpl; lia.
Defined.

(** ** What the simulator overwrites *)

Lemma matrix_ext :
  forall (N p : nat) (M M' : MatrixXd),
    has_shape N p M -> has_shape N p M' ->
    (forall i j, i < N -> j < p ->
                 coeff Dbl.zero M i j = coeff Dbl.zero M' i j) ->
    M = M'.
Proof.
  intros N p M M' HM HM' Hc.
  apply nth_ext with (d := []) (d' := []).
  - destruct HM as [H _], HM' as [H' _]. congruence.
  - intros i Hi. assert (HiN : i < N) by (destruct HM as [H _]; lia).
    apply nth_ext with (d := Dbl.zero) (d' := Dbl.zero).
    + rewrite (has_shape_row _ N p M i HM HiN).
      rewrite (has_shape_row _ N p M' i HM' HiN). reflexivity.
    + intros j Hj. rewrite (has_shape_row _ N p M i HM HiN) in Hj.
      apply Hc; assumption.
Qed.

Lemma draw_T_events_overwrites :
  forall `{RT : Runtime} (N : nat) (m : Model) (T T' : MatrixXd)
         (g : rng_type),
    has_shape N (size m) T -> has_shape N (size m) T' ->
    draw_T_events N m T g = draw_T_events N m T' g.
Proof.
  intros RT N m T T' g HT HT'. unfold draw_T_events.
  set (step := fun (acc : MatrixXd * rng_type) j =>
                 let (T, rng1) := rexp_std N (get_lambda_at m j) (snd acc) in
                 (set_col (fst acc) j T, rng1)).
  assert (H : forall k,
             let r := fold_left step (seq 0 k) (T, g) in
             let r' := fold_left step (seq 0 k) (T', g) in
             snd r = snd r' /\
             has_shape N (size m) (fst r) /\
             has_shape N (size m) (fst r') /\
             forall i j, i < N -> j < k ->
               coeff Dbl.zero (fst r) i j = coeff Dbl.zero (fst r') i j).
  { induction k as [|k IH].
    - simpl. split; [reflexivity|]. split; [assumption|].
      split; [assumption|]. intros; lia.
    - cbv zeta in *. rewrite seq_S, !fold_left_app. simpl.
      destruct IH as [Hg [Hs [Hs' Hc]]].
      destruct (fold_left step (seq 0 k) (T, g)) as [T1 g1].
      destruct (fold_left step (seq 0 k) (T', g)) as [T1' g1'].
      cbn [fst snd] in *. subst g1'. unfold step. cbn [fst snd].
      pose proof (rexp_std_length N (get_lambda_at m k) g1) as Hlen.
      destruct (rexp_std N (get_lambda_at m k) g1) as [Tk g2].
      cbn [fst snd] in *.
      split; [reflexivity|].
      split; [apply has_shape_set_col; assumption|].
      split; [apply has_shape_set_col; assumption|].
      intros i j Hi Hj.
      destruct (Nat.eq_dec j k) as [->|Hne].
      + destruct (Nat.lt_ge_cases k (size m)) as [Hk|Hk].
        * rewrite !(coeff_set_col_eq N (size m)) by assumption.
          reflexivity.
        * unfold coeff.
          rewrite !nth_overflow; [reflexivity | |].
          -- rewrite (has_shape_row _ N (size m) _ i
                        (has_shape_set_col N (size m) T1' k Tk Hs' Hlen) Hi).
             assumption.
          -- rewrite (has_shape_row _ N (size m) _ i
                        (has_shape_set_col N (size m) T1 k Tk Hs Hlen) Hi).
             assumption.
      + rewrite !(coeff_set_col_neq N (size m)) by assumption.
        apply Hc; lia. }
  specialize (H (size m)). cbv zeta in H.
  destruct H as [Hg [Hs [Hs' Hc]]].
  destruct (fold_left step (seq 0 (size m)) (T, g)) as [T1 g1].
  destruct (fold_left step (seq 0 (size m)) (T', g)) as [T1' g1'].
  cbn [fst snd] in *. f_equal; [|assumption].
  apply matrix_ext with N (size m); assumption.
Qed.

(** X23.  [sample_genotypes] overwrites every coefficient of the [N x p]
    matrix [T_events] it is handed and, unless the sampling times are
    supplied, the whole of [T_sampling]: what it returns and what it
    leaves in the two arguments and in the generator does not depend on
    what they held on entry.  The buffers that [importance_weight]
    passes without assigning them are never read. *)
Theorem sample_genotypes_overwrites :
  forall `{RT : Runtime} (N : nat) (model : Model) (T T' : MatrixXd)
         (Ts Ts' : VectorXd) (rng : rng_type),
    has_shape N (size model) T -> has_shape N (size model) T' ->
    sample_genotypes N model T Ts rng false =
      sample_genotypes N model T' Ts' rng false /\
    sample_genotypes N model T Ts rng true =
      sample_genotypes N model T' Ts rng true.
Proof.
  intros RT N model T T' Ts Ts' g HT HT'. unfold sample_genotypes.
  rewrite (draw_T_events_overwrites N model T T' g HT HT').
  split; reflexivity.
Qed.

(** A matrix of zeros and a matrix of ones, two samples of the chain
    [0 -> 1 -> 2]. *)
Lemma sample_genotypes_overwrites_witness :
  @sample_genotypes counter_runtime 2 (chain_model (Fin 0))
                    (repeat (repeat (Fin 0) 3) 2) [] 0 false =
  @sample_genotypes counter_runtime 2 (chain_model (Fin 0))
                    (repeat (repeat (Fin 1) 3) 2) [NaN; NaN] 0 false.
Proof.
  apply (@sample_genotypes_overwrites counter_runtime 2 (chain_model (Fin 0))
           (repeat (repeat (Fin 0) 3) 2) (repeat (repeat (Fin 1) 3) 2)
           [] [NaN; NaN] 0);
    apply has_shape_repeat.
Defined.

(** ** The batch entry point *)

Lemma obs_llhood_loop_cons :
  forall `{RT : Runtime} (model : Model) (obs : MatrixXb) (times : VectorXd)
         (L : nat) (sampling : string) (version : nat) (avail : bool)
         (thrds : nat) (default_rng : rng_type) (i : nat) (idxs : list nat)
         (rngs : list rng_type) (llhood : double),
    obs_llhood_loop model obs times L sampling version avail thrds
                    default_rng (i :: idxs) rngs llhood =
    obs_llhood_loop
      model obs times L sampling version avail thrds default_rng idxs
      (upd (omp_get_thread_num thrds (length obs) i)
           (snd (importance_weight
                   (nth i obs []) L model (nth i times NaN) sampling version
                   (nth (omp_get_thread_num thrds (length obs) i) rngs
                        default_rng) avail))
           rngs)
      (llhood +
       Dbl.log
         (vsum (w (fst (importance_weight
                          (nth i obs []) L model (nth i times NaN) sampling
                          version
                          (nth (omp_get_thread_num thrds (length obs) i) rngs
                               default_rng) avail))) /
          Dbl.of_nat L))%D.
Proof.
  intros. unfold obs_llhood_loop at 1.
  destruct (importance_weight _ _ _ _ _ _ _ _) as [s g1]. reflexivity.
Qed.

Section BatchProperties.

Context `{RT : Runtime}.

Variables (model : Model) (obs : MatrixXb) (times : VectorXd) (L : nat)
          (sampling : string) (version : nat)
          (sampling_times_available : bool) (thrds : nat)
          (default_rng : rng_type).

Lemma importance_weight_loop_length :
  forall (idxs : list nat) (rngs : list rng_type),
    length (importance_weight_loop model obs times L sampling version
                                   sampling_times_available thrds
                                   default_rng idxs rngs) = length idxs.
Proof.
  induction idxs as [|i idxs IH]; intros rngs; [reflexivity|].
  cbn [importance_weight_loop].
  destruct (importance_weight _ _ _ _ _ _ _ _) as [s g1].
  simpl. rewrite IH. reflexivity.
Qed.

Lemma importance_weight_loop_e_step :
  forall (idxs : list nat) (rngs : list rng_type),
    map (fun r : double * double * VectorXd => (snd (fst r), snd r))
        (importance_weight_loop model obs times L sampling version
                                sampling_times_available thrds default_rng
                                idxs rngs) =
    fst (e_step_loop model obs times L sampling version
                     sampling_times_available thrds default_rng idxs rngs).
Proof.
  induction idxs as [|i idxs IH]; intros rngs; [reflexivity|].
  cbn [importance_weight_loop e_step_loop].
  destruct (importance_weight _ _ _ _ _ _ _ _) as [s g1].
  specialize (IH (upd (omp_get_thread_num thrds (length obs) i) g1 rngs)).
  destruct (e_step_loop _ _ _ _ _ _ _ _ _ idxs _) as [rest rngs'].
  cbn [fst snd map] in *. rewrite IH. reflexivity.
Qed.

Lemma importance_weight_loop_llhood :
  forall (idxs : list nat) (rngs : list rng_type) (llhood : double),
    obs_llhood_loop model obs times L sampling version
                    sampling_times_available thrds default_rng idxs rngs
                    llhood =
    fold_left (fun ll s => ll + Dbl.log (s / Dbl.of_nat L))%D
              (map (fun r : double * double * VectorXd => fst (fst r))
                   (importance_weight_loop model obs times L sampling version
                                           sampling_times_available thrds
                                           default_rng idxs rngs))
              llhood.
Proof.
  induction idxs as [|i idxs IH]; intros rngs llhood; [reflexivity|].
  rewrite obs_llhood_loop_cons. cbn [importance_weight_loop].
  destruct (importance_weight _ _ _ _ _ _ _ _) as [s g1].
  cbn [fst snd map fold_left]. apply IH.
Qed.

End BatchProperties.

(** X12.  [_importance_weight] rejects a cyclic poset like the other
    entry points.  On any other poset it returns, per observation, the
    sum of the importance weights together with the two expectations
    that the E-step of [MCEM_hcbn] computes for the same model and the
    same seed, and [_obs_log_likelihood] on the same arguments is the sum
    over the observations of [log (w_sum / L)]. *)
Theorem importance_weight_batch :
  forall `{RT : Runtime} (obs : MatrixXb) (L : nat) (poset0 : MatrixXi)
         (lambda : VectorXd) (eps : double) (times : VectorXd)
         (sampling : string) (version : nat) (lambda_s : double)
         (sampling_times_available : bool) (thrds : nat) (seed : Z),
    let M :=
      has_cycles
        (set_epsilon (set_lambda (build_model poset0 lambda_s) lambda) eps) in
    match _importance_weight obs L poset0 lambda eps times sampling version
                             lambda_s sampling_times_available thrds seed
    with
    | Error err =>
        cycle M = true /\ err = NotAcyclic /\
        _obs_log_likelihood obs poset0 lambda eps times L sampling version
                            lambda_s sampling_times_available thrds seed =
          Error NotAcyclic
    | Ok (w_sum, expected_dist, expected_Tdiff) =>
        cycle M = false /\
        length w_sum = length obs /\
        (expected_dist, expected_Tdiff) =
          fst (e_step (topological_sort M) obs times L sampling version
                      sampling_times_available thrds (rng_seed seed)) /\
        _obs_log_likelihood obs poset0 lambda eps times L sampling version
                            lambda_s sampling_times_available thrds seed =
          Ok (fold_left (fun ll s => ll + Dbl.log (s / Dbl.of_nat L))%D
                        w_sum Dbl.zero)
    end.
Proof.
  intros RT obs L poset0 lambda eps times sampling version lambda_s avail
         thrds seed M.
  unfold _importance_weight, _obs_log_likelihood, obs_log_likelihood, e_step.
  fold M. destruct (cycle M) eqn:Hc.
  - repeat split.
  - cbn [rng Context_new].
    destruct (get_auxiliary_rngs thrds (rng_seed seed)) as [rngs g1].
    split; [reflexivity|]. split.
    { rewrite length_map, importance_weight_loop_length. apply length_seq. }
    split.
    { cbn [fst]. rewrite <- importance_weight_loop_e_step.
      rewrite !map_map. reflexivity. }
    rewrite importance_weight_loop_llhood. reflexivity.
Qed.

(** ** The E-step and the observed log-likelihood, observation by
       observation *)

Lemma forward_record :
  forall `{RT : Runtime} (genotype : RowVectorXb) (L : nat) (model : Model)
         (time : double) (version : nat) (g : rng_type) (avail : bool),
    let sim :=
      sample_genotypes L model (repeat (repeat uninit_double (size model)) L)
                       (if avail then repeat time L
                        else repeat uninit_double L) g avail in
    let dist' := hamming_dist_mat (sim_obs sim) genotype in
    importance_weight genotype L model time "forward" version g avail =
    ({| w := map (bernoulli_weight (get_epsilon model) (size model)) dist';
        dist := dist';
        Tdiff := sim_T_events sim |},
     sim_rng sim).
Proof. reflexivity. Qed.

Lemma hamming_dist_mat_le :
  forall (N p : nat) (x : MatrixXb) (y : RowVectorXb),
    has_shape N p x -> Forall (fun d => d <= p) (hamming_dist_mat x y).
Proof.
  intros N p x y [_ Hrows]. unfold hamming_dist_mat.
  generalize (repeat y (length x)). intros ys. revert ys.
  induction Hrows as [|row x Hrow Hrows IH]; intros [|y' ys]; simpl;
    try constructor.
  - eapply Nat.le_trans; [apply filter_length_le|].
    rewrite length_zip_with. lia.
  - apply IH.
Qed.

Lemma bernoulli_weight_range :
  forall (e : R) (p d : nat),
    (0 <= e <= 1)%R ->
    (0 <= e ^ d * (1 - e) ^ (p - d) <= 1)%R /\
    ((0 < e < 1)%R -> (0 < e ^ d * (1 - e) ^ (p - d))%R).
Proof.
  intros e p d He.
  assert (H1 : (0 <= e ^ d <= 1)%R).
  { split; [apply pow_le; lra|].
    apply Rle_trans with (1 ^ d)%R; [apply pow_incr; lra|].
    rewrite pow1. lra. }
  assert (H2 : (0 <= (1 - e) ^ (p - d) <= 1)%R).
  { split; [apply pow_le; lra|].
    apply Rle_trans with (1 ^ (p - d))%R; [apply pow_incr; lra|].
    rewrite pow1. lra. }
  split; [nra|]. intros He'.
  apply Rmult_lt_0_compat; apply pow_lt; lra.
Qed.


Lemma nonneg_reals :
  forall l : list double,
    Forall nonneg l ->
    exists rs : list R, l = map Fin rs /\ Forall (fun t => 0 <= t)%R rs.
Proof.
  intros l H. induction H as [|x l [r [-> Hr]] Hl [rs [-> Hrs]]].
  - exists []. split; [reflexivity | constructor].
  - exists (r :: rs). split; [reflexivity | constructor; assumption].
Qed.

Lemma nonneg_matrix_reals :
  forall (N p : nat) (M : MatrixXd),
    has_shape N p M ->
    (forall i j, i < N -> j < p -> nonneg (coeff Dbl.zero M i j)) ->
    exists ts : list (list R),
      M = map (map Fin) ts /\ Forall (Forall (fun t => 0 <= t)%R) ts.
Proof.
  intros N p M [HN Hrows] Hnn.
  assert (H : Forall (Forall nonneg) M).
  { apply Forall_forall. intros row Hrow.
    destruct (In_nth M row [] Hrow) as [i [Hi Hnth]].
    apply Forall_forall. intros x Hx.
    destruct (In_nth row x Dbl.zero Hx) as [j [Hj Hnthj]].
    rewrite Forall_forall in Hrows. specialize (Hrows row Hrow).
    specialize (Hnn i j ltac:(lia) ltac:(lia)).
    unfold coeff in Hnn. rewrite Hnth, Hnthj in Hnn. exact Hnn. }
  clear HN Hrows Hnn.
  induction H as [|row M Hrow HM [ts [-> Hts]]].
  - exists []. split; [reflexivity | constructor].
  - destruct (nonneg_reals row Hrow) as [rs [-> Hrs]].
    exists (rs :: ts). split; [reflexivity | constructor; assumption].
Qed.

Lemma log_ratio :
  forall (s : R) (L : nat),
    0 < L -> (0 <= s <= INR L)%R ->
    (s = 0%R /\ Dbl.log (Fin s / Dbl.of_nat L) = NInf) \/
    ((0 < s)%R /\
     exists x : R, Dbl.log (Fin s / Dbl.of_nat L) = Fin x /\ (x <= 0)%R).
Proof.
  intros s L HL Hs.
  assert (HLr : (0 < INR L)%R) by (apply lt_0_INR; assumption).
  unfold Dbl.of_nat. rewrite div_Fin by lra.
  destruct (Req_dec_T s 0) as [->|Hne].
  - left. split; [reflexivity|]. unfold Dbl.log.
    destruct (total_order_T 0 (0 / INR L)) as [[H|H]|H];
      [|reflexivity|]; exfalso; unfold Rdiv in H; rewrite Rmult_0_l in H; lra.
  - right. split; [lra|].
    assert (Hq : (0 < s / INR L <= 1)%R).
    { split.
      - apply Rdiv_lt_0_compat; lra.
      - apply Rmult_le_reg_r with (INR L); [assumption|].
        unfold Rdiv. rewrite Rmult_assoc, Rinv_l by lra. lra. }
    rewrite log_Fin_pos by lra. eexists. split; [reflexivity|].
    destruct (Req_dec_T (s / INR L) 1) as [->|Hne1].
    + rewrite ln_1. lra.
    + rewrite <- ln_1. apply Rlt_le. apply ln_increasing; lra.
Qed.

(** What the E-step computes from a record with weights in [0, 1]. *)
Lemma expectation_of_record :
  forall (L p : nat) (s : DataImportanceSampling),
    record_ok L p s ->
    expectation_ok L p (vsum (w s), fst (expected_statistics p s),
                        snd (expected_statistics p s)).
Proof.
  intros L p [w0 d0 T0] [wr [ts [Hw [HL [Hwr [Hd [HT Hts]]]]]]].
  cbn [w dist Tdiff] in *. subst w0 T0.
  assert (Hnn : Forall (fun x => 0 <= x)%R wr).
  { eapply Forall_impl; [|exact Hwr]. intros x Hx. cbv beta in Hx. lra. }
  pose proof (Rsum_le_length wr 1 Hwr) as Hsum.
  rewrite HL, Rmult_1_r in Hsum.
  unfold expectation_ok. cbn [fst snd].
  split; [|split; [|split]].
  - exists (Rsum wr). split; [apply vsum_Fin | exact Hsum].
  - unfold expected_statistics, transpose_mat_vec. cbn [snd].
    rewrite !length_map. apply length_seq.
  - intros Hz. rewrite vsum_Fin in Hz. inversion Hz as [Hz'].
    apply Rsum_zero_all_zero in Hz'; [|assumption].
    assert (Hall : Forall (fun x => x = Dbl.zero) (map Fin wr)).
    { rewrite Forall_map. eapply Forall_impl; [|exact Hz'].
      intros x ->. reflexivity. }
    unfold expected_statistics. cbn [fst w dist Tdiff].
    rewrite dot_all_zero, vsum_all_zero by assumption.
    apply zero_div_zero.
  - intros Hnz.
    assert (Hpos : (0 < Rsum wr)%R).
    { destruct (Req_dec_T (Rsum wr) 0) as [H0|H0]; [|lra].
      exfalso. apply Hnz. rewrite vsum_Fin, H0. reflexivity. }
    destruct (expected_statistics_range p wr d0 ts Hnn Hpos Hd Hts)
      as [[x [Hx Hxr]] [row [Hrow [Hlen Hrnn]]]].
    split; [exists x; split; [assumption | lra]|].
    rewrite Hrow. rewrite Forall_map. eapply Forall_impl; [|exact Hrnn].
    intros t Ht. exists t. split; [reflexivity | assumption].
Qed.

(** The record of one observation under forward sampling. *)
Lemma forward_record_ok :
  forall `{RT : Runtime} (genotype : RowVectorXb) (L : nat) (model : Model)
         (time : double) (version : nat) (g : rng_type) (avail : bool)
         (e : R),
    rates_ok model -> get_epsilon model = Fin e -> (0 <= e <= 1)%R ->
    record_ok L (size model)
              (fst (importance_weight genotype L model time "forward"
                                      version g avail)).
Proof.
  intros RT genotype L model time version g avail e Hrates Heps He.
  rewrite forward_record. cbn [fst]. rewrite Heps.
  match goal with
  | |- context [sim_obs (sample_genotypes L model ?T0 ?Ts0 g avail)] =>
      pose proof (sample_genotypes_shape L model T0 Ts0 g avail) as Hobs;
      destruct (sample_genotypes_fields L model T0 Ts0 g avail) as [HTe _];
      set (sim := sample_genotypes L model T0 Ts0 g avail) in *
  end.
  destruct (draw_T_events_spec L model
              (repeat (repeat uninit_double (size model)) L) g Hrates
              (has_shape_repeat _ L (size model) uninit_double))
    as [Hshape Hnn].
  rewrite <- HTe in Hshape, Hnn.
  destruct (nonneg_matrix_reals L (size model) (sim_T_events sim) Hshape Hnn)
    as [ts [Hts Htsnn]].
  exists (map (fun d => e ^ d * (1 - e) ^ (size model - d))%R
              (hamming_dist_mat (sim_obs sim) genotype)), ts.
  cbn [w dist Tdiff].
  split.
  { rewrite map_map. apply map_ext. intros d. apply bernoulli_weight_Fin. }
  split.
  { rewrite length_map, length_hamming_dist_mat. apply Hobs. }
  split.
  { rewrite Forall_map. apply Forall_forall. intros d _.
    apply (bernoulli_weight_range e (size model) d). assumption. }
  split; [apply hamming_dist_mat_le with L; assumption|].
  split; assumption.
Qed.

Section RecordsInRange.

Context `{RT : Runtime}.

Variables (model : Model) (obs : MatrixXb) (times : VectorXd) (L : nat)
          (sampling : string) (version : nat)
          (sampling_times_available : bool) (thrds : nat).

Hypothesis Hrecord :
  forall (genotype : RowVectorXb) (time : double) (g : rng_type),
    record_ok L (size model)
              (fst (importance_weight genotype L model time sampling version
                                      g sampling_times_available)).

Lemma importance_weight_loop_expectations :
  forall (default_rng : rng_type) (idxs : list nat) (rngs : list rng_type),
    Forall (expectation_ok L (size model))
           (importance_weight_loop model obs times L sampling version
                                   sampling_times_available thrds
                                   default_rng idxs rngs).
Proof.
  intros default_rng. induction idxs as [|i idxs IH]; intros rngs;
    [constructor|].
  cbn [importance_weight_loop].
  pose proof (Hrecord (nth i obs []) (nth i times NaN)
                      (nth (omp_get_thread_num thrds (length obs) i) rngs
                           default_rng)) as Hs.
  destruct (importance_weight _ _ _ _ _ _ _ _) as [s g1].
  cbn [fst] in Hs. constructor; [|apply IH].
  apply (expectation_of_record L (size model) s Hs).
Qed.

(** The E-step row by row. *)
Lemma e_step_rows :
  forall rng0 : rng_type,
    let aux := get_auxiliary_rngs thrds rng0 in
    let rows :=
      importance_weight_loop model obs times L sampling version
                             sampling_times_available thrds (snd aux)
                             (seq 0 (length obs)) (fst aux) in
    let r := e_step model obs times L sampling version
                    sampling_times_available thrds rng0 in
    fst (fst r) = map (fun row => snd (fst row)) rows /\
    snd (fst r) = map snd rows /\
    length rows = length obs /\
    Forall (expectation_ok L (size model)) rows.
Proof.
  intros rng0 aux rows r. subst aux rows r. unfold e_step.
  destruct (get_auxiliary_rngs thrds rng0) as [rngs g1]. cbn [fst snd].
  rewrite <- importance_weight_loop_e_step, !map_map. cbn [fst snd].
  split; [reflexivity|]. split; [reflexivity|].
  split; [rewrite importance_weight_loop_length; apply length_seq|].
  apply importance_weight_loop_expectations.
Qed.

End RecordsInRange.

Section WeightSumsInRange.

Context `{RT : Runtime}.

Variables (model : Model) (obs : MatrixXb) (times : VectorXd) (L : nat)
          (sampling : string) (version : nat)
          (sampling_times_available : bool) (thrds : nat).

Hypothesis Hsum :
  forall (genotype : RowVectorXb) (time : double) (g : rng_type),
    exists r : R,
      vsum (w (fst (importance_weight genotype L model time sampling
                                      version g sampling_times_available))) =
      Fin r /\ (0 <= r <= INR L)%R.

(** The observed log-likelihood sum by sum. *)
Lemma obs_llhood_loop_sign :
  0 < L ->
  forall (default_rng : rng_type) (idxs : list nat) (rngs : list rng_type)
         (llhood : double),
    llhood = NInf \/ (exists x : R, llhood = Fin x /\ (x <= 0)%R) ->
    let rows :=
      importance_weight_loop model obs times L sampling version
                             sampling_times_available thrds default_rng
                             idxs rngs in
    let r := obs_llhood_loop model obs times L sampling version
                             sampling_times_available thrds default_rng
                             idxs rngs llhood in
    (r = NInf \/ exists x : R, r = Fin x /\ (x <= 0)%R) /\
    (llhood = NInf \/ Exists (fun row => fst (fst row) = Fin 0) rows ->
     r = NInf).
Proof.
  intros HL default_rng.
  induction idxs as [|i idxs IH]; intros rngs llhood Hll.
  - simpl. split; [exact Hll|]. intros [H|H]; [exact H | inversion H].
  - cbv zeta. rewrite obs_llhood_loop_cons. cbn [importance_weight_loop].
    pose proof (Hsum (nth i obs []) (nth i times NaN)
                     (nth (omp_get_thread_num thrds (length obs) i) rngs
                          default_rng)) as Hs.
    destruct (importance_weight _ _ _ _ _ _ _ _) as [s g1].
    cbn [fst snd] in *.
    destruct Hs as [ws [Hws Hrange]].
    rewrite Hws.
    set (ll' := (llhood + Dbl.log (Fin ws / Dbl.of_nat L))%D).
    assert (Hll' : (ll' = NInf \/ exists x : R, ll' = Fin x /\ (x <= 0)%R) /\
                   (llhood = NInf \/ ws = 0%R -> ll' = NInf)).
    { subst ll'.
      destruct (log_ratio ws L HL Hrange) as [[Hz Hlog]|[Hsp [x [Hlog Hx]]]];
        rewrite Hlog.
      - split.
        + left. destruct Hll as [->|[y [-> _]]]; reflexivity.
        + intros _. destruct Hll as [->|[y [-> _]]]; reflexivity.
      - split.
        + destruct Hll as [->|[y [-> Hy]]]; [left; reflexivity|].
          right. exists (y + x)%R. split; [reflexivity | lra].
        + intros [->|Hz]; [reflexivity | lra]. }
    destruct Hll' as [Hll1 Hll2].
    specialize (IH (upd (omp_get_thread_num thrds (length obs) i) g1 rngs)
                   ll' Hll1).
    cbv zeta in IH. destruct IH as [IH1 IH2].
    split; [exact IH1|].
    intros [H|H].
    + apply IH2. left. apply Hll2. left. exact H.
    + inversion H as [row rows Hrow|row rows Hrest]; subst.
      * cbn [fst] in Hrow. apply IH2. left. apply Hll2. right.
        inversion Hrow. reflexivity.
      * apply IH2. right. exact Hrest.
Qed.

End WeightSumsInRange.

(** X10.  Under forward sampling with an error rate in [0, 1] and
    positive rates, the E-step of [MCEM_hcbn] hands on, observation by
    observation, the two expectations of the loop of
    [_importance_weight].  For each observation the sum of the [L]
    importance weights is a number between 0 and [L], and it decides
    which: when it is 0 the expected distance is [0 / 0], NaN; otherwise
    the expected distance and the [p] expected waiting times are finite
    numbers that are not negative. *)
Theorem e_step_forward_ranges :
  forall `{RT : Runtime} (model : Model) (obs : MatrixXb) (times : VectorXd)
         (L : nat) (version : nat) (sampling_times_available : bool)
         (thrds : nat) (rng : rng_type) (e : R),
    rates_ok model -> get_epsilon model = Fin e -> (0 <= e <= 1)%R ->
    let aux := get_auxiliary_rngs thrds rng in
    let rows :=
      importance_weight_loop model obs times L "forward" version
                             sampling_times_available thrds (snd aux)
                             (seq 0 (length obs)) (fst aux) in
    let r := e_step model obs times L "forward" version
                    sampling_times_available thrds rng in
    fst (fst r) = map (fun row => snd (fst row)) rows /\
    snd (fst r) = map snd rows /\
    length rows = length obs /\
    Forall (expectation_ok L (size model)) rows.
Proof.
  intros RT model obs times L version avail thrds g e Hrates Heps He.
  apply e_step_rows. intros genotype time g0.
  apply forward_record_ok with e; assumption.
Qed.

(** One observation of the chain [0 -> 1 -> 2] at an error rate of
    1/4, with two samples. *)
Lemma e_step_forward_ranges_witness :
  let aux := @get_auxiliary_rngs counter_runtime 1 0 in
  let rows :=
    @importance_weight_loop counter_runtime (chain_model (Fin (/ 4)))
                            [[true; false; false]] [Fin 1] 2 "forward" 0
                            false 1 (snd aux) [0] (fst aux) in
  let r := @e_step counter_runtime (chain_model (Fin (/ 4)))
                   [[true; false; false]] [Fin 1] 2 "forward" 0 false 1 0 in
  fst (fst r) = map (fun row => snd (fst row)) rows /\
  Forall (expectation_ok 2 3) rows.
Proof.
  intros aux rows r.
  destruct (chain_model_ok (Fin (/ 4))) as [_ Hrates].
  destruct (@e_step_forward_ranges counter_runtime (chain_model (Fin (/ 4)))
              [[true; false; false]] [Fin 1] 2 0 false 1 0 (/ 4)
              Hrates eq_refl)
    as [H1 [_ [_ H2]]]; [lra |].
  split; [exact H1 | exact H2].
Defined.

(** ** Forward sampling: the observed log-likelihood *)

(** The sum of the weights of one observation under forward sampling. *)
Lemma forward_weight_sum :
  forall `{RT : Runtime} (genotype : RowVectorXb) (L : nat) (model : Model)
         (time : double) (version : nat) (g : rng_type) (avail : bool)
         (e : R),
    get_epsilon model = Fin e -> (0 <= e <= 1)%R ->
    exists s : R,
      vsum (w (fst (importance_weight genotype L model time "forward"
                                      version g avail))) = Fin s /\
      (0 <= s <= INR L)%R.
Proof.
  intros RT genotype L model time version g avail e Heps He.
  rewrite forward_record. cbn [fst w]. rewrite Heps.
  match goal with
  | |- context [sim_obs (sample_genotypes L model ?T0 ?Ts0 g avail)] =>
      pose proof (sample_genotypes_shape L model T0 Ts0 g avail) as Hobs;
      set (sim := sample_genotypes L model T0 Ts0 g avail) in *
  end.
  assert (Hlen : length (hamming_dist_mat (sim_obs sim) genotype) = L).
  { rewrite length_hamming_dist_mat. apply Hobs. }
  replace (map (bernoulli_weight (Fin e) (size model))
               (hamming_dist_mat (sim_obs sim) genotype))
    with (map Fin
              (map (fun d => e ^ d * (1 - e) ^ (size model - d))%R
                   (hamming_dist_mat (sim_obs sim) genotype)))
    by (rewrite map_map; apply map_ext; intros d;
        symmetry; apply bernoulli_weight_Fin).
  rewrite vsum_Fin. eexists. split; [reflexivity|].
  pose proof (Rsum_le_length
                (map (fun d => e ^ d * (1 - e) ^ (size model - d))%R
                     (hamming_dist_mat (sim_obs sim) genotype)) 1) as H.
  rewrite length_map, Hlen in H. rewrite Rmult_1_r in H. apply H.
  rewrite Forall_map. apply Forall_forall. intros d _.
  apply (bernoulli_weight_range e (size model) d). assumption.
Qed.

(** X11.  Under forward sampling with [L > 0] samples and an error
    rate in [0, 1] the observed log-likelihood that [obs_log_likelihood]
    accumulates is never NaN and never positive: every observation adds
    [log (w_sum / L)], the log of an average of weights in [0, 1], so the
    result is minus infinity or a finite number that is at most 0.  It
    is minus infinity as soon as the weights of one observation sum to
    0.  The entry point returns such a number or the error of a cyclic
    poset. *)
Theorem obs_log_likelihood_forward_sign :
  forall `{RT : Runtime},
    (forall model obs times L version sampling_times_available thrds
            default_rng idxs rngs (e : R),
        get_epsilon model = Fin e -> (0 <= e <= 1)%R -> 0 < L ->
        let rows :=
          importance_weight_loop model obs times L "forward" version
                                 sampling_times_available thrds default_rng
                                 idxs rngs in
        let r := obs_llhood_loop model obs times L "forward" version
                                 sampling_times_available thrds default_rng
                                 idxs rngs Dbl.zero in
        (r = NInf \/ exists x : R, r = Fin x /\ (x <= 0)%R) /\
        (Exists (fun row => fst (fst row) = Fin 0) rows -> r = NInf)) /\
    (forall obs poset0 lambda (e : R) times L version ctx lambda_s
            sampling_times_available thrds,
        (0 <= e <= 1)%R -> 0 < L ->
        match obs_log_likelihood obs poset0 lambda (Fin e) times L "forward"
                                 version ctx lambda_s
                                 sampling_times_available thrds with
        | Error err => err = NotAcyclic
        | Ok r => r = NInf \/ exists x : R, r = Fin x /\ (x <= 0)%R
        end).
Proof.
  intros RT.
  assert (Hzero : Dbl.zero = NInf \/
                  exists x : R, Dbl.zero = Fin x /\ (x <= 0)%R).
  { right. exists 0%R. split; [reflexivity | lra]. }
  split.
  - intros model obs times L version avail thrds drng idxs rngs e
           Heps He HL rows r.
    destruct (obs_llhood_loop_sign
                model obs times L "forward" version avail thrds
                (fun genotype time g =>
                   forward_weight_sum genotype L model time version g avail
                                      e Heps He)
                HL drng idxs rngs Dbl.zero Hzero) as [H1 H2].
    split; [exact H1|]. intros H. apply H2. right. exact H.
  - intros obs poset0 lambda e times L version ctx lambda_s avail thrds
           He HL.
    unfold obs_log_likelihood.
    destruct (cycle (has_cycles _)); [reflexivity|].
    destruct (get_auxiliary_rngs thrds (rng ctx)) as [rngs g1].
    match goal with
    | |- context [obs_llhood_loop ?m _ _ _ _ _ _ _ _ _ _ _] =>
        apply (obs_llhood_loop_sign
                 m obs times L "forward" version avail thrds
                 (fun genotype time g =>
                    forward_weight_sum genotype L m time version g avail
                                       e eq_refl He)
                 HL g1 (seq 0 (length obs)) rngs Dbl.zero Hzero)
    end.
Qed.

(** The chain [0 -> 1 -> 2], one observation, two samples, an error
    rate of 1/4. *)
Lemma obs_log_likelihood_forward_sign_witness :
  (let r := @obs_llhood_loop counter_runtime (chain_model (Fin (/ 4)))
                             [[true; false; false]] [Fin 1] 2 "forward" 0
                             false 1 0 [0] [0] Dbl.zero in
   r = NInf \/ exists x : R, r = Fin x /\ (x <= 0)%R) /\
  match @obs_log_likelihood counter_runtime [[true; false; false]]
                            chain_poset [Fin 2; Fin 2; Fin 2] (Fin (/ 4))
                            [Fin 1] 2 "forward" 0
                            (@Context_new counter_runtime 42%Z false)
                            (Fin 1) false 1 with
  | Error err => err = NotAcyclic
  | Ok r => r = NInf \/ exists x : R, r = Fin x /\ (x <= 0)%R
  end.
Proof.
  destruct (@obs_log_likelihood_forward_sign counter_runtime)
    as [Hcore Hentry].
  split.
  - apply (Hcore (chain_model (Fin (/ 4))) [[true; false; false]] [Fin 1] 2
                 0 false 1 0 [0] [0] (/ 4)%R eq_refl); [lra | lia].
  - apply (Hentry [[true; false; false]] chain_poset [Fin 2; Fin 2; Fin 2]
                  (/ 4)%R [Fin 1] 2 0
                  (@Context_new counter_runtime 42%Z false) (Fin 1) false 1);
      [lra | lia].
Defined.

(** ** The loop of [MCEM_hcbn]: a step of 0, and the early stop *)

Section LoopProperties.

Context `{RT : Runtime}.

Variables (control_EM : ControlEM) (obs : MatrixXb) (times : VectorXd)
          (weights : RowVectorXd) (L : nat) (sampling : string)
          (version : nat) (sampling_times_available : bool)
          (thrds : nat).

Lemma em_avg_eps_iteration :
  forall st,
    em_avg_eps (em_iteration control_EM obs times weights L sampling version
                             sampling_times_available thrds st) =
    em_avg_eps st.
Proof.
  intros st. unfold em_iteration.
  destruct (e_step _ _ _ _ _ _ _ _ _) as [[ed eT] g]. reflexivity.
Qed.

Lemma em_avg_eps_final_average :
  forall iter st,
    em_avg_eps (final_average control_EM iter st) = em_avg_eps st.
Proof.
  intros iter st. unfold final_average.
  destruct (iter + 1 =? max_iter control_EM)%Z; reflexivity.
Qed.

Lemma leb_abs_sub_NaN :
  forall x t : double, Dbl.leb (Dbl.abs (x - NaN)) t = false.
Proof. intros [r| | |] t; reflexivity. Qed.

(** X13.  With [update_step_size = 0] the boundary test fires once, at
    iteration 0, where it divides the empty accumulators by 0: the
    averages of the "previous window" become NaN, the convergence test
    fails on them, and the next boundary stays at 0.  No later iteration
    meets it, so the loop never stops early, and the last iteration
    divides the accumulators by [max_iter]: the result is the average
    over all the iterations. *)
Theorem zero_update_step_size :
  forall (model : Model) (ctx : Context) (n : nat),
    update_step_size control_EM = 0%Z ->
    exists st : EMState,
      em_loop control_EM obs times weights L sampling version
              sampling_times_available thrds (seq 0 n)
              (em_init control_EM model ctx) = Next st /\
      em_update_step_size st = 0%Z /\
      (0 < n -> em_avg_eps st = NaN) /\
      ((0 <= max_iter control_EM < 2 ^ 32)%Z ->
       num_iter control_EM st = max_iter control_EM).
Proof.
  intros model ctx n Hu.
  assert (Hnum : forall st,
             em_update_step_size st = 0%Z ->
             (0 <= max_iter control_EM < 2 ^ 32)%Z ->
             num_iter control_EM st = max_iter control_EM).
  { intros st Hst Hmax. unfold num_iter, wrap32. rewrite Hst, Hu.
    rewrite !Z.add_0_r, Z.sub_0_r, Z.mod_mod by lia.
    apply Z.mod_small. assumption. }
  induction n as [|n [st [Hloop [Hst [Hnan _]]]]].
  - exists (em_init control_EM model ctx).
    split; [reflexivity|]. split; [exact Hu|].
    split; [lia|]. apply Hnum. exact Hu.
  - rewrite (em_loop_snoc _ _ _ _ _ _ _ _ _ _ _ _ Hloop).
    unfold em_body.
    assert (Hw : exists st1,
               window_boundary control_EM (size (em_model st))
                               (Z.of_nat n) st = Next st1 /\
               em_update_step_size st1 = 0%Z /\ em_avg_eps st1 = NaN).
    { unfold window_boundary. rewrite Hst.
      destruct n as [|n].
      - simpl in Hloop. inversion Hloop; subst st. clear Hloop.
        cbn [Z.of_nat Z.eqb em_init em_avg_eps_current em_avg_eps
             em_tol_comparison em_avg_lambda em_avg_lambda_current
             em_update_step_size em_model em_rng em_avg_llhood em_llhood
             andb].
        rewrite Hu. unfold converged.
        change (Dbl.of_Z 0) with (Fin 0).
        change (Dbl.zero / Fin 0)%D with (Fin 0 / Fin 0)%D.
        rewrite zero_div_zero, leb_abs_sub_NaN. cbn [andb].
        eexists. split; [reflexivity|]. split; reflexivity.
      - replace (Z.of_nat (S n) =? 0)%Z with false
          by (symmetry; apply Z.eqb_neq; lia).
        exists st. split; [reflexivity|]. split; [assumption|].
        apply Hnan. lia. }
    destruct Hw as [st1 [Hw [Hst1 Hnan1]]]. rewrite Hw.
    eexists. split; [reflexivity|].
    rewrite em_update_step_size_final_average, em_update_step_size_iteration.
    rewrite em_avg_eps_final_average, em_avg_eps_iteration.
    split; [assumption|]. split; [intros _; assumption|].
    apply Hnum.
    rewrite em_update_step_size_final_average, em_update_step_size_iteration.
    assumption.
Qed.

Lemma leb_abs_sub_Fin :
  forall (x y : double) (t : R),
    Dbl.leb (Dbl.abs (x - y)) (Fin t) = true ->
    exists a b : R, x = Fin a /\ y = Fin b /\ (Rabs (a - b) <= t)%R.
Proof.
  intros [a| | |] [b| | |] t; cbv [Dbl.sub Dbl.add Dbl.opp Dbl.abs Dbl.leb];
    try discriminate.
  destruct (Rle_dec (Rabs (a + - b)) t); [|discriminate]. intros _.
  exists a, b. repeat split. assumption.
Qed.

Lemma leb_abs_Fin :
  forall (d : double) (t : R),
    Dbl.leb (Dbl.abs d) (Fin t) = true ->
    exists x : R, d = Fin x /\ (Rabs x <= t)%R.
Proof.
  intros [x| | |] t; cbv [Dbl.abs Dbl.leb]; try discriminate.
  destruct (Rle_dec (Rabs x) t); [|discriminate]. intros _.
  exists x. split; [reflexivity | assumption].
Qed.

(** X14.  When the loop of [MCEM_hcbn] leaves by [break] under a finite
    tolerance, the averages it is about to write back have passed the
    test of lines 364-365: the average error rate of the window that
    just ended and that of the window before are finite and differ by at
    most [tol], and so does every pair of average rates.  A NaN or an
    infinite average never stops the loop. *)
Theorem early_stop_within_tol :
  forall (iters : list nat) (st0 st : EMState) (t : R),
    tol control_EM = Fin t ->
    em_loop control_EM obs times weights L sampling version
            sampling_times_available thrds iters st0 = Break st ->
    (exists a b : R,
        em_avg_eps st = Fin a /\ em_avg_eps_current st = Fin b /\
        (Rabs (a - b) <= t)%R) /\
    Forall (fun d => exists x : R, d = Fin x /\ (Rabs x <= t)%R)
           (zip_with Dbl.sub (em_avg_lambda st) (em_avg_lambda_current st)) /\
    em_tol_comparison st = true.
Proof.
  intros iters st0 st t Htol.
  set (P := fun s : EMState =>
              (exists a b : R,
                  em_avg_eps s = Fin a /\ em_avg_eps_current s = Fin b /\
                  (Rabs (a - b) <= t)%R) /\
              Forall (fun d => exists x : R, d = Fin x /\ (Rabs x <= t)%R)
                     (zip_with Dbl.sub (em_avg_lambda s)
                               (em_avg_lambda_current s)) /\
              em_tol_comparison s = true).
  intros Hloop. change (P st).
  assert (H : match em_loop control_EM obs times weights L sampling version
                            sampling_times_available thrds iters st0 with
              | Break s => P s
              | Next _ => True
              end); [|rewrite Hloop in H; exact H].
  clear Hloop st. unfold em_loop.
  apply (fold_left_invariant
           (fun f : Flow => match f with Break s => P s | Next _ => True end)
           (fun _ : nat => True)); [| apply Forall_forall; intros; exact I
                                    | exact I].
  intros [s|s] iter Hf _; [|exact Hf].
  unfold em_body, window_boundary.
  destruct (Z.of_nat iter =? em_update_step_size s)%Z; [|exact I].
  destruct (em_tol_comparison s) eqn:Htc; cbn [andb]; [|exact I].
  destruct (converged _ _ _ _ _) eqn:Hconv; [|exact I].
  unfold converged in Hconv. rewrite Htol in Hconv.
  apply andb_true_iff in Hconv. destruct Hconv as [Heps Hlam].
  unfold P. cbn [em_avg_eps em_avg_eps_current em_avg_lambda
                 em_avg_lambda_current em_tol_comparison].
  split; [apply leb_abs_sub_Fin; assumption|].
  split; [|first [reflexivity | assumption]].
  rewrite forallb_forall in Hlam. apply Forall_forall. intros d Hd.
  apply leb_abs_Fin. apply Hlam. assumption.
Qed.

End LoopProperties.

(** A step of 0 on one observation of one event: three iterations run
    and the third divides by 3. *)
Lemma zero_update_step_size_witness :
  let control_EM :=
    {| max_iter := 3; update_step_size := 0;
       tol := Fin (/ 1000); max_lambda := Fin 1000000 |} in
  exists st : EMState,
    @em_loop counter_runtime control_EM [[true]] [Fin 1] [Fin 1] 2
             "forward" 0 false 1 (seq 0 3)
             (@em_init counter_runtime control_EM
                       (chain_model (Fin (/ 4)))
                       (@Context_new counter_runtime 42%Z false)) =
      Next st /\
    em_update_step_size st = 0%Z /\
    num_iter control_EM st = 3%Z.
Proof.
  intros control_EM.
  destruct (@zero_update_step_size
              counter_runtime control_EM [[true]] [Fin 1] [Fin 1] 2
              "forward"%string 0 false 1 (chain_model (Fin (/ 4)))
              (@Context_new counter_runtime 42%Z false) 3 eq_refl)
    as [st [H1 [H2 [_ H3]]]].
  exists st. split; [exact H1|]. split; [exact H2|].
  apply H3. simpl. lia.
Defined.

Lemma leb_abs_sub_close :
  forall a b t : R,
    (Rabs (a - b) <= t)%R ->
    Dbl.leb (Dbl.abs (Fin a - Fin b)) (Fin t) = true.
Proof.
  intros a b t H. cbv [Dbl.sub Dbl.add Dbl.opp Dbl.abs Dbl.leb].
  destruct (Rle_dec (Rabs (a + - b)) t) as [|Hn]; [reflexivity|].
  exfalso. apply Hn. exact H.
Qed.

(** A state at a window boundary whose two windows agree: the loop
    leaves at once. *)
Lemma early_stop_within_tol_witness :
  let control_EM :=
    {| max_iter := 10; update_step_size := 2;
       tol := Fin 1; max_lambda := Fin 1000000 |} in
  let st0 :=
    @Build_EMState counter_runtime (chain_model (Fin (/ 4))) 0 0%Z
                   [Fin 1; Fin 1; Fin 1] [Fin 2; Fin 2; Fin 2]
                   (Fin 0) (Fin 0) (Fin 0) (Fin 0) true in
  exists st : EMState,
    @em_loop counter_runtime control_EM [[true; false; false]] [Fin 1]
             [Fin 1] 2 "forward" 0 false 1 [0] st0 = Break st /\
    em_tol_comparison st = true.
Proof.
  intros control_EM st0.
  assert (Hconv :
            converged control_EM (Fin 0) (Fin 0 / Dbl.of_Z 2)%D
                      [Fin 1; Fin 1; Fin 1]
                      (map (fun x => x / Dbl.of_Z 2)%D
                           [Fin 2; Fin 2; Fin 2]) = true).
  { unfold converged. cbn [tol control_EM map zip_with forallb].
    change (Dbl.of_Z 2) with (Fin 2).
    rewrite !div_Fin by lra.
    rewrite !leb_abs_sub_close; [reflexivity | | ];
      apply Rabs_le; lra. }
  assert (H : exists st,
             @em_loop counter_runtime control_EM [[true; false; false]]
                      [Fin 1] [Fin 1] 2 "forward" 0 false 1 [0] st0 =
             Break st).
  { unfold em_loop, em_body, window_boundary. cbn [fold_left].
    cbn [Z.of_nat Z.eqb st0 em_update_step_size em_tol_comparison andb
         em_avg_eps em_avg_eps_current em_avg_lambda em_avg_lambda_current
         update_step_size control_EM].
    rewrite Hconv. eexists. reflexivity. }
  destruct H as [st H]. exists st. split; [exact H|].
  destruct (@early_stop_within_tol
              counter_runtime control_EM [[true; false; false]] [Fin 1]
              [Fin 1] 2 "forward"%string 0 false 1 [0] st0 st 1%R
              eq_refl H) as [_ [_ H3]].
  exact H3.
Defined.

(** ** No observation *)

Section EmptyData.

Context `{RT : Runtime}.

Variables (control_EM : ControlEM) (times : VectorXd)
          (weights : RowVectorXd) (L : nat) (sampling : string)
          (version : nat) (sampling_times_available : bool)
          (thrds : nat).

Lemma em_iteration_empty :
  forall st : EMState,
    let st' := em_iteration control_EM [] times weights L sampling version
                            sampling_times_available thrds st in
    em_avg_eps_current st' = NaN /\ em_avg_llhood st' = NaN.
Proof.
  intros st. cbv zeta. unfold em_iteration, e_step.
  destruct (get_auxiliary_rngs thrds (em_rng st)) as [rngs g1].
  cbn [length seq e_step_loop fst snd map
       em_avg_eps_current em_avg_llhood].
  match goal with
  | |- context [get_epsilon ?m] =>
      assert (Heps : get_epsilon m = NaN)
        by (change (get_epsilon m) with (Fin 0 / Fin 0)%D;
            apply zero_div_zero);
      rewrite !Heps
  end.
  split; [apply add_NaN_r|].
  unfold complete_log_likelihood.
  change (Dbl.eqb NaN Dbl.zero) with false. cbv iota.
  change (Dbl.log NaN) with NaN.
  change (NaN * vsum [])%D with NaN.
  change (NaN + ?x)%D with NaN.
  rewrite !add_NaN_r. reflexivity.
Qed.

Lemma window_boundary_NaN :
  forall (p : nat) (iter : Z) (st : EMState),
    em_avg_eps_current st = NaN ->
    exists st1, window_boundary control_EM p iter st = Next st1.
Proof.
  intros p iter st H. unfold window_boundary.
  destruct (iter =? em_update_step_size st)%Z;
    [|eexists; reflexivity].
  unfold converged. rewrite H.
  change (NaN / Dbl.of_Z (update_step_size control_EM))%D with NaN.
  rewrite leb_abs_sub_NaN. rewrite andb_false_l, andb_false_r.
  eexists. reflexivity.
Qed.

Lemma window_boundary_init :
  forall (p : nat) (model : Model) (ctx : Context),
    exists st1,
      window_boundary control_EM p 0 (em_init control_EM model ctx) =
      Next st1.
Proof.
  intros p model ctx. unfold window_boundary.
  cbn [em_init em_update_step_size em_avg_eps_current em_avg_eps
       em_tol_comparison em_avg_lambda em_avg_lambda_current].
  destruct (Z.eqb_spec 0 (update_step_size control_EM)) as [Heq|Hne];
    [|eexists; reflexivity].
  rewrite <- Heq. unfold converged.
  change (Dbl.zero / Dbl.of_Z 0)%D with (Fin 0 / Fin 0)%D.
  rewrite zero_div_zero, leb_abs_sub_NaN. cbn [andb].
  eexists. reflexivity.
Qed.

Lemma em_body_empty :
  forall (iter : nat) (st : EMState),
    (exists st1,
        window_boundary control_EM (size (em_model st)) (Z.of_nat iter) st =
        Next st1) ->
    exists st',
      em_body control_EM [] times weights L sampling version
              sampling_times_available thrds iter st = Next st' /\
      em_avg_eps_current st' = NaN /\ em_avg_llhood st' = NaN.
Proof.
  intros iter st [st1 Hw]. unfold em_body. rewrite Hw.
  eexists. split; [reflexivity|].
  destruct (em_iteration_empty st1) as [H1 H2].
  unfold final_average.
  destruct (Z.of_nat iter + 1 =? max_iter control_EM)%Z;
    [|split; assumption].
  cbn [em_avg_eps_current em_avg_llhood]. rewrite H1, H2.
  split; reflexivity.
Qed.

(** X25.  On an empty data set every E-step is empty and the M-step
    divides the empty sum of distances by [N * p = 0]: the error rate
    becomes NaN, and so does the log-likelihood computed from it.  The
    convergence test fails on NaN, so the loop runs all its iterations,
    and with [max_iter >= 1] [MCEM_hcbn] returns NaN and leaves NaN in
    the model as its error rate and its log-likelihood. *)
Theorem MCEM_hcbn_no_observation :
  forall (model : Model) (ctx : Context),
    (1 <= max_iter control_EM)%Z ->
    let r := MCEM_hcbn model [] times weights L sampling version
                       control_EM sampling_times_available thrds ctx in
    snd r = NaN /\
    get_epsilon (fst (fst r)) = NaN /\
    get_llhood (fst (fst r)) = NaN.
Proof.
  intros model ctx Hmax r.
  assert (Hloop :
            forall n,
            exists st,
              em_loop control_EM [] times weights L sampling version
                      sampling_times_available thrds (seq 0 (S n))
                      (em_init control_EM model ctx) = Next st /\
              em_avg_eps_current st = NaN /\ em_avg_llhood st = NaN).
  { induction n as [|n [st [Hl [He Hll]]]].
    - rewrite (em_loop_snoc _ _ _ _ _ _ _ _ _ 0
                            (em_init control_EM model ctx)
                            (em_init control_EM model ctx) eq_refl).
      apply em_body_empty. apply window_boundary_init.
    - rewrite (em_loop_snoc _ _ _ _ _ _ _ _ _ _ _ _ Hl).
      apply em_body_empty. apply window_boundary_NaN. assumption. }
  subst r. unfold MCEM_hcbn.
  destruct (Z.to_nat (max_iter control_EM)) as [|n] eqn:E; [lia|].
  destruct (Hloop n) as [st [Hl [He Hll]]]. rewrite Hl.
  unfold em_exit, flow_state. cbn [fst snd].
  split; [assumption|]. split; assumption.
Qed.

End EmptyData.

(** Three iterations on no observation. *)
Lemma MCEM_hcbn_no_observation_witness :
  snd (@MCEM_hcbn counter_runtime (chain_model (Fin (/ 4))) [] [] [] 2
                  "forward" 0
                  {| max_iter := 3; update_step_size := 2;
                     tol := Fin (/ 1000); max_lambda := Fin 1000000 |}
                  false 1 (@Context_new counter_runtime 42%Z false)) = NaN.
Proof.
  refine (proj1 (@MCEM_hcbn_no_observation
                   counter_runtime
                   {| max_iter := 3; update_step_size := 2;
                      tol := Fin (/ 1000); max_lambda := Fin 1000000 |}
                   [] [] 2 "forward"%string 0 false 1
                   (chain_model (Fin (/ 4)))
                   (@Context_new counter_runtime 42%Z false) _)).
  cbn [max_iter]. lia.
Defined.

(** ** The maximum over the parents and the order of the in-edges *)

Lemma in_edges_permutation :
  forall (g g' : Poset) (v : Node) (e : Edge),
    Permutation (edges g) (edges g') ->
    In e (in_edges v g) -> In e (in_edges v g').
Proof.
  intros g g' v e Hperm. unfold in_edges. rewrite !filter_In.
  intros [Hin Ht]. split; [|assumption].
  apply Permutation_in with (edges g); assumption.
Qed.

Lemma max_over_parents_le :
  forall (g g' : Poset) (S : MatrixXd) (i : nat) (v : Node) (m m' : R),
    (forall e, In e (in_edges v g) -> In e (in_edges v g')) ->
    (forall e, In e (in_edges v g') -> In e (in_edges v g)) ->
    max_over_parents g S i v m -> max_over_parents g' S i v m' ->
    (m <= m')%R.
Proof.
  intros g g' S i v m m' H12 H21 [Hub [Hnil Hatt]] [Hub' [Hnil' Hatt']].
  destruct (in_edges v g) as [|e es] eqn:E.
  - rewrite (Hnil eq_refl).
    destruct (in_edges v g') as [|e' es'] eqn:E'.
    + rewrite (Hnil' eq_refl). lra.
    + destruct (H21 e' (or_introl eq_refl)).
  - destruct Hatt as [e0 [He0 Hm]]; [discriminate|].
    destruct (Hub' e0 (H12 e0 He0)) as [r [Hr Hle]].
    rewrite Hm in Hr. inversion Hr; subst. assumption.
Qed.

(** X15.  The poset keeps its edges in a hash set, and [boost::in_edges]
    lists the parents of a vertex in no specified order.  The maximum
    that lines 159-165 of [sample_genotypes] compute does not depend on
    that order: on occurrence times that are finite and not negative,
    two posets with the same edges give the same maximum, which is the
    largest occurrence time among the parents, or 0 without parents. *)
Theorem parents_T_max_order :
  forall (S : MatrixXd) (i : nat) (v : Node) (g g' : Poset),
    Permutation (edges g) (edges g') ->
    (forall e, In e (in_edges v g) ->
               nonneg (coeff Dbl.zero S i (source e))) ->
    parents_T_max S i v g = parents_T_max S i v g' /\
    exists m : R,
      parents_T_max S i v g = Fin m /\ (0 <= m)%R /\
      max_over_parents g S i v m.
Proof.
  intros S i v g g' Hperm Hnn.
  assert (H12 : forall e, In e (in_edges v g) -> In e (in_edges v g')).
  { intros e. apply in_edges_permutation. assumption. }
  assert (H21 : forall e, In e (in_edges v g') -> In e (in_edges v g)).
  { intros e. apply in_edges_permutation. apply Permutation_sym. assumption. }
  destruct (parents_T_max_spec S i v g Hnn) as [m [Hm [Hm0 Hmax]]].
  destruct (parents_T_max_spec S i v g'
              (fun e He => Hnn e (H21 e He))) as [m' [Hm' [_ Hmax']]].
  split.
  - rewrite Hm, Hm'. f_equal. apply Rle_antisym.
    + apply (max_over_parents_le g g' S i v m m'); assumption.
    + apply (max_over_parents_le g' g S i v m' m); assumption.
  - exists m. split; [assumption|]. split; assumption.
Qed.

(** Vertex 2 with the parents 0 and 1, listed in the two orders. *)
Lemma parents_T_max_order_witness :
  let S := [[Fin 3; Fin 5; Fin 0]] in
  parents_T_max S 0 2 {| num_vertices := 3; edges := [(0, 2); (1, 2)] |} =
  parents_T_max S 0 2 {| num_vertices := 3; edges := [(1, 2); (0, 2)] |}.
Proof.
  intros S.
  apply (parents_T_max_order
           S 0 2 {| num_vertices := 3; edges := [(0, 2); (1, 2)] |}
           {| num_vertices := 3; edges := [(1, 2); (0, 2)] |}).
  - apply perm_swap.
  - intros e [<-|[<-|[]]]; simpl.
    + exists 3%R. split; [reflexivity | lra].
    + exists 5%R. split; [reflexivity | lra].
Defined.

(** ** The draws *)

Section Draws.

Context `{RT : Runtime}.

(** X16.  [rexp_std] returns [N] variates, finite and not negative at a
    positive rate, and threads the generator through the [N] draws in
    order: drawing [N + M] variates is drawing [N] and then [M] from the
    generator that the first [N] draws left. *)
Theorem rexp_std_draws :
  forall (N M : nat) (lambda : double) (g : rng_type),
    length (fst (rexp_std N lambda g)) = N /\
    (positive lambda -> Forall nonneg (fst (rexp_std N lambda g))) /\
    rexp_std (N + M) lambda g =
      (fst (rexp_std N lambda g) ++
       fst (rexp_std M lambda (snd (rexp_std N lambda g))),
       snd (rexp_std M lambda (snd (rexp_std N lambda g)))).
Proof.
  intros N M lambda g.
  split; [apply rexp_std_length|].
  split; [apply rexp_std_nonneg|].
  revert g. induction N as [|N IH]; intros g.
  - simpl. destruct (rexp_std M lambda g). reflexivity.
  - cbn [Nat.add rexp_std].
    destruct (exponential_distribution lambda g) as [t g1].
    rewrite IH. destruct (rexp_std N lambda g1) as [T g2]. reflexivity.
Qed.

(** X17.  [rdiscrete_std] returns [N] draws, each an index of the
    weights when there is a weight at all, and threads the generator
    through the [N] draws in order. *)
Theorem rdiscrete_std_draws :
  forall (N M : nat) (weights : VectorXd) (g : rng_type),
    length (fst (rdiscrete_std N weights g)) = N /\
    (weights <> [] ->
     Forall (fun k => k < length weights) (fst (rdiscrete_std N weights g))) /\
    rdiscrete_std (N + M) weights g =
      (fst (rdiscrete_std N weights g) ++
       fst (rdiscrete_std M weights (snd (rdiscrete_std N weights g))),
       snd (rdiscrete_std M weights (snd (rdiscrete_std N weights g)))).
Proof.
  intros N M weights g.
  split; [apply rdiscrete_std_length|].
  split; [apply rdiscrete_std_range|].
  revert g. induction N as [|N IH]; intros g.
  - simpl. destruct (rdiscrete_std M weights g). reflexivity.
  - cbn [Nat.add rdiscrete_std].
    destruct (discrete_distribution weights g) as [k g1].
    rewrite IH. destruct (rdiscrete_std N weights g1) as [T g2]. reflexivity.
Qed.

(** X18.  [runif_int_std] returns [N] draws and threads the generator
    through them in order; when every draw of the uniform distribution
    on [0 .. upper_limit] lies in that range, so does every integer it
    returns. *)
Theorem runif_int_std_draws :
  forall (uniform_int_distribution : Z -> rng_type -> Z * rng_type)
         (N M : nat) (upper_limit : Z) (g : rng_type),
    length (fst (runif_int_std uniform_int_distribution N upper_limit g)) =
      N /\
    ((forall g', (0 <= fst (uniform_int_distribution upper_limit g')
                  <= upper_limit)%Z) ->
     Forall (fun k => 0 <= k <= upper_limit)%Z
            (fst (runif_int_std uniform_int_distribution N upper_limit g))) /\
    runif_int_std uniform_int_distribution (N + M) upper_limit g =
      (fst (runif_int_std uniform_int_distribution N upper_limit g) ++
       fst (runif_int_std uniform_int_distribution M upper_limit
              (snd (runif_int_std uniform_int_distribution N upper_limit g))),
       snd (runif_int_std uniform_int_distribution M upper_limit
              (snd (runif_int_std uniform_int_distribution N upper_limit g)))).
Proof.
  intros U N M u g. split; [|split].
  - revert g. induction N as [|N IH]; intros g; [reflexivity|].
    cbn [runif_int_std]. destruct (U u g) as [k g1].
    specialize (IH g1). destruct (runif_int_std U N u g1) as [T g2].
    simpl in *. congruence.
  - intros Hrange. revert g. induction N as [|N IH]; intros g.
    + constructor.
    + cbn [runif_int_std]. pose proof (Hrange g) as Hk.
      destruct (U u g) as [k g1].
      specialize (IH g1). destruct (runif_int_std U N u g1) as [T g2].
      constructor; assumption.
  - revert g. induction N as [|N IH]; intros g.
    + simpl. destruct (runif_int_std U M u g). reflexivity.
    + cbn [Nat.add runif_int_std]. destruct (U u g) as [k g1].
      rewrite IH. destruct (runif_int_std U N u g1) as [T g2]. reflexivity.
Qed.

(** X19.  [Context::get_auxiliary_rngs] builds one generator per thread
    and seeds generator [k] with the [k]-th output of the generator of
    the context: asking for more threads appends generators and leaves
    the first ones as they were, so the generator of a thread does not
    depend on the number of threads. *)
Theorem get_auxiliary_rngs_threads :
  forall (a b : nat) (g : rng_type),
    length (fst (get_auxiliary_rngs a g)) = a /\
    get_auxiliary_rngs (a + b) g =
      (fst (get_auxiliary_rngs a g) ++
       fst (get_auxiliary_rngs b (snd (get_auxiliary_rngs a g))),
       snd (get_auxiliary_rngs b (snd (get_auxiliary_rngs a g)))) /\
    (forall (k : nat) (d : rng_type),
        k < a ->
        nth k (fst (get_auxiliary_rngs (a + b) g)) d =
        nth k (fst (get_auxiliary_rngs a g)) d) /\
    (forall (k : nat) (d : rng_type),
        k < a ->
        nth k (fst (get_auxiliary_rngs a g)) d =
        rng_seed (fst (rng_next (snd (get_auxiliary_rngs k g))))).
Proof.
  intros a b g.
  assert (Hlen : forall n g0, length (fst (get_auxiliary_rngs n g0)) = n).
  { induction n as [|n IH]; intros g0; [reflexivity|].
    cbn [get_auxiliary_rngs]. destruct (rng_next g0) as [s g1].
    specialize (IH g1). destruct (get_auxiliary_rngs n g1) as [rs g2].
    simpl in *. congruence. }
  assert (Happ : forall n m g0,
             get_auxiliary_rngs (n + m) g0 =
             (fst (get_auxiliary_rngs n g0) ++
              fst (get_auxiliary_rngs m (snd (get_auxiliary_rngs n g0))),
              snd (get_auxiliary_rngs m (snd (get_auxiliary_rngs n g0))))).
  { induction n as [|n IH]; intros m g0.
    - simpl. destruct (get_auxiliary_rngs m g0). reflexivity.
    - cbn [Nat.add get_auxiliary_rngs]. destruct (rng_next g0) as [s g1].
      rewrite IH. destruct (get_auxiliary_rngs n g1) as [rs g2].
      reflexivity. }
  split; [apply Hlen|]. split; [apply Happ|]. split.
  - intros k d Hk. rewrite Happ. cbn [fst].
    apply app_nth1. rewrite Hlen. assumption.
  - intros k d Hk.
    replace a with (k + S (a - S k)) by lia.
    rewrite Happ. cbn [fst].
    rewrite app_nth2 by (rewrite Hlen; lia).
    rewrite Hlen, Nat.sub_diag.
    cbn [get_auxiliary_rngs].
    destruct (rng_next (snd (get_auxiliary_rngs k g))) as [s g1].
    destruct (get_auxiliary_rngs (a - S k) g1) as [rs g2]. reflexivity.
Qed.

End Draws.

(** Three exponential variates at rate 2. *)
Lemma rexp_std_draws_witness :
  Forall nonneg (fst (@rexp_std counter_runtime 3 (Fin 2) 0)).
Proof.
  apply (@rexp_std_draws counter_runtime 3 0 (Fin 2) 0).
  exists 2%R. split; [reflexivity | lra].
Defined.

(** Three draws from two weights. *)
Lemma rdiscrete_std_draws_witness :
  Forall (fun k => k < 2)
         (fst (@rdiscrete_std counter_runtime 3 [Fin 1; Fin 3] 0)).
Proof.
  apply (@rdiscrete_std_draws counter_runtime 3 0 [Fin 1; Fin 3] 0).
  discriminate.
Defined.

(** Three draws from [0 .. 4]. *)
Lemma runif_int_std_draws_witness :
  Forall (fun k => 0 <= k <= 4)%Z
         (fst (@runif_int_std counter_runtime counter_uniform 3 4%Z 0)).
Proof.
  apply (@runif_int_std_draws counter_runtime counter_uniform 3 0 4%Z 0).
  intros g'. unfold counter_uniform. cbn [fst].
  pose proof (Z.mod_pos_bound (Z.of_nat g') (4 + 1) ltac:(lia)). lia.
Defined.

(** Thread 1 of two and of four threads. *)
Lemma get_auxiliary_rngs_threads_witness :
  nth 1 (fst (@get_auxiliary_rngs counter_runtime (2 + 2) 7)) 0 =
  nth 1 (fst (@get_auxiliary_rngs counter_runtime 2 7)) 0.
Proof.
  apply (@get_auxiliary_rngs_threads counter_runtime 2 2 7). lia.
Defined.

(** ** Rejection sampling: the expected distance *)



Lemma map_repeat_Fin :
  forall (c : R) (n : nat), repeat (Fin c) n = map Fin (repeat c n).
Proof.
  intros c n. induction n as [|n IH]; [reflexivity|].
  simpl. rewrite IH. reflexivity.
Qed.




(** ** Rejection sampling: the E-step *)

Lemma nth_map_Fin_row :
  forall (ts : list (list R)) (idx : nat),
    nth idx (map (map Fin) ts) [] = map Fin (nth idx ts []).
Proof.
  intros ts idx. change (@nil double) with (map Fin (@nil R)).
  apply map_nth.
Qed.

Lemma Forall_nth_rows :
  forall (ts : list (list R)) (idx : nat),
    Forall (Forall (fun t => 0 <= t)%R) ts ->
    Forall (fun t => 0 <= t)%R (nth idx ts []).
Proof.
  intros ts idx H. destruct (nth_in_or_default idx ts []) as [Hin|Heq].
  - rewrite Forall_forall in H. apply H. assumption.
  - rewrite Heq. constructor.
Qed.

Lemma log_bernoulli_process_map :
  forall (dist0 : VectorXd) (eps : double) (p : nat),
    log_bernoulli_process dist0 eps p =
    map (fun d =>
           if Dbl.eqb eps Dbl.zero then
             if Dbl.neqb d Dbl.zero then
               (Dbl.log (eps + DBL_EPSILON) * d +
                Dbl.log (Dbl.one - eps - DBL_EPSILON) * (Dbl.of_nat p - d))%D
             else Dbl.zero
           else
             (Dbl.log eps * d +
              Dbl.log (Dbl.one - eps) * (Dbl.of_nat p - d))%D) dist0.
Proof.
  intros dist0 eps p. unfold log_bernoulli_process.
  destruct (Dbl.eqb eps Dbl.zero); reflexivity.
Qed.

Lemma exp_nonpos_range :
  forall x : R, (x <= 0)%R -> (0 <= Rtrigo_def.exp x <= 1)%R.
Proof.
  intros x Hx. split; [apply Rlt_le; apply exp_pos|].
  destruct (Req_dec_T x 0) as [->|Hne]; [rewrite exp_0; lra|].
  rewrite <- exp_0. apply Rlt_le. apply exp_increasing. lra.
Qed.

Lemma ln_nonpos :
  forall x : R, (0 < x <= 1)%R -> (ln x <= 0)%R.
Proof.
  intros x Hx. destruct (Req_dec_T x 1) as [->|Hne]; [rewrite ln_1; lra|].
  rewrite <- ln_1. apply Rlt_le. apply ln_increasing; lra.
Qed.

(** One weight of the uniform fallback, lines 302-303: the exponential
    of a term of [log_bernoulli_process].  At an error rate of 1 the term
    of a distance below [p] is minus infinity and the weight is 0. *)
Lemma fallback_weight_range :
  forall (e : R) (p d : nat),
    (0 <= e <= 1)%R -> d <= p -> (e = 1%R -> d < p) ->
    exists c : R,
      Dbl.exp
        (if Dbl.eqb (Fin e) Dbl.zero then
           if Dbl.neqb (Dbl.of_nat d) Dbl.zero then
             (Dbl.log (Fin e + DBL_EPSILON) * Dbl.of_nat d +
              Dbl.log (Dbl.one - Fin e - DBL_EPSILON) *
              (Dbl.of_nat p - Dbl.of_nat d))%D
           else Dbl.zero
         else
           (Dbl.log (Fin e) * Dbl.of_nat d +
            Dbl.log (Dbl.one - Fin e) * (Dbl.of_nat p - Dbl.of_nat d))%D) =
      Fin c /\ (0 <= c <= 1)%R.
Proof.
  intros e p d He Hd H1. pose proof DBL_EPSILON_range as Hr.
  assert (Hdr : (0 <= INR d)%R) by apply pos_INR.
  assert (Hpd : (0 <= INR p + - INR d)%R).
  { apply le_INR in Hd. lra. }
  destruct (Req_dec_T e 0) as [->|Hne0].
  - change (Fin 0) with Dbl.zero. rewrite eqb_zero_zero, neqb_of_nat.
    destruct (d =? 0).
    + exists (Rtrigo_def.exp 0). split; [reflexivity|].
      apply exp_nonpos_range. lra.
    + cbn [negb].
      change (Dbl.zero + DBL_EPSILON)%D with (Fin (0 + / 2 ^ 52)).
      change (Dbl.one - Dbl.zero - DBL_EPSILON)%D
        with (Fin (1 + - 0 + - / 2 ^ 52)).
      rewrite !log_Fin_pos by lra.
      eexists. split; [reflexivity|]. apply exp_nonpos_range.
      assert (ln (0 + / 2 ^ 52) <= 0)%R by (apply ln_nonpos; lra).
      assert (ln (1 + - 0 + - / 2 ^ 52) <= 0)%R by (apply ln_nonpos; lra).
      nra.
  - rewrite eqb_Fin_nonzero by assumption.
    destruct (Req_dec_T e 1) as [->|Hne1].
    + specialize (H1 eq_refl). apply lt_INR in H1.
      exists 0%R. split; [|lra].
      rewrite log_Fin_pos by lra.
      change (Dbl.one - Fin 1)%D with (Fin (1 + - 1)).
      change (Dbl.of_nat p - Dbl.of_nat d)%D with (Fin (INR p + - INR d)).
      change (Dbl.of_nat d) with (Fin (INR d)).
      assert (Hlog : Dbl.log (Fin (1 + - 1)) = NInf).
      { unfold Dbl.log.
        destruct (total_order_T 0 (1 + - 1)) as [[H|H]|H];
          [exfalso; lra | reflexivity | exfalso; lra]. }
      rewrite Hlog.
      assert (Hmul : (NInf * Fin (INR p + - INR d))%D = NInf).
      { unfold Dbl.mul, Dbl.inf_of_sign.
        destruct (total_order_T 0 (- (INR p + - INR d))) as [[H|H]|H];
          [exfalso; lra | exfalso; lra | reflexivity]. }
      rewrite Hmul. reflexivity.
    + rewrite log_bernoulli_term by (try lra; assumption).
      eexists. split; [reflexivity|]. apply exp_nonpos_range.
      assert (ln e <= 0)%R by (apply ln_nonpos; lra).
      assert (ln (1 - e) <= 0)%R by (apply ln_nonpos; lra).
      assert (0 <= INR (p - d))%R by apply pos_INR.
      nra.
Qed.

Lemma fallback_weights_range :
  forall (e : R) (p : nat) (ds : VectorXi),
    (0 <= e <= 1)%R ->
    Forall (fun d => d <= p /\ (e = 1%R -> d < p)) ds ->
    exists wr : list R,
      map Dbl.exp (log_bernoulli_process (cast_double ds) (Fin e) p) =
      map Fin wr /\
      length wr = length ds /\
      Forall (fun x => 0 <= x <= 1)%R wr.
Proof.
  intros e p ds He Hds. rewrite log_bernoulli_process_map.
  unfold cast_double. rewrite !map_map.
  induction Hds as [|d ds [Hd H1] Hds [wr [Hw [Hlen Hwr]]]].
  - exists []. split; [reflexivity|]. split; [reflexivity | constructor].
  - destruct (fallback_weight_range e p d He Hd H1) as [c [Hc Hcr]].
    exists (c :: wr). cbn [map length]. rewrite Hc, Hw.
    split; [reflexivity|]. split; [rewrite Hlen; reflexivity|].
    constructor; assumption.
Qed.

(** At an error rate of 1 a pool weight is 0 only at a distance below
    [p]. *)
Lemma pool_weight_zero_distance :
  forall (e : R) (p d : nat),
    bernoulli_weight (Fin e) p d = Dbl.zero -> e = 1%R -> d < p.
Proof.
  intros e p d H ->. rewrite bernoulli_weight_Fin in H.
  unfold Dbl.zero in H. inversion H as [H0].
  destruct (Nat.lt_ge_cases d p) as [Hlt|Hge]; [assumption|].
  exfalso. replace (p - d) with 0 in H0 by lia.
  rewrite pow1 in H0. simpl in H0. lra.
Qed.

(** The record of one observation under rejection sampling. *)
Lemma rejection_record_parts :
  forall `{RT : Runtime} (genotype : RowVectorXb) (L : nat) (model : Model)
         (time : double) (version : nat) (g : rng_type) (avail : bool)
         (e : R),
    get_epsilon model = Fin e -> (0 <= e <= 1)%R ->
    0 < L -> 0 < size model ->
    (Z.of_nat (size model) * Z.of_nat L < 2 ^ 32)%Z ->
    let r := fst (importance_weight genotype L model time "rejection"
                                    version g avail) in
    (exists wr : list R,
        w r = map Fin wr /\ length wr = L /\
        Forall (fun x => 0 <= x <= 1)%R wr) /\
    Forall (fun d => d <= size model) (dist r) /\
    (rates_ok model ->
     exists ts : list (list R),
       Tdiff r = map (map Fin) ts /\
       Forall (Forall (fun t => 0 <= t)%R) ts).
Proof.
  intros RT genotype L model time version g avail e Heps He HL Hp Hov r.
  subst r.
  pose proof (rejection_record genotype L model time version g avail Hov)
    as Hrec.
  cbv zeta in Hrec. rewrite Heps in Hrec.
  set (p := size model) in *. set (K := p * L) in *.
  assert (HK : 0 < K) by (subst K; nia).
  match type of Hrec with
  | context [sample_genotypes K model ?T0 ?Ts0 g avail] =>
      pose proof (sample_genotypes_shape K model T0 Ts0 g avail) as Hobs;
      destruct (sample_genotypes_fields K model T0 Ts0 g avail) as [HTe _];
      pose proof (fun Hrates =>
                    draw_T_events_spec
                      K model T0 g Hrates
                      (has_shape_repeat _ K (size model) uninit_double))
        as Hdraw;
      set (sim := sample_genotypes K model T0 Ts0 g avail) in *
  end.
  rewrite <- HTe in Hdraw. fold p in Hobs, Hdraw.
  set (dist_pool := hamming_dist_mat (sim_obs sim) genotype) in *.
  destruct Hrec as [Hpool [Hidx Hrec]].
  rewrite Hrec. clear Hrec. cbn [w dist Tdiff].
  set (q := map (bernoulli_weight (Fin e) p) dist_pool) in *.
  pose proof (pool_weights_sum_zero e p dist_pool He) as Hzero.
  fold q in Hzero.
  assert (Hqlen : length q = K) by (subst q; rewrite length_map; exact Hpool).
  set (random := Dbl.eqb (vsum q) Dbl.zero) in *.
  set (idxs := fst (rdiscrete_std L _ (sim_rng sim))) in *.
  assert (Hrange : Forall (fun k => k < K) idxs).
  { subst idxs. destruct random.
    - pose proof (rdiscrete_std_range
                    L (repeat (Dbl.one / Dbl.of_nat K)%D K) (sim_rng sim))
        as H.
      rewrite repeat_length in H. apply H.
      destruct K; [lia | discriminate].
    - pose proof (rdiscrete_std_range
                    L (map (fun x => x / vsum q)%D q) (sim_rng sim)) as H.
      rewrite length_map, Hqlen in H. apply H.
      intros Hnil. apply map_eq_nil in Hnil. rewrite Hnil in Hqlen.
      simpl in Hqlen. lia. }
  assert (Hpool_le : Forall (fun d => d <= p) dist_pool).
  { apply hamming_dist_mat_le with K. assumption. }
  assert (Hdist : Forall (fun d => d <= p)
                         (map (fun idx => nth idx dist_pool uninit_int)
                              idxs)).
  { rewrite Forall_map. eapply Forall_impl; [|exact Hrange].
    intros idx Hi. cbv beta. rewrite Forall_forall in Hpool_le.
    apply Hpool_le. apply nth_In. rewrite Hpool. assumption. }
  split; [|split; [exact Hdist|]].
  - destruct random eqn:Hrand.
    + destruct (fallback_weights_range
                  e p (map (fun idx => nth idx dist_pool uninit_int) idxs)
                  He) as [wr [Hw [Hlen Hwr]]].
      { rewrite Forall_map. eapply Forall_impl; [|exact Hrange].
        intros idx Hi. cbv beta.
        assert (Hin : In (nth idx dist_pool uninit_int) dist_pool).
        { apply nth_In. rewrite Hpool. assumption. }
        split.
        - rewrite Forall_forall in Hpool_le. apply Hpool_le. assumption.
        - apply pool_weight_zero_distance.
          apply proj1 in Hzero. specialize (Hzero eq_refl).
          rewrite Forall_forall in Hzero. apply Hzero.
          subst q. apply in_map. assumption. }
      exists wr. split; [exact Hw|]. split; [|exact Hwr].
      rewrite Hlen, length_map. exact Hidx.
    + assert (Hqr : q = map Fin
                            (map (fun d => e ^ d * (1 - e) ^ (p - d))%R
                                 dist_pool)).
      { subst q. rewrite map_map. apply map_ext. intros d.
        apply bernoulli_weight_Fin. }
      set (qr := map (fun d => e ^ d * (1 - e) ^ (p - d))%R dist_pool) in *.
      assert (Hqr01 : Forall (fun x => 0 <= x <= 1)%R qr).
      { subst qr. rewrite Forall_map. apply Forall_forall. intros d _.
        apply (bernoulli_weight_range e p d). assumption. }
      pose proof (Rsum_le_length qr 1 Hqr01) as Hsum.
      assert (Hlq : length qr = K).
      { subst qr. rewrite length_map. assumption. }
      rewrite Hlq, Rmult_1_r in Hsum.
      assert (HKr : (0 < INR K)%R) by (apply lt_0_INR; assumption).
      rewrite Hqr, vsum_Fin. unfold Dbl.of_nat. rewrite div_Fin by lra.
      exists (repeat (Rsum qr / INR K)%R L).
      split; [apply map_repeat_Fin|]. split; [apply repeat_length|].
      apply Forall_forall. intros x Hx. apply repeat_spec in Hx. subst x.
      split.
      * apply Rmult_le_pos; [lra|]. apply Rlt_le.
        apply Rinv_0_lt_compat. assumption.
      * apply Rmult_le_reg_r with (INR K); [assumption|].
        unfold Rdiv. rewrite Rmult_assoc, Rinv_l by lra. lra.
  - intros Hrates. destruct (Hdraw Hrates) as [Hshape Hnn].
    destruct (nonneg_matrix_reals K p (sim_T_events sim) Hshape Hnn)
      as [ts [Hts Htsnn]].
    exists (map (fun idx => nth idx ts []) idxs). split.
    + rewrite Hts, map_map. apply map_ext. intros idx.
      apply nth_map_Fin_row.
    + rewrite Forall_map. apply Forall_forall. intros idx _.
      apply Forall_nth_rows. assumption.
Qed.

Lemma rejection_record_ok :
  forall `{RT : Runtime} (genotype : RowVectorXb) (L : nat) (model : Model)
         (time : double) (version : nat) (g : rng_type) (avail : bool)
         (e : R),
    rates_ok model -> get_epsilon model = Fin e -> (0 <= e <= 1)%R ->
    0 < L -> 0 < size model ->
    (Z.of_nat (size model) * Z.of_nat L < 2 ^ 32)%Z ->
    record_ok L (size model)
              (fst (importance_weight genotype L model time "rejection"
                                      version g avail)).
Proof.
  intros RT genotype L model time version g avail e Hrates Heps He HL Hp
         Hov.
  destruct (rejection_record_parts genotype L model time version g avail e
                                   Heps He HL Hp Hov)
    as [[wr [Hw [Hlen Hwr]]] [Hd HT]].
  destruct (HT Hrates) as [ts [Hts Htsnn]].
  exists wr, ts. repeat split; assumption.
Qed.

(** X24.  Under rejection sampling with an error rate in [0, 1],
    [L > 0] samples of [p > 0] events, a pool of [p * L] genotypes that
    fits an [unsigned int] and positive rates, the E-step of [MCEM_hcbn]
    hands on, observation by observation, the two expectations of the
    loop of [_importance_weight].  For each observation the sum of the
    [L] importance weights is a number between 0 and [L], and it decides
    which: when it is 0 the expected distance is [0 / 0], NaN; otherwise
    the expected distance and the [p] expected waiting times are finite
    numbers that are not negative. *)
Theorem e_step_rejection_ranges :
  forall `{RT : Runtime} (model : Model) (obs : MatrixXb) (times : VectorXd)
         (L : nat) (version : nat) (sampling_times_available : bool)
         (thrds : nat) (rng : rng_type) (e : R),
    rates_ok model -> get_epsilon model = Fin e -> (0 <= e <= 1)%R ->
    0 < L -> 0 < size model ->
    (Z.of_nat (size model) * Z.of_nat L < 2 ^ 32)%Z ->
    let aux := get_auxiliary_rngs thrds rng in
    let rows :=
      importance_weight_loop model obs times L "rejection" version
                             sampling_times_available thrds (snd aux)
                             (seq 0 (length obs)) (fst aux) in
    let r := e_step model obs times L "rejection" version
                    sampling_times_available thrds rng in
    fst (fst r) = map (fun row => snd (fst row)) rows /\
    snd (fst r) = map snd rows /\
    length rows = length obs /\
    Forall (expectation_ok L (size model)) rows.
Proof.
  intros RT model obs times L version avail thrds g e Hrates Heps He HL
         Hp Hov.
  apply e_step_rows. intros genotype time g0.
  apply rejection_record_ok with e; assumption.
Qed.

(** One observation of the chain [0 -> 1 -> 2] at an error rate of
    1/4, with two samples from a pool of six. *)
Lemma e_step_rejection_ranges_witness :
  let aux := @get_auxiliary_rngs counter_runtime 1 0 in
  let rows :=
    @importance_weight_loop counter_runtime (chain_model (Fin (/ 4)))
                            [[true; false; false]] [Fin 1] 2 "rejection" 0
                            false 1 (snd aux) [0] (fst aux) in
  let r := @e_step counter_runtime (chain_model (Fin (/ 4)))
                   [[true; false; false]] [Fin 1] 2 "rejection" 0 false 1
                   0 in
  fst (fst r) = map (fun row => snd (fst row)) rows /\
  Forall (expectation_ok 2 3) rows.
Proof.
  intros aux rows r.
  destruct (chain_model_ok (Fin (/ 4))) as [_ Hrates].
  destruct (@e_step_rejection_ranges
              counter_runtime (chain_model (Fin (/ 4)))
              [[true; false; false]] [Fin 1] 2 0 false 1 0 (/ 4)
              Hrates eq_refl)
    as [H1 [_ [_ H2]]]; [lra | lia | simpl; lia | simpl; lia |].
  split; [exact H1 | exact H2].
Defined.

(** ** Rejection sampling: the observed log-likelihood *)

(** The sum of the weights of one observation under rejection
    sampling. *)
Lemma rejection_weight_sum :
  forall `{RT : Runtime} (genotype : RowVectorXb) (L : nat) (model : Model)
         (time : double) (version : nat) (g : rng_type) (avail : bool)
         (e : R),
    get_epsilon model = Fin e -> (0 <= e <= 1)%R ->
    0 < L -> 0 < size model ->
    (Z.of_nat (size model) * Z.of_nat L < 2 ^ 32)%Z ->
    exists s : R,
      vsum (w (fst (importance_weight genotype L model time "rejection"
                                      version g avail))) = Fin s /\
      (0 <= s <= INR L)%R.
Proof.
  intros RT genotype L model time version g avail e Heps He HL Hp Hov.
  destruct (rejection_record_parts genotype L model time version g avail e
                                   Heps He HL Hp Hov)
    as [[wr [Hw [Hlen Hwr]]] _].
  rewrite Hw, vsum_Fin. exists (Rsum wr). split; [reflexivity|].
  pose proof (Rsum_le_length wr 1 Hwr) as H.
  rewrite Hlen, Rmult_1_r in H. exact H.
Qed.

(** X26.  Under rejection sampling with an error rate in [0, 1],
    [L > 0] samples of [p > 0] events and a pool of [p * L] genotypes
    that fits an [unsigned int], the observed log-likelihood that
    [obs_log_likelihood] accumulates is never NaN and never positive:
    every observation adds [log (w_sum / L)], the log of an average of
    weights in [0, 1], so the result is minus infinity or a finite number
    that is at most 0.  It is minus infinity as soon as the weights of
    one observation sum to 0.  The entry point returns such a number or
    the error of a cyclic poset. *)
Theorem obs_log_likelihood_rejection_sign :
  forall `{RT : Runtime},
    (forall model obs times L version sampling_times_available thrds
            default_rng idxs rngs (e : R),
        get_epsilon model = Fin e -> (0 <= e <= 1)%R ->
        0 < L -> 0 < size model ->
        (Z.of_nat (size model) * Z.of_nat L < 2 ^ 32)%Z ->
        let rows :=
          importance_weight_loop model obs times L "rejection" version
                                 sampling_times_available thrds default_rng
                                 idxs rngs in
        let r := obs_llhood_loop model obs times L "rejection" version
                                 sampling_times_available thrds default_rng
                                 idxs rngs Dbl.zero in
        (r = NInf \/ exists x : R, r = Fin x /\ (x <= 0)%R) /\
        (Exists (fun row => fst (fst row) = Fin 0) rows -> r = NInf)) /\
    (forall obs poset0 lambda (e : R) times L version ctx lambda_s
            sampling_times_available thrds,
        (0 <= e <= 1)%R -> 0 < L -> 0 < length poset0 ->
        (Z.of_nat (length poset0) * Z.of_nat L < 2 ^ 32)%Z ->
        match obs_log_likelihood obs poset0 lambda (Fin e) times L
                                 "rejection" version ctx lambda_s
                                 sampling_times_available thrds with
        | Error err => err = NotAcyclic
        | Ok r => r = NInf \/ exists x : R, r = Fin x /\ (x <= 0)%R
        end).
Proof.
  intros RT.
  assert (Hzero : Dbl.zero = NInf \/
                  exists x : R, Dbl.zero = Fin x /\ (x <= 0)%R).
  { right. exists 0%R. split; [reflexivity | lra]. }
  split.
  - intros model obs times L version avail thrds drng idxs rngs e
           Heps He HL Hp Hov rows r.
    destruct (obs_llhood_loop_sign
                model obs times L "rejection" version avail thrds
                (fun genotype time g =>
                   rejection_weight_sum genotype L model time version g
                                        avail e Heps He HL Hp Hov)
                HL drng idxs rngs Dbl.zero Hzero) as [H1 H2].
    split; [exact H1|]. intros H. apply H2. right. exact H.
  - intros obs poset0 lambda e times L version ctx lambda_s avail thrds
           He HL Hp Hov.
    unfold obs_log_likelihood.
    destruct (cycle (has_cycles _)); [reflexivity|].
    destruct (get_auxiliary_rngs thrds (rng ctx)) as [rngs g1].
    match goal with
    | |- context [obs_llhood_loop ?m _ _ _ _ _ _ _ _ _ _ _] =>
        apply (obs_llhood_loop_sign
                 m obs times L "rejection" version avail thrds
                 (fun genotype time g =>
                    rejection_weight_sum genotype L m time version g avail
                                         e eq_refl He HL Hp Hov)
                 HL g1 (seq 0 (length obs)) rngs Dbl.zero Hzero)
    end.
Qed.

(** The chain [0 -> 1 -> 2], one observation, two samples from a pool
    of six, an error rate of 1/4. *)
Lemma obs_log_likelihood_rejection_sign_witness :
  let r := @obs_llhood_loop counter_runtime (chain_model (Fin (/ 4)))
                            [[true; false; false]] [Fin 1] 2 "rejection" 0
                            false 1 0 [0] [0] Dbl.zero in
  r = NInf \/ exists x : R, r = Fin x /\ (x <= 0)%R.
Proof.
  refine (proj1
            (proj1 (@obs_log_likelihood_rejection_sign counter_runtime)
                   (chain_model (Fin (/ 4))) [[true; false; false]] [Fin 1]
                   2 0 false 1 0 [0] [0] (/ 4)%R eq_refl _ _ _ _)).
  - lra.
  - lia.
  - cbn. lia.
  - cbn. lia.
Defined.
